(** * odm: a verification development for the OverDrive download tools

    The repository holds two command-line programs, each a Go [main] package:

    - the reader variant ([Module Read] below), which fetches an HTML
      document, extracts an embedded JSON manifest and downloads every spine
      entry through a rate-limited work queue with bounded retry;
    - the file variant ([Module File] below), which reads a local [.odm]
      descriptor, computes the licence hash, acquires a licence and downloads
      every part once.

    Go values are embedded as follows: [int] and [time.Duration] as [Z]
    (no arithmetic in the modelled code can leave the 64-bit range: counters
    are bounded by slice lengths), [string] and [[]byte] as [string] (a
    sequence of 8-bit characters), slices as [list] with stdpp's lookup,
    [error] as an inductive type with the package's sentinel as a constructor
    of its own, and a run-time panic as a result of its own.  The network,
    the file system and the clock are explicit: a [World] is threaded through
    every call, and an [Env] answers what the outside does. *)

From Stdlib Require Import ZArith Strings.String Strings.Ascii Numbers.DecimalString Lia.
From stdpp Require Import base option list gmap strings.

Local Open Scope Z_scope.

(** ** Go's formatting verbs and byte strings *)

(** [%d] of [fmt]: decimal digits, a leading minus sign for negatives. *)
Definition fmt_d (n : Z) : string := NilZero.string_of_int (Z.to_int n).

Definition byte_of_ascii (c : ascii) : Z := Z.of_N (N_of_ascii c).
Definition ascii_of_byte (b : Z) : ascii := ascii_of_N (Z.to_N b).

Fixpoint bytes_of_string (s : string) : list Z :=
  match s with
  | EmptyString => []
  | String c r => byte_of_ascii c :: bytes_of_string r
  end.

Fixpoint string_of_bytes (l : list Z) : string :=
  match l with
  | [] => EmptyString
  | b :: r => String (ascii_of_byte b) (string_of_bytes r)
  end.

(** ** UTF-8 decoding ([unicode/utf8], as used by [[]rune(s)] and [regexp]) *)

Module utf8.

Definition RuneError : Z := 0xFFFD.

(** The table [first] of the Go library with its accept ranges: for a
    leading byte, the length of the sequence and the bounds of the second
    byte; [None] for a byte that cannot start a sequence. *)
Definition first (b0 : Z) : option (nat * Z * Z) :=
  if b0 <? 0xC2 then None
  else if b0 <=? 0xDF then Some (2%nat, 0x80, 0xBF)
  else if b0 =? 0xE0 then Some (3%nat, 0xA0, 0xBF)
  else if b0 <=? 0xEC then Some (3%nat, 0x80, 0xBF)
  else if b0 =? 0xED then Some (3%nat, 0x80, 0x9F)
  else if b0 <=? 0xEF then Some (3%nat, 0x80, 0xBF)
  else if b0 =? 0xF0 then Some (4%nat, 0x90, 0xBF)
  else if b0 <=? 0xF3 then Some (4%nat, 0x80, 0xBF)
  else if b0 =? 0xF4 then Some (4%nat, 0x80, 0x8F)
  else None.

Definition cont (b : Z) : bool := (0x80 <=? b) && (b <=? 0xBF).

(** [DecodeRune p]: the first rune of [p] and its width in bytes; an
    invalid or truncated sequence is [(RuneError, 1)], the empty input
    [(RuneError, 0)]. *)
Definition DecodeRune (p : list Z) : Z * nat :=
  match p with
  | [] => (RuneError, 0%nat)
  | b0 :: t0 =>
    if b0 <? 0x80 then (b0, 1%nat)
    else
      match first b0 with
      | None => (RuneError, 1%nat)
      | Some (sz, lo, hi) =>
        match t0 with
        | [] => (RuneError, 1%nat)
        | b1 :: t1 =>
          if (b1 <? lo) || (hi <? b1) then (RuneError, 1%nat)
          else if (sz <=? 2)%nat then
            (Z.lor (Z.shiftl (Z.land b0 0x1F) 6) (Z.land b1 0x3F), 2%nat)
          else
            match t1 with
            | [] => (RuneError, 1%nat)
            | b2 :: t2 =>
              if negb (cont b2) then (RuneError, 1%nat)
              else if (sz <=? 3)%nat then
                (Z.lor (Z.lor (Z.shiftl (Z.land b0 0x0F) 12)
                              (Z.shiftl (Z.land b1 0x3F) 6))
                       (Z.land b2 0x3F), 3%nat)
              else
                match t2 with
                | [] => (RuneError, 1%nat)
                | b3 :: _ =>
                  if negb (cont b3) then (RuneError, 1%nat)
                  else
                    (Z.lor (Z.lor (Z.lor (Z.shiftl (Z.land b0 0x07) 18)
                                         (Z.shiftl (Z.land b1 0x3F) 12))
                                  (Z.shiftl (Z.land b2 0x3F) 6))
                           (Z.land b3 0x3F), 4%nat)
                end
            end
        end
      end
  end.

(** [[]rune(s)]: the runes of a string, decoded left to right.  Every step
    consumes at least one byte, so the length of the input is enough fuel. *)
Fixpoint runes_from (fuel : nat) (p : list Z) : list Z :=
  match fuel, p with
  | O, _ => []
  | _, [] => []
  | S fuel', _ :: _ =>
    let '(r, sz) := DecodeRune p in r :: runes_from fuel' (drop sz p)
  end.

Definition runes (s : string) : list Z :=
  let p := bytes_of_string s in runes_from (length p) p.

End utf8.

(** ** UTF-16 encoding ([unicode/utf16]) *)

Module utf16.

Definition replacementChar : Z := 0xFFFD.
Definition surr1 : Z := 0xd800.
Definition surr3 : Z := 0xe000.
Definition surrSelf : Z := 0x10000.
Definition maxRune : Z := 0x10FFFF.

Definition RuneLen (r : Z) : Z :=
  if ((0 <=? r) && (r <? surr1)) || ((surr3 <=? r) && (r <? surrSelf)) then 1
  else if (surrSelf <=? r) && (r <=? maxRune) then 2
  else -1.

Definition EncodeRune (r : Z) : Z * Z :=
  let r' := r - surrSelf in
  (surr1 + Z.land (Z.shiftr r' 10) 0x3ff, 0xdc00 + Z.land r' 0x3ff).

(** [Encode]: the UTF-16 code units of a sequence of runes. *)
Fixpoint Encode (s : list Z) : list Z :=
  match s with
  | [] => []
  | v :: rest =>
    if RuneLen v =? 1 then v :: Encode rest
    else if RuneLen v =? 2 then
      let '(r1, r2) := EncodeRune v in r1 :: r2 :: Encode rest
    else replacementChar :: Encode rest
  end.

End utf16.

(** ** [encoding/binary]: a slice of [uint16] written little-endian *)

Module binary.

Fixpoint LittleEndian_uint16s (units : list Z) : list Z :=
  match units with
  | [] => []
  | u :: rest => Z.land u 0xff :: Z.shiftr u 8 :: LittleEndian_uint16s rest
  end.

End binary.

(** ** SHA-1 ([crypto/sha1]), on 32-bit words held in [Z] *)

Module sha1.

Definition w32 (x : Z) : Z := x mod 2 ^ 32.
Definition add32 (x y : Z) : Z := w32 (x + y).
Definition not32 (x : Z) : Z := Z.lxor x 0xFFFFFFFF.
Definition RotateLeft32 (x : Z) (k : Z) : Z :=
  w32 (Z.lor (Z.shiftl x k) (Z.shiftr x (32 - k))).

Definition init0 : Z := 0x67452301.
Definition init1 : Z := 0xEFCDAB89.
Definition init2 : Z := 0x98BADCFE.
Definition init3 : Z := 0x10325476.
Definition init4 : Z := 0xC3D2E1F0.

Definition _K0 : Z := 0x5A827999.
Definition _K1 : Z := 0x6ED9EBA1.
Definition _K2 : Z := 0x8F1BBCDC.
Definition _K3 : Z := 0xCA62C1D6.

(** Big-endian bytes of a word of [n] bytes, most significant first. *)
Fixpoint be_bytes (n : nat) (x : Z) : list Z :=
  match n with
  | O => []
  | S n' => Z.land (Z.shiftr x (8 * Z.of_nat n')) 0xff :: be_bytes n' x
  end.

Definition be_word (b0 b1 b2 b3 : Z) : Z :=
  Z.lor (Z.lor (Z.shiftl b0 24) (Z.shiftl b1 16)) (Z.lor (Z.shiftl b2 8) b3).

(** The padding of [checkSum]: a byte 0x80, zeros up to 56 modulo 64, then
    the length of the message in bits as a 64-bit big-endian integer. *)
Definition padding (len : Z) : list Z :=
  let zeros := (55 - len) mod 64 in
  0x80 :: replicate (Z.to_nat zeros) 0 ++ be_bytes 8 ((8 * len) mod 2 ^ 64).

(** The sixteen words of a block. *)
Fixpoint block_words (n : nat) (p : list Z) : list Z :=
  match n, p with
  | S n', b0 :: b1 :: b2 :: b3 :: rest => be_word b0 b1 b2 b3 :: block_words n' rest
  | _, _ => []
  end.

(** The message schedule, kept most recent word first: the head is
    [w[i-1]], so [w[i-3]], [w[i-8]], [w[i-14]] and [w[i-16]] sit at
    positions 2, 7, 13 and 15. *)
Definition next_word (rw : list Z) : Z :=
  let g k := nth k rw 0 in
  RotateLeft32 (Z.lxor (Z.lxor (g 2%nat) (g 7%nat)) (Z.lxor (g 13%nat) (g 15%nat))) 1.

Fixpoint extend (n : nat) (rw : list Z) : list Z :=
  match n with
  | O => rw
  | S n' => extend n' (next_word rw :: rw)
  end.

Definition schedule (p : list Z) : list Z :=
  rev (extend 64 (rev (block_words 16 p))).

Definition round_f (i : nat) (b c d : Z) : Z :=
  if (i <? 20)%nat then Z.lor (Z.land b c) (Z.land (not32 b) d)
  else if (i <? 40)%nat then Z.lxor (Z.lxor b c) d
  else if (i <? 60)%nat then Z.lor (Z.land (Z.lor b c) d) (Z.land b c)
  else Z.lxor (Z.lxor b c) d.

Definition round_k (i : nat) : Z :=
  if (i <? 20)%nat then _K0
  else if (i <? 40)%nat then _K1
  else if (i <? 60)%nat then _K2
  else _K3.

Definition digest : Type := Z * Z * Z * Z * Z.

Fixpoint rounds (i : nat) (ws : list Z) (s : digest) : digest :=
  match ws with
  | [] => s
  | w :: ws' =>
    let '(a, b, c, d, e) := s in
    let t := add32 (add32 (add32 (add32 (RotateLeft32 a 5) (round_f i b c d)) e) w)
                   (round_k i) in
    rounds (S i) ws' (t, a, RotateLeft32 b 30, c, d)
  end.

(** [block]: one 64-byte block folded into the chaining value. *)
Definition block (h : digest) (p : list Z) : digest :=
  let '(h0, h1, h2, h3, h4) := h in
  let '(a, b, c, d, e) := rounds 0 (schedule p) h in
  (add32 h0 a, add32 h1 b, add32 h2 c, add32 h3 d, add32 h4 e).

Fixpoint blocks (n : nat) (h : digest) (p : list Z) : digest :=
  match n with
  | O => h
  | S n' => blocks n' (block h (take 64 p)) (drop 64 p)
  end.

(** [Sum]: the 20-byte digest of everything written to the hash. *)
Definition Sum (msg : list Z) : list Z :=
  let padded := msg ++ padding (Z.of_nat (length msg)) in
  let '(h0, h1, h2, h3, h4) :=
    blocks (Nat.div (length padded) 64) (init0, init1, init2, init3, init4) padded in
  be_bytes 4 h0 ++ be_bytes 4 h1 ++ be_bytes 4 h2 ++ be_bytes 4 h3 ++ be_bytes 4 h4.

End sha1.

(** ** Base64 with the standard alphabet and padding ([encoding/base64]) *)

Module base64.

Definition encodeStd : string :=
  "ABCDEFGHIJKLMNOPQRSTUVWXYZabcdefghijklmnopqrstuvwxyz0123456789+/".

Definition enc (v : Z) : ascii :=
  match String.get (Z.to_nat v) encodeStd with
  | Some c => c
  | None => "="%char
  end.

Fixpoint EncodeToString (src : list Z) : string :=
  match src with
  | [] => EmptyString
  | [b0] =>
    String (enc (Z.shiftr b0 2))
      (String (enc (Z.land (Z.shiftl b0 4) 0x3f)) "==")
  | [b0; b1] =>
    String (enc (Z.shiftr b0 2))
      (String (enc (Z.land (Z.lor (Z.shiftl b0 4) (Z.shiftr b1 4)) 0x3f))
        (String (enc (Z.land (Z.shiftl b1 2) 0x3f)) "="))
  | b0 :: b1 :: b2 :: rest =>
    String (enc (Z.shiftr b0 2))
      (String (enc (Z.land (Z.lor (Z.shiftl b0 4) (Z.shiftr b1 4)) 0x3f))
        (String (enc (Z.land (Z.lor (Z.shiftl b1 2) (Z.shiftr b2 6)) 0x3f))
          (String (enc (Z.land b2 0x3f)) (EncodeToString rest))))
  end.

End base64.

(** ** Errors, results and the outside world *)

(** A Go [error].  [errDownloadFailed] is the sentinel
    [errors.New("download failed")] of the reader package, compared by
    identity; every other error is known by its message. *)
Inductive error : Type :=
| errDownloadFailed
| errorString (msg : string).

Definition Error (e : error) : string :=
  match e with
  | errDownloadFailed => "download failed"
  | errorString msg => msg
  end.

Definition is_errDownloadFailed (e : error) : bool :=
  match e with
  | errDownloadFailed => true
  | errorString _ => false
  end.

(** What a piece of the program does: it returns a value, returns an error,
    or panics (the process dies with a run-time error). *)
Inductive result (A : Type) : Type :=
| Ok (a : A)
| Err (e : error)
| Panic (msg : string).
Arguments Ok {A} a.
Arguments Err {A} e.
Arguments Panic {A} msg.

Record http_Request := mkRequest {
  URL : string;
  Header : gmap string string
}.

(** [Header.Set]; keys are kept as written. *)
Definition Header_Set (k v : string) (r : http_Request) : http_Request :=
  {| URL := URL r; Header := <[k := v]> (Header r) |}.

Record http_Response := mkResponse {
  StatusCode : Z;
  Body : string
}.

Definition StatusOK : Z := 200.
Definition StatusNoContent : Z := 204.

(** One exchange with the outside, as seen by a single part download: how
    long the whole call takes (nanoseconds), what [client.Do] answers, and
    whether [os.Create] and [io.Copy] fail ([io.Copy] after so many bytes
    have reached the file). *)
Record Exchange := mkExchange {
  elapsed : N;
  answer : string + http_Response;
  create_error : option string;
  copy_error : option (nat * string)
}.

(** The environment: [http.NewRequest] rejects some URLs, the [n]-th
    exchange is answered by [client_Do n], and [path_Join] is [path.Join]. *)
Record Env := mkEnv {
  NewRequest_error : string → option string;
  client_Do : nat → http_Request → Exchange;
  path_Join : string → string → string
}.

(** The state of the outside: the clock (nanoseconds), the files by path,
    the number of exchanges so far and the lines written by [log]. *)
Record World := mkWorld {
  clock : Z;
  files : gmap string string;
  exchanges : nat;
  log : list string
}.

Definition log_Printf (line : string) (w : World) : World :=
  {| clock := clock w; files := files w; exchanges := exchanges w;
     log := log w ++ [line] |}.

Definition set_file (path content : string) (w : World) : World :=
  {| clock := clock w; files := <[path := content]> (files w);
     exchanges := exchanges w; log := log w |}.

(** The world once an exchange is over: time has passed, one more exchange
    is counted. *)
Definition exchanged (x : Exchange) (w : World) : World :=
  {| clock := clock w + Z.of_N (elapsed x); files := files w;
     exchanges := S (exchanges w); log := log w |}.

(** The exchange brought a response with status [200 OK]. *)
Definition got_OK (x : Exchange) : bool :=
  match answer x with
  | inl _ => false
  | inr response => StatusCode response =? StatusOK
  end.

(** [http.NewRequest("GET", url, nil)]. *)
Definition NewRequest (env : Env) (url : string) : error + http_Request :=
  match NewRequest_error env url with
  | Some msg => inl (errorString msg)
  | None => inr {| URL := url; Header := ∅ |}
  end.

(** [os.Create] followed by [io.Copy], the tail that both variants of
    [downloadFile] share: the file is truncated, then receives the body, or
    a prefix of it when the copy fails. *)
Definition create_and_copy (x : Exchange) (filePath body : string) (w : World)
  : option error * World :=
  match create_error x with
  | Some msg => (Some (errorString msg), w)
  | None =>
    match copy_error x with
    | Some (n, msg) => (Some (errorString msg), set_file filePath (String.substring 0 n body) w)
    | None => (None, set_file filePath body w)
    end
  end.

(** * The file variant ([file/main.go]) *)

Module File.

Definition ClientId : string := "00000000-0000-0000-0000-000000000000".
Definition HashSecret : string := "ELOSNOC*AIDEM*EVIRDREVO".
Definition OMC : string := "1.2.0".
Definition OS : string := "10.14.2".
Definition UserAgent : string := "OverDrive Media Console".

Record Protocol := mkProtocol {
  Method : string;
  BaseUrl : string
}.

Record Part := mkPart {
  Filename : string;
  Name : string;
  Number : Z
}.

(** The field [Part] of [Parts] and the field [Parts] of [Format] carry a
    trailing underscore: their Go names are those of the types. *)
Record Parts := mkParts {
  Count : Z;
  Part_ : list Part
}.

Record Format := mkFormat {
  Parts_ : Parts;
  Protocols : list Protocol
}.

Record OverDriveMedia := mkOverDriveMedia {
  AcquisitionUrl : string;
  ContentId : string;
  Formats : list Format
}.

(** Lines 89-96 of [run]: the licence hash. *)
Definition licenseValue : string :=
  ClientId +:+ "|" +:+ OMC +:+ "|" +:+ OS +:+ "|" +:+ HashSecret.

Definition encodedLicenseValue : list Z := utf16.Encode (utf8.runes licenseValue).

Definition licenseHash : list Z :=
  sha1.Sum (binary.LittleEndian_uint16s encodedLicenseValue).

Definition encodedLicenseHash : string := base64.EncodeToString licenseHash.

(** Lines 111-128 of [run]: the checks on the decoded descriptor.  [None]
    when all of them pass. *)
Definition check_descriptor (data : OverDriveMedia) : option error :=
  let nformats := Z.of_nat (length (Formats data)) in
  match Formats data with
  | [format0] =>
    if negb (Z.of_nat (length (Part_ (Parts_ format0))) =? Count (Parts_ format0)) then
      Some (errorString ("expected " +:+ fmt_d (Count (Parts_ format0)) +:+
                         " format, got " +:+ fmt_d nformats))
    else
      match Protocols format0 with
      | [protocol0] =>
        if negb (String.eqb (Method protocol0) "download") then
          Some (errorString ("unknown protocol method: " +:+ Method protocol0))
        else None
      | protocols =>
        Some (errorString ("expected 1 protocol, got " +:+
                           fmt_d (Z.of_nat (length protocols))))
      end
  | _ => Some (errorString ("expected 1 format, got " +:+ fmt_d nformats))
  end.

Section Download.

Variable env : Env.
Variable outputDirectory : string.

(** Lines 176-184 of [downloadFile]: the request for one part. *)
Definition part_request (baseUrl : string) (part : Part) (license : string)
  : error + http_Request :=
  let partUrl := baseUrl +:+ "/" +:+ Filename part in
  match NewRequest env partUrl with
  | inl err => inl err
  | inr request =>
    inr (Header_Set "User-Agent" UserAgent
           (Header_Set "License" license (Header_Set "ClientId" ClientId request)))
  end.

(** [downloadFile(baseUrl, part, license)]. *)
Definition downloadFile (baseUrl : string) (part : Part) (license : string) (w : World)
  : option error * World :=
  match part_request baseUrl part license with
  | inl err => (Some err, w)
  | inr request =>
    let x := client_Do env (exchanges w) request in
    let w1 := exchanged x w in
    match answer x with
    | inl msg => (Some (errorString msg), w1)
    | inr response =>
      if negb (StatusCode response =? StatusOK) then
        (Some (errorString ("downloading file returned a " +:+
                            fmt_d (StatusCode response) +:+ " status")), w1)
      else
        let filePath := path_Join env outputDirectory (Name part +:+ ".mp3") in
        create_and_copy x filePath (Body response) w1
    end
  end.

(** Lines 164-170 of [run]: every part in order, stopping at the first
    error. *)
Fixpoint download_parts (baseUrl license : string) (parts : list Part) (w : World)
  : option error * World :=
  match parts with
  | [] => (None, w)
  | part :: rest =>
    match downloadFile baseUrl part license w with
    | (Some err, w') => (Some err, w')
    | (None, w') => download_parts baseUrl license rest w'
    end
  end.

End Download.

End File.

(** * The reader variant *)

Module Read.

(** ** The pattern [window.bData = (?P<Data>{.*})] *)

Module dataRegxp.

Fixpoint strip_prefix (pre p : list Z) : option (list Z) :=
  match pre with
  | [] => Some p
  | c :: pre' =>
    match p with
    | [] => None
    | b :: p' => if b =? c then strip_prefix pre' p' else None
    end
  end.

(** The bytes before the first line feed: what [.*] can run over, since [.]
    matches every rune but the line feed (an invalid byte is the rune
    U+FFFD, which [.] matches as well). *)
Fixpoint line (p : list Z) : list Z :=
  match p with
  | [] => []
  | b :: p' => if b =? 10 then [] else b :: line p'
  end.

(** The prefix of [l] that ends at the last occurrence of [c]. *)
Fixpoint upto_last (c : Z) (l : list Z) : option (list Z) :=
  match l with
  | [] => None
  | b :: r =>
    match upto_last c r with
    | Some r' => Some (b :: r')
    | None => if b =? c then Some [b] else None
    end
  end.

Definition lit_window : list Z := bytes_of_string "window".
Definition lit_bData : list Z := bytes_of_string "bData = {".
Definition brace_open : Z := 123.
Definition brace_close : Z := 125.

(** A match that starts at the head of [p]: the whole match and the group
    [Data].  The unescaped dot of [window.bData] takes one rune, of any
    width, that is not a line feed; the greedy [.*] gives back down to the
    last closing brace of the line. *)
Definition match_here (p : list Z) : option (list Z * list Z) :=
  p1 ← strip_prefix lit_window p;
  let '(r, sz) := utf8.DecodeRune p1 in
  if (sz =? 0)%nat || (r =? 10) then None
  else
    p3 ← strip_prefix lit_bData (drop sz p1);
    g ← upto_last brace_close (line p3);
    Some (lit_window ++ take sz p1 ++ lit_bData ++ g, brace_open :: g).

(** The leftmost match. *)
Fixpoint find (p : list Z) : option (list Z * list Z) :=
  match match_here p with
  | Some m => Some m
  | None =>
    match p with
    | [] => None
    | _ :: p' => find p'
    end
  end.

(** [dataRegxp.FindSubmatch(b)]: [None] is the nil slice of no match,
    otherwise the whole match and the submatch of index 1. *)
Definition FindSubmatch (b : string) : option (string * string) :=
  '(whole, data) ← find (bytes_of_string b);
  Some (string_of_bytes whole, string_of_bytes data).

End dataRegxp.

(** ** The parsed document ([golang.org/x/net/html]) *)

Inductive NodeType : Type :=
| ErrorNode | TextNode | DocumentNode | ElementNode | CommentNode | DoctypeNode | RawNode.

Definition NodeType_eqb (a b : NodeType) : bool :=
  match a, b with
  | ErrorNode, ErrorNode | TextNode, TextNode | DocumentNode, DocumentNode
  | ElementNode, ElementNode | CommentNode, CommentNode
  | DoctypeNode, DoctypeNode | RawNode, RawNode => true
  | _, _ => false
  end.

Record Attribute := mkAttribute {
  Key : string;
  Val : string
}.

(** A node with its children in order: [FirstChild] is the head of the
    list, [NextSibling] the next element. *)
#[local] Unset Elimination Schemes.
Inductive Node : Type :=
| mkNode (Type_ : NodeType) (Data_ : string) (Attr : list Attribute) (children : list Node).

#[local] Set Elimination Schemes.

Definition node_Type (n : Node) : NodeType := let 'mkNode t _ _ _ := n in t.
Definition node_Data (n : Node) : string := let 'mkNode _ d _ _ := n in d.
Definition node_Attr (n : Node) : list Attribute := let 'mkNode _ _ a _ := n in a.
Definition node_children (n : Node) : list Node := let 'mkNode _ _ _ c := n in c.

Record HtmlNode := mkHtmlNode {
  Tag : string;
  Id : string
}.

Record Spine := mkSpine {
  Path : string;
  OriginalPath : string
}.

Record DownloadAttempt := mkDownloadAttempt {
  Count : Z;
  Index : Z;
  Name : string;
  Request : http_Request
}.

Definition htmlPath : list HtmlNode :=
  [ {| Tag := "html"; Id := EmptyString |};
    {| Tag := "body"; Id := EmptyString |};
    {| Tag := "div"; Id := "BIFOCAL-runtime" |};
    {| Tag := "script"; Id := "BIFOCAL-data" |} ].

(** The inner loop over [node.Attr]: some attribute is [id] with the
    wanted value. *)
Definition has_id (id : string) (attrs : list Attribute) : bool :=
  existsb (λ attribute, String.eqb (Key attribute) "id" && String.eqb (Val attribute) id) attrs.

(** The loop over the siblings (lines 129-150): the first child that is an
    element with the selector's tag and, when the selector has one, its id. *)
Fixpoint find_child (selector : HtmlNode) (nodes : list Node) : option Node :=
  match nodes with
  | [] => None
  | node :: rest =>
    if negb (NodeType_eqb (node_Type node) ElementNode) then find_child selector rest
    else if negb (String.eqb (node_Data node) (Tag selector)) then find_child selector rest
    else if String.eqb (Id selector) EmptyString then Some node
    else if has_id (Id selector) (node_Attr node) then Some node
    else find_child selector rest
  end.

(** The loop [pathLoop] (lines 127-152). *)
Fixpoint walk (path : list HtmlNode) (current : Node) : error + Node :=
  match path with
  | [] => inr current
  | selector :: rest =>
    match find_child selector (node_children current) with
    | Some node => walk rest node
    | None => inl (errorString ("unable to find element <" +:+ Tag selector +:+ ">"))
    end
  end.

Fixpoint contains_amp (s : string) : bool :=
  match s with
  | EmptyString => false
  | String c r => Ascii.eqb c "&" || contains_amp r
  end.

Section Extract.

(** The entity decoder of the HTML package, which [html.UnescapeString]
    applies to a string that holds an ampersand. *)
Variable unescape : string → string.

Definition UnescapeString (s : string) : string :=
  if contains_amp s then unescape s else s.

(** Lines 154-155: the text of the first child of the located element,
    unescaped and matched; the submatch of index 1 is the JSON text. *)
Definition extract_data (current : Node) : result string :=
  match node_children current with
  | [] => Panic "runtime error: invalid memory address or nil pointer dereference"
  | firstChild :: _ =>
    let dataBytes := UnescapeString (node_Data firstChild) in
    match dataRegxp.FindSubmatch dataBytes with
    | None => Panic "runtime error: index out of range [1] with length 0"
    | Some (_, data) => Ok data
    end
  end.

(** Lines 114-155: from the parsed document to the JSON text. *)
Definition locate_data (document : Node) : result string :=
  match walk htmlPath document with
  | inl err => Err err
  | inr current => extract_data current
  end.

End Extract.

(** ** The ticker ([time.NewTicker], [<-ticker.C]) *)

(** A ticker of period [period] whose next tick is due at [next], as the
    [time] package documents it: the channel delivers a tick after each
    period, and the ticker adjusts the interval or drops ticks to make up
    for a slow receiver.  Its channel holds at most one tick: a receiver
    that comes late finds one tick waiting, the ticks it missed are
    dropped, and the ticks that follow stay on the original grid. *)
Record Ticker := mkTicker {
  period : Z;
  next : Z
}.

(** [time.NewTicker(d)] panics unless [d] is positive; the first tick is due
    one period after the call. *)
Definition NewTicker (d : Z) (w : World) : option Ticker :=
  if d <=? 0 then None else Some {| period := d; next := clock w + d |}.

Definition set_clock (t : Z) (w : World) : World :=
  {| clock := t; files := files w; exchanges := exchanges w; log := log w |}.

(** [<-ticker.C]: block until the tick that is due, or take the one that is
    waiting; the next tick is the first of the grid after this instant. *)
Definition receive (tk : Ticker) (w : World) : Ticker * World :=
  let now := Z.max (clock w) (next tk) in
  ({| period := period tk;
      next := next tk + period tk * (1 + (now - next tk) / period tk) |},
   set_clock now w).

(** ** The scheduler *)

Record url_URL := mkURL {
  Scheme : string;
  Host : string;
  String_ : string
}.

(** The states of an attempt once it has been executed. *)
Inductive Outcome : Type :=
| Succeeded
| RetryPending
| Failed
| Fatal (err : error).

Definition terminal (o : Outcome) : bool :=
  match o with
  | Succeeded | Failed => true
  | RetryPending | Fatal _ => false
  end.

Definition fatal (o : Outcome) : bool :=
  match o with
  | Fatal _ => true
  | _ => false
  end.

(** One execution, as an observer would record it: the instant at which
    [downloadFile] was called, the attempt, and how it ended. *)
Record Exec := mkExec {
  started : Z;
  attempt : DownloadAttempt;
  outcome : Outcome
}.

Section Scheduler.

Variable env : Env.
Variable outputDirectory : string.
Variable retryCount : Z.

(** [downloadFile(index, client, request, name)]. *)
Definition downloadFile (index : Z) (request : http_Request) (name : string) (w : World)
  : option error * World :=
  let x := client_Do env (exchanges w) request in
  let w1 := exchanged x w in
  match answer x with
  | inl msg => (Some (errorString msg), w1)
  | inr response =>
    if StatusCode response =? StatusNoContent then (Some errDownloadFailed, w1)
    else if negb (StatusCode response =? StatusOK) then
      (Some (errorString ("returned " +:+ fmt_d (StatusCode response) +:+ " status")), w1)
    else
      let filePath := path_Join env outputDirectory name in
      create_and_copy x filePath (Body response) w1
  end.

(** Lines 175-192: one attempt per spine entry, numbered from 1. *)
Fixpoint make_requests (origin : url_URL) (index : nat) (spines : list Spine)
  : error + list DownloadAttempt :=
  match spines with
  | [] => inr []
  | spine :: rest =>
    let url := Scheme origin +:+ "://" +:+ Host origin +:+ "/" +:+ Path spine in
    match NewRequest env url with
    | inl err => inl err
    | inr request0 =>
      let request :=
        Header_Set "User-Agent" "nobody" (Header_Set "Referer" (String_ origin) request0) in
      match make_requests origin (S index) rest with
      | inl err => inl err
      | inr requests =>
        inr ({| Count := 0; Index := Z.of_nat index + 1;
                Name := OriginalPath spine; Request := request |} :: requests)
      end
    end
  end.

(** The variables of the loop of lines 195-216, with the record of the
    executions so far. *)
Record State := mkState {
  requests : list DownloadAttempt;
  index : nat;
  ticker : Ticker;
  world : World;
  trace : list Exec
}.

Inductive Step : Type :=
| Continue (st : State)
| Return (err : option error) (st : State).

Definition retry (a : DownloadAttempt) : DownloadAttempt :=
  {| Count := Count a + 1; Index := Index a; Name := Name a; Request := Request a |}.

(** One turn of the loop: the test [index < len(requests)], then the body. *)
Definition body (st : State) : Step :=
  match requests st !! index st with
  | None => Return None st
  | Some downloadRequest =>
    let '(tk, w0) := receive (ticker st) (world st) in
    let w1 := log_Printf ("downloading file " +:+ fmt_d (Index downloadRequest)) w0 in
    let '(err, w2) :=
      downloadFile (Index downloadRequest) (Request downloadRequest)
                   (Name downloadRequest) w1 in
    let exec o := {| started := clock w0; attempt := downloadRequest; outcome := o |} in
    match err with
    | Some errDownloadFailed =>
      if Count downloadRequest <? retryCount then
        Continue {| requests := requests st ++ [retry downloadRequest];
                    index := S (index st);
                    ticker := tk;
                    world := log_Printf ("downloading file " +:+ fmt_d (Index downloadRequest)
                                         +:+ " failed; retrying") w2;
                    trace := trace st ++ [exec RetryPending] |}
      else
        Continue {| requests := requests st;
                    index := S (index st);
                    ticker := tk;
                    world := log_Printf ("downloading file " +:+ fmt_d (Index downloadRequest)
                                         +:+ " failed") w2;
                    trace := trace st ++ [exec Failed] |}
    | Some err =>
      Return (Some (errorString ("downloading file " +:+ fmt_d (Index downloadRequest)
                                 +:+ " failed: " +:+ Error err)))
             {| requests := requests st; index := index st; ticker := tk;
                world := w2; trace := trace st ++ [exec (Fatal err)] |}
    | None =>
      Continue {| requests := requests st; index := S (index st); ticker := tk;
                  world := w2; trace := trace st ++ [exec Succeeded] |}
    end
  end.

(** The loop, run for at most [fuel] turns; [None] when the fuel runs out
    before the loop is left. *)
Fixpoint loop (fuel : nat) (st : State) : option (option error * State) :=
  match fuel with
  | O => None
  | S fuel' =>
    match body st with
    | Return err st' => Some (err, st')
    | Continue st' => loop fuel' st'
    end
  end.

(** The state after [n] turns, when none of them leaves the loop. *)
Fixpoint turns (n : nat) (st : State) : option State :=
  match n with
  | O => Some st
  | S n' =>
    match body st with
    | Continue st' => turns n' st'
    | Return _ _ => None
    end
  end.

(** The state a turn ends in. *)
Definition after (s : Step) : State :=
  match s with
  | Continue st => st
  | Return _ st => st
  end.

Definition start (reqs : list DownloadAttempt) (tk : Ticker) (w : World) : State :=
  {| requests := reqs; index := 0; ticker := tk; world := w; trace := [] |}.

(** Lines 194-218: the ticker is created, then the loop runs. *)
Definition schedule (interval : Z) (reqs : list DownloadAttempt) (w : World) (fuel : nat)
  : option (result (option error * State)) :=
  match NewTicker interval w with
  | None => Some (Panic "non-positive interval for NewTicker")
  | Some tk =>
    match loop fuel (start reqs tk w) with
    | None => None
    | Some r => Some (Ok r)
    end
  end.

(** ** What the proofs observe *)

(** The attempts not executed yet: the queue past the executions recorded. *)
Definition queued (st : State) : list DownloadAttempt :=
  drop (length (trace st)) (requests st).

Definition count {A : Type} (p : A → bool) (l : list A) : nat :=
  sum_list_with (λ a, if p a then 1%nat else 0%nat) l.

Definition for_entry (i : Z) (a : DownloadAttempt) : bool := Index a =? i.

(** The executions of the entry of sequence index [i], and those that ended
    in a terminal outcome. *)
Definition executions_of (i : Z) (tr : list Exec) : nat :=
  count (λ e, for_entry i (attempt e)) tr.

Definition terminal_outcomes_of (i : Z) (tr : list Exec) : nat :=
  count (λ e, for_entry i (attempt e) && terminal (outcome e)) tr.

(** The sequence indexes of the first attempts (retry count 0) of a list of
    attempts, in the order of the list. *)
Definition firsts (l : list DownloadAttempt) : list Z :=
  Index <$> filter (λ a, Count a = 0) l.

Definition first_attempts (tr : list Exec) : list Z := firsts (attempt <$> tr).

(** The sequence indexes 1, ..., n. *)
Definition indexes (n : nat) : list Z := (λ k, Z.of_nat k + 1) <$> seq 0 n.

(** A manifest as the loop receives it: retry counts 0, sequence indexes
    from 1. *)
Definition manifest (reqs : list DownloadAttempt) : Prop :=
  ∀ k a, reqs !! k = Some a → Count a = 0 ∧ Index a = Z.of_nat k + 1.

(** The executions that an attempt can still cause: itself and its
    retries. *)
Definition weight (a : DownloadAttempt) : nat := Z.to_nat (1 + retryCount - Count a).

Definition wsum (p : DownloadAttempt → bool) (l : list DownloadAttempt) : nat :=
  sum_list_with (λ a, if p a then weight a else 0%nat) l.

(** A property of attempts that a retry keeps. *)
Definition stable (p : DownloadAttempt → bool) : Prop := ∀ a, p (retry a) = p a.

Definition settled (o : Outcome) : bool := terminal o || fatal o.

Definition same_entry (a a0 : DownloadAttempt) : Prop :=
  Index a = Index a0 ∧ Name a = Name a0 ∧ Request a = Request a0.

(** One turn of the loop as the queue and the record see it. *)
Inductive turn (st : State) : Step → Prop :=
| turn_exit :
    requests st !! index st = None →
    turn st (Return None st)
| turn_succeeded a t st' :
    requests st !! index st = Some a →
    requests st' = requests st → index st' = S (index st) →
    trace st' = trace st ++ [mkExec t a Succeeded] →
    turn st (Continue st')
| turn_retry a t st' :
    requests st !! index st = Some a → Count a < retryCount →
    requests st' = requests st ++ [retry a] → index st' = S (index st) →
    trace st' = trace st ++ [mkExec t a RetryPending] →
    turn st (Continue st')
| turn_failed a t st' :
    requests st !! index st = Some a → ¬ Count a < retryCount →
    requests st' = requests st → index st' = S (index st) →
    trace st' = trace st ++ [mkExec t a Failed] →
    turn st (Continue st')
| turn_fatal a t msg st' :
    requests st !! index st = Some a →
    requests st' = requests st → index st' = index st →
    trace st' = trace st ++ [mkExec t a (Fatal (errorString msg))] →
    turn st (Return (Some (errorString ("downloading file " +:+ fmt_d (Index a)
                                        +:+ " failed: " +:+ msg))) st').

(** The shape of the queue and of the record, relative to the manifest
    [reqs0] the loop started from: the record follows the queue, position by
    position; every attempt of the queue stands for an entry of the
    manifest; the queue only grows at its tail.  It holds in every state the
    loop goes through and in the state it returns. *)
Record Shape (reqs0 : list DownloadAttempt) (st : State) : Prop := mkShape {
  shape_prefix : attempt <$> trace st = take (length (trace st)) (requests st);
  shape_nonneg : Forall (λ a, 0 ≤ Count a) (requests st);
  shape_origin : Forall (λ a, ∃ a0, a0 ∈ reqs0 ∧ same_entry a a0) (requests st);
  shape_grow : reqs0 `prefix_of` requests st
}.

(** The budget of the loop, for a retry limit that is not negative: what is
    recorded and what the queue can still cause never exceed what the
    manifest allowed. *)
Record Inv (reqs0 : list DownloadAttempt) (st : State) : Prop := mkInv {
  inv_shape : Shape reqs0 st;
  inv_counts : Forall (λ a, Count a ≤ retryCount) (requests st);
  inv_budget : ∀ p, stable p →
    (count (λ e, p (attempt e)) (trace st) + wsum p (queued st) ≤ wsum p reqs0)%nat;
  inv_settled : ∀ p, stable p →
    (count (λ e, p (attempt e) && settled (outcome e)) (trace st) + count p (queued st)
     = count p reqs0)%nat;
  inv_firsts : firsts (requests st) = firsts reqs0
}.

(** A state in which the loop is still running: the cursor stands after the
    executions recorded, none of which was fatal. *)
Definition Running (st : State) : Prop :=
  index st = length (trace st) ∧ Forall (λ e, fatal (outcome e) = false) (trace st).

(** One execution: the attempt under the cursor is recorded, and either
    nothing is appended and the outcome is settled, or its retry is
    appended and the outcome is [RetryPending]. *)
Definition executes (st st' : State) (a : DownloadAttempt) (e : Exec)
    (appended : list DownloadAttempt) : Prop :=
  requests st !! index st = Some a ∧
  attempt e = a ∧
  trace st' = trace st ++ [e] ∧
  requests st' = requests st ++ appended ∧
  ((appended = [] ∧ settled (outcome e) = true) ∨
   (appended = [retry a] ∧ Count a < retryCount ∧ outcome e = RetryPending)).

(** Attempts numbered from [j + 1], none of them a retry. *)
Definition numbered (j : nat) (reqs : list DownloadAttempt) : Prop :=
  ∀ k a, reqs !! k = Some a → Count a = 0 ∧ Index a = Z.of_nat (j + k) + 1.

(** The pacing of a run whose ticker was created at [t0] with period
    [interval]: every execution starts at or after its own tick and before
    the tick the ticker holds next; an execution that is not the last
    started more than one period before that tick. *)
Definition Paced (t0 interval : Z) (st : State) : Prop :=
  period (ticker st) = interval ∧
  t0 + (Z.of_nat (length (trace st)) + 1) * interval ≤ next (ticker st) ∧
  (∀ k e, trace st !! k = Some e → t0 + (Z.of_nat k + 1) * interval ≤ started e) ∧
  (∀ k e, trace st !! k = Some e → started e < next (ticker st)) ∧
  (∀ k e, trace st !! k = Some e → (S k < length (trace st))%nat →
          started e + interval < next (ticker st)) ∧
  (∀ k e1 e2, trace st !! k = Some e1 → trace st !! S (S k) = Some e2 →
              started e1 + interval < started e2).

(** A run in which no tick has been missed so far: the next tick is not
    due yet, and it is due one period after the last execution started. *)
Definition OnTime (interval : Z) (st : State) : Prop :=
  clock (world st) ≤ next (ticker st) ∧
  (∀ e, last (trace st) = Some e → next (ticker st) = started e + interval) ∧
  (∀ k e1 e2, trace st !! k = Some e1 → trace st !! S k = Some e2 →
              started e2 = started e1 + interval).

End Scheduler.

End Read.

(** * Query strings ([net/url]) *)

Module url.

Definition alnum (c : Z) : bool :=
  ((97 <=? c) && (c <=? 122)) || ((65 <=? c) && (c <=? 90)) || ((48 <=? c) && (c <=? 57)).

(** [shouldEscape(c, encodeQueryComponent)]: everything but letters, digits
    and the marks [-], [_], [.] and [~] is escaped. *)
Definition shouldEscape (c : Z) : bool :=
  if alnum c then false
  else if (c =? 45) || (c =? 95) || (c =? 46) || (c =? 126) then false
  else true.

Definition upperhex : string := "0123456789ABCDEF".

Definition hex (v : Z) : ascii :=
  match String.get (Z.to_nat v) upperhex with
  | Some c => c
  | None => "0"%char
  end.

(** [QueryEscape]: a space becomes a plus sign, any other escaped byte a
    percent sign and two upper-case hexadecimal digits. *)
Fixpoint QueryEscape (s : string) : string :=
  match s with
  | EmptyString => EmptyString
  | String c r =>
    let b := byte_of_ascii c in
    if shouldEscape b then
      if b =? 32 then String "+" (QueryEscape r)
      else String "%" (String (hex (Z.shiftr b 4)) (String (hex (Z.land b 15)) (QueryEscape r)))
    else String c (QueryEscape r)
  end.

(** [url.Values]: the keys with their values; a key occurs once. *)
Definition Values : Type := list (string * list string).

Fixpoint insert_by_key (kv : string * list string) (l : Values) : Values :=
  match l with
  | [] => [kv]
  | kv' :: r => if String.leb kv.1 kv'.1 then kv :: l else kv' :: insert_by_key kv r
  end.

Definition sorted_by_key (v : Values) : Values := foldr insert_by_key [] v.

Fixpoint write_values (keyEscaped : string) (vs : list string) (buf : string) : string :=
  match vs with
  | [] => buf
  | v :: r =>
    let buf := if (0 <? String.length buf)%nat then buf +:+ "&" else buf in
    write_values keyEscaped r (buf +:+ keyEscaped +:+ "=" +:+ QueryEscape v)
  end.

Fixpoint write_keys (kvs : Values) (buf : string) : string :=
  match kvs with
  | [] => buf
  | (k, vs) :: r => write_keys r (write_values (QueryEscape k) vs buf)
  end.

(** [Values.Encode]: [key=value] pairs joined by ampersands, keys in
    increasing order. *)
Definition Encode (v : Values) : string := write_keys (sorted_by_key v) EmptyString.

(** The bytes an escaped component can hold, and the number of times a
    byte occurs in a string. *)
Definition query_safe (c : Z) : bool :=
  negb (shouldEscape c) || (c =? 37) || (c =? 43).

Definition occurrences (c : Z) (s : string) : nat :=
  Read.count (λ b, b =? c) (bytes_of_string s).

End url.

(** * The run of the file variant, from the decoded descriptor *)

Module FileRun.

(** Lines 131-137 of [run]: the query of the acquisition request. *)
Definition RawQuery (contentId : string) : string :=
  url.Encode [ ("MediaID", [contentId]);
               ("ClientID", [File.ClientId]);
               ("OMC", [File.OMC]);
               ("OS", [File.OS]);
               ("Hash", [File.encodedLicenseHash]) ].

Section Run.

Variable env : Env.
Variable outputDirectory : string.

(** The text ([URL.String]) of the acquisition URL of the descriptor once
    its query has been replaced. *)
Variable URL_String : string → string → string.

(** [io.ReadAll] on the body of the [n]-th exchange fails. *)
Variable ReadAll_error : nat → option string.

(** An index expression [s[0]]. *)
Definition index0 {A : Type} (s : list A) : result A :=
  match s with
  | x :: _ => Ok x
  | [] => Panic "runtime error: index out of range [0] with length 0"
  end.

(** Lines 111-172 of [run]: the checks, the licence acquisition, then the
    parts.  The field [Value] of [Url] is a pointer that [UnmarshalXML]
    sets: it is nil when the descriptor has no [License>AcquisitionUrl]
    element, and the assignment to its field [RawQuery] (line 131) then
    panics.  [has_url] tells whether the pointer is set;
    [File.AcquisitionUrl] is the URL it points to. *)
Definition run_decoded (has_url : bool) (data : File.OverDriveMedia) (w : World)
  : result unit * World :=
  match File.check_descriptor data with
  | Some err => (Err err, w)
  | None =>
    if negb has_url then
      (Panic "runtime error: invalid memory address or nil pointer dereference", w)
    else
    match NewRequest env (URL_String (File.AcquisitionUrl data) (RawQuery (File.ContentId data))) with
    | inl err => (Err err, w)
    | inr request0 =>
      let request := Header_Set "User-Agent" File.UserAgent request0 in
      let x := client_Do env (exchanges w) request in
      let w1 := exchanged x w in
      match answer x with
      | inl msg => (Err (errorString msg), w1)
      | inr response =>
        if negb (StatusCode response =? StatusOK) then
          match ReadAll_error (exchanges w) with
          | Some msg => (Err (errorString msg), w1)
          | None =>
            (Err (errorString ("acquiring license returned a " +:+ fmt_d (StatusCode response)
                               +:+ " status: " +:+ Body response)), w1)
          end
        else
          match ReadAll_error (exchanges w) with
          | Some msg => (Err (errorString msg), w1)
          | None =>
            let license := Body response in
            match index0 (File.Formats data) with
            | Panic msg => (Panic msg, w1)
            | Err err => (Err err, w1)
            | Ok format0 =>
              match index0 (File.Protocols format0) with
              | Panic msg => (Panic msg, w1)
              | Err err => (Err err, w1)
              | Ok protocol0 =>
                match File.download_parts env outputDirectory (File.BaseUrl protocol0) license
                        (File.Part_ (File.Parts_ format0)) w1 with
                | (Some err, w2) => (Err err, w2)
                | (None, w2) => (Ok tt, w2)
                end
              end
            end
          end
      end
    end
  end.

(** The destinations of the parts of a descriptor. *)
Definition destinations (parts : list File.Part) : list string :=
  (λ part, path_Join env outputDirectory (File.Name part +:+ ".mp3")) <$> parts.

Definition all_destinations (data : File.OverDriveMedia) : list string :=
  File.Formats data ≫= λ format0, destinations (File.Part_ (File.Parts_ format0)).

End Run.

Definition panicked {A : Type} (r : result A) : bool :=
  match r with
  | Panic _ => true
  | _ => false
  end.

End FileRun.

(** * The run of the reader variant, from the parsed document *)

Module ReadRun.

(** The exchange is a [200 OK] whose body reaches the file in full. *)
Definition clean_OK (x : Exchange) : Prop :=
  got_OK x = true ∧ create_error x = None ∧ copy_error x = None.

Definition body_of (x : Exchange) : string :=
  match answer x with
  | inl _ => EmptyString
  | inr response => Body response
  end.

(** The destination of an attempt. *)
Definition destination (env : Env) (outputDirectory : string) (a : Read.DownloadAttempt)
  : string :=
  path_Join env outputDirectory (Read.Name a).

(** The executions of a record before position [k]. *)
Definition earlier (k : nat) (tr : list Read.Exec) : list Read.Exec := take k tr.

(** What a selector of the path selects: an element with its tag and,
    when it has an id, an attribute [id] of that value. *)
Definition selects (selector : Read.HtmlNode) (node : Read.Node) : bool :=
  Read.NodeType_eqb (Read.node_Type node) Read.ElementNode &&
  String.eqb (Read.node_Data node) (Read.Tag selector) &&
  (String.eqb (Read.Id selector) EmptyString ||
   Read.has_id (Read.Id selector) (Read.node_Attr node)).

(** The URL requested for a spine entry, and the attempt built for the
    entry of position [k]. *)
Definition spine_url (origin : Read.url_URL) (spine : Read.Spine) : string :=
  Read.Scheme origin +:+ "://" +:+ Read.Host origin +:+ "/" +:+ Read.Path spine.

Definition attempt_for (origin : Read.url_URL) (k : nat) (spine : Read.Spine)
  : Read.DownloadAttempt :=
  {| Read.Count := 0;
     Read.Index := Z.of_nat k + 1;
     Read.Name := Read.OriginalPath spine;
     Read.Request :=
       {| URL := spine_url origin spine;
          Header := <["User-Agent" := "nobody"]> (<["Referer" := Read.String_ origin]> ∅) |} |}.

(** The retry counts of a state count executions: in the record and in the
    queue, the retry count of an attempt is the number of executions of its
    entry so far; no entry is queued twice. *)
Definition counted (st : Read.State) : Prop :=
  (∀ k e, Read.trace st !! k = Some e →
     Read.Count (Read.attempt e)
     = Z.of_nat (Read.executions_of (Read.Index (Read.attempt e)) (take k (Read.trace st)))) ∧
  (∀ a, a ∈ Read.queued st →
     Read.Count a = Z.of_nat (Read.executions_of (Read.Index a) (Read.trace st))) ∧
  NoDup (Read.Index <$> Read.queued st).

(** A run of the queue [reqs] from the world [w] in which every execution
    so far succeeded. *)
Definition all_ok (env : Env) (outputDirectory : string)
    (reqs : list Read.DownloadAttempt) (w : World) (st : Read.State) : Prop :=
  Read.requests st = reqs ∧
  Read.attempt <$> Read.trace st = take (Read.index st) reqs ∧
  Forall (λ e, Read.outcome e = Read.Succeeded) (Read.trace st) ∧
  exchanges (Read.world st) = (exchanges w + Read.index st)%nat ∧
  ∀ k a, (k < Read.index st)%nat → reqs !! k = Some a →
    files (Read.world st) !! destination env outputDirectory a =
    Some (body_of (client_Do env (exchanges w + k) (Read.Request a))).

Section Run.

Variable env : Env.
Variable outputDirectory : string.
Variable retryCount : Z.
Variable unescape : string → string.

(** [json.Unmarshal] into [Data]: the spine of the JSON text, or an error. *)
Variable json_Unmarshal : string → error + list Read.Spine.

(** [os.Create] of the metadata file fails; [file.Write] fails after so
    many bytes. *)
Variable metadata_create_error : option string.
Variable metadata_write_error : option (nat * string).

(** Lines 114-218 of [run]: the data is located, written to
    [metadata.json] and parsed; the attempts are built and scheduled.
    [origin] is the URL of the request that brought the document. *)
Definition run_document (origin : Read.url_URL) (interval : Z) (document : Read.Node)
    (w : World) (fuel : nat) : option (result unit * World) :=
  match Read.locate_data unescape document with
  | Err err => Some (Err err, w)
  | Panic msg => Some (Panic msg, w)
  | Ok dataBytes =>
    let filePath := path_Join env outputDirectory "metadata.json" in
    match metadata_create_error with
    | Some msg => Some (Err (errorString msg), w)
    | None =>
      match metadata_write_error with
      | Some (n, msg) =>
        Some (Err (errorString msg), set_file filePath (String.substring 0 n dataBytes) w)
      | None =>
        let w1 := set_file filePath dataBytes w in
        match json_Unmarshal dataBytes with
        | inl err => Some (Err err, w1)
        | inr spine =>
          match Read.make_requests env origin 0 spine with
          | inl err => Some (Err err, w1)
          | inr requests =>
            match Read.schedule env outputDirectory retryCount interval requests w1 fuel with
            | None => None
            | Some (Panic msg) => Some (Panic msg, w1)
            | Some (Err err) => Some (Err err, w1)
            | Some (Ok (Some err, fin)) => Some (Err err, Read.world fin)
            | Some (Ok (None, fin)) => Some (Ok tt, Read.world fin)
            end
          end
        end
      end
    end
  end.

End Run.

End ReadRun.

(** * Concrete inputs *)

Module Examples.

(** [path.Join] on a clean directory name and a clean file name. *)
Definition join_clean (dir name : string) : string := dir +:+ "/" +:+ name.

Definition reply (status : Z) (body : string) : Exchange :=
  {| elapsed := 0; answer := inr {| StatusCode := status; Body := body |};
     create_error := None; copy_error := None |}.

Definition slow_reply (ns : N) (status : Z) (body : string) : Exchange :=
  {| elapsed := ns; answer := inr {| StatusCode := status; Body := body |};
     create_error := None; copy_error := None |}.

Definition refused : Exchange :=
  {| elapsed := 0; answer := inl "dial tcp: connection refused";
     create_error := None; copy_error := None |}.

(** An outside that answers the [n]-th exchange with the [n]-th element of
    a script, and with [200 OK] once the script is over. *)
Definition no_content : Env := {|
  NewRequest_error := λ _, None;
  client_Do := λ _ _, reply 204 "-";
  path_Join := join_clean
|}.

Definition scripted (script : list Exchange) : Env :=
  {| NewRequest_error := λ _, None;
     client_Do := λ n _, default (reply 200 "audio") (script !! n);
     path_Join := join_clean |}.

Definition world0 : World :=
  {| clock := 0; files := {[ "out/Part 1.mp3" := "old audio" ]}; exchanges := 0; log := [] |}.

Definition part1 : File.Part :=
  {| File.Filename := "p1.mp3"; File.Name := "Part 1"; File.Number := 1 |}.
Definition part2 : File.Part :=
  {| File.Filename := "p2.mp3"; File.Name := "Part 2"; File.Number := 2 |}.

(** A descriptor with one format and one download protocol that declares
    three parts and lists two. *)
Definition short_descriptor : File.OverDriveMedia :=
  {| File.AcquisitionUrl := "https://license.example/acquire";
     File.ContentId := "{0001}";
     File.Formats :=
       [ {| File.Parts_ := {| File.Count := 3; File.Part_ := [part1; part2] |};
            File.Protocols :=
              [ {| File.Method := "download"; File.BaseUrl := "https://cdn.example/book" |} ] |} ] |}.

Definition element (tag : string) (attrs : list Read.Attribute) (children : list Read.Node)
  : Read.Node :=
  Read.mkNode Read.ElementNode tag attrs children.

Definition text (s : string) : Read.Node := Read.mkNode Read.TextNode s [] [].

Definition id_attr (v : string) : Read.Attribute := {| Read.Key := "id"; Read.Val := v |}.

(** The document
    [<html><head></head><body><div id=BIFOCAL-runtime>
       <script id=BIFOCAL-data>SCRIPT</script></div></body></html>]. *)
Definition page (script : list Read.Node) : Read.Node :=
  Read.mkNode Read.DocumentNode EmptyString []
    [ element "html" []
        [ element "head" [] [];
          element "body" []
            [ element "div" [id_attr "BIFOCAL-runtime"]
                [ element "script" [id_attr "BIFOCAL-data"] script ] ] ] ].

Definition origin : Read.url_URL :=
  {| Read.Scheme := "https"; Read.Host := "read.example";
     Read.String_ := "https://read.example/book?x=1" |}.

Definition spine2 : list Read.Spine :=
  [ {| Read.Path := "a?cmpt=1"; Read.OriginalPath := "a.mp3" |};
    {| Read.Path := "b?cmpt=2"; Read.OriginalPath := "b.mp3" |} ].

Definition attempt_of (i : Z) (name : string) (c : Z) : Read.DownloadAttempt :=
  {| Read.Count := c; Read.Index := i; Read.Name := name;
     Read.Request := {| URL := "https://read.example/" +:+ name; Header := ∅ |} |}.

Definition requests2 : list Read.DownloadAttempt :=
  [ attempt_of 1 "a.mp3" 0; attempt_of 2 "b.mp3" 0 ].

Definition ticker0 : Read.Ticker := {| Read.period := 2000000000; Read.next := 2000000000 |}.

(** The attempts that the reader builds for [spine2]. *)
Definition requests_spine2 : list Read.DownloadAttempt :=
  match Read.make_requests no_content origin 0 spine2 with
  | inr reqs => reqs
  | inl _ => []
  end.

(** What a run returned and, for every execution in order, the instant it
    started at, the sequence index and the retry count of the attempt, and
    its outcome. *)
Definition summary (r : option (option error * Read.State))
  : option (option error * list (Z * Z * Z * Read.Outcome)) :=
  '(res, fin) ← r;
  Some (res, (λ e, (Read.started e, Read.Index (Read.attempt e),
                    Read.Count (Read.attempt e), Read.outcome e)) <$> Read.trace fin).

Definition second : Z := 1000000000.

(** An outside whose first exchange is answered by a 204, the later ones by
    a 200; one whose first exchange is answered by a 500; one whose first
    exchange is a 204 that takes three seconds. *)
Definition flaky : Env := scripted [reply 204 "-"].
Definition broken : Env := scripted [reply 500 "-"].
Definition sluggish : Env := scripted [slow_reply (3 * 1000000000) 204 "-"].

Definition state0 : Read.State := Read.start requests_spine2 ticker0 world0.

Definition first_of (l : list Read.DownloadAttempt) : Read.DownloadAttempt :=
  default (attempt_of 0 EmptyString 0) (head l).

Definition final_of (r : option (result (option error * Read.State))) : Read.State :=
  match r with
  | Some (Ok (_, fin)) => fin
  | _ => state0
  end.

(** A run of the two entries with a period of two seconds. *)
Definition paced_run (env : Env) : option (result (option error * Read.State)) :=
  Read.schedule env "out" 1 (2 * second) requests_spine2 world0 10.

Definition starts (r : option (result (option error * Read.State))) : list Z :=
  Read.started <$> Read.trace (final_of r).

End Examples.

(** * More concrete inputs *)

Module Cases.

(** An outside that answers every exchange with a [200 OK]. *)
Definition steady : Env := Examples.scripted [].

(** An outside whose first exchange is a 200 whose copy fails after three
    bytes. *)
Definition truncating : Env :=
  Examples.scripted
    [ {| elapsed := 0; answer := inr {| StatusCode := 200; Body := "audio" |};
         create_error := None; copy_error := Some (3%nat, "unexpected EOF") |} ].

(** An outside that rejects the URL of the second spine entry. *)
Definition picky : Env :=
  {| NewRequest_error :=
       λ url, if String.eqb url "https://read.example/b?cmpt=2"
              then Some "invalid URL escape" else None;
     client_Do := λ _ _, Examples.reply 200 "audio";
     path_Join := Examples.join_clean |}.

Definition final (r : option (option error * Read.State)) : Read.State :=
  match r with
  | Some (_, fin) => fin
  | None => Examples.state0
  end.

Definition returned (r : option (option error * Read.State)) : option error :=
  match r with
  | Some (res, _) => res
  | None => None
  end.

(** The runs of the two entries of [Examples.spine2] in the outsides of
    the examples, with a retry limit of 1. *)
Definition flaky_loop : option (option error * Read.State) :=
  Read.loop Examples.flaky "out" 1 5 Examples.state0.

Definition broken_loop : option (option error * Read.State) :=
  Read.loop Examples.broken "out" 1 5 Examples.state0.

Definition exec_at (k : nat) (r : option (option error * Read.State)) : Read.Exec :=
  default (Read.mkExec 0 (Examples.attempt_of 0 EmptyString 0) Read.Succeeded)
          (Read.trace (final r) !! k).

(** A document whose script holds a manifest, and the JSON decoders of the
    examples: one that refuses every text, one that yields
    [Examples.spine2]. *)
Definition document : Read.Node :=
  Examples.page [Examples.text "window.bData = {1: 2};"].

Definition json_refuses (s : string) : error + list Read.Spine :=
  inl (errorString "invalid character '1' looking for beginning of object key string").

Definition json_spine2 (s : string) : error + list Read.Spine := inr Examples.spine2.

Definition identity (s : string) : string := s.

(** A descriptor with one format of two parts and one download protocol. *)
Definition descriptor : File.OverDriveMedia :=
  {| File.AcquisitionUrl := "https://license.example/acquire";
     File.ContentId := "{0001-AB}";
     File.Formats :=
       [ {| File.Parts_ := {| File.Count := 2; File.Part_ := [Examples.part1; Examples.part2] |};
            File.Protocols :=
              [ {| File.Method := "download"; File.BaseUrl := "https://cdn.example/book" |} ] |} ] |}.

Definition with_query (u q : string) : string := u +:+ "?" +:+ q.

Definition reads_all (n : nat) : option string := None.

(** The run of [document] in the steady outside, with a period of two
    seconds, and the world a run ends in. *)
Definition steady_run : option (result unit * World) :=
  ReadRun.run_document steady "out" 1 identity json_spine2 None None
    Examples.origin (2 * Examples.second) document Examples.world0 10.

Definition world_after (r : option (result unit * World)) : World :=
  match r with
  | Some (_, w) => w
  | None => Examples.world0
  end.

End Cases.

(** * The licence hash *)

Lemma licenseValue_literal :
  File.licenseValue =
  "00000000-0000-0000-0000-000000000000|1.2.0|10.14.2|ELOSNOC*AIDEM*EVIRDREVO".
Proof. reflexivity. Qed.

(** Every character of the licence value is ASCII, so its UTF-16 code
    units are its bytes and the hashed message is each byte followed by a
    zero byte. *)
Lemma licenseValue_utf16le :
  binary.LittleEndian_uint16s File.encodedLicenseValue =
  flat_map (λ b, [b; 0]) (bytes_of_string File.licenseValue).
Proof. vm_compute. reflexivity. Qed.

(** C6. The licence hash of the constants of the program: the string
    [ClientId|OMC|OS|HashSecret], encoded as UTF-16 code units, written
    little-endian into SHA-1, the digest encoded in base64, is the string
    [Y/FyR6Zq9Iu2GqYbNPzmvqgnwP0=] (digest
    63f17247a66af48bb61aa61b34fce6bea827c0fd). *)
Theorem license_hash_golden :
  File.licenseValue =
    "00000000-0000-0000-0000-000000000000|1.2.0|10.14.2|ELOSNOC*AIDEM*EVIRDREVO" ∧
  File.licenseHash =
    [0x63; 0xf1; 0x72; 0x47; 0xa6; 0x6a; 0xf4; 0x8b; 0xb6; 0x1a;
     0xa6; 0x1b; 0x34; 0xfc; 0xe6; 0xbe; 0xa8; 0x27; 0xc0; 0xfd] ∧
  File.encodedLicenseHash = "Y/FyR6Zq9Iu2GqYbNPzmvqgnwP0=".
Proof. repeat split; vm_compute; reflexivity. Qed.

(** SHA-1 and base64 on the test vector of FIPS 180: the digest of [abc]. *)
Example sha1_abc :
  sha1.Sum (bytes_of_string "abc") =
  [0xa9; 0x99; 0x3e; 0x36; 0x47; 0x06; 0x81; 0x6a; 0xba; 0x3e;
   0x25; 0x71; 0x78; 0x50; 0xc2; 0x6c; 0x9c; 0xd0; 0xd8; 0x9d].
Proof. vm_compute. reflexivity. Qed.

(** * The checks on the descriptor *)

(** The checks pass exactly on a descriptor with one format, as many parts
    as declared, and one protocol of method [download]. *)
Lemma check_descriptor_passes (data : File.OverDriveMedia) :
  File.check_descriptor data = None ↔
  ∃ format0 protocol0,
    File.Formats data = [format0] ∧
    Z.of_nat (length (File.Part_ (File.Parts_ format0))) = File.Count (File.Parts_ format0) ∧
    File.Protocols format0 = [protocol0] ∧
    File.Method protocol0 = "download".
Proof.
  unfold File.check_descriptor. split.
  - destruct (File.Formats data) as [|format0 [|? ?]] eqn:Hf; try discriminate.
    destruct (Z.eqb_spec (Z.of_nat (length (File.Part_ (File.Parts_ format0))))
                         (File.Count (File.Parts_ format0))) as [Hc|Hc];
      simpl; try discriminate.
    destruct (File.Protocols format0) as [|protocol0 [|? ?]] eqn:Hp; try discriminate.
    destruct (String.eqb_spec (File.Method protocol0) "download") as [Hm|Hm];
      simpl; try discriminate.
    intros _. exists format0, protocol0. done.
  - intros (format0 & protocol0 & -> & Hc & -> & Hm).
    apply Z.eqb_eq in Hc. rewrite Hc. simpl.
    apply String.eqb_eq in Hm. rewrite Hm. done.
Qed.

(** When the only deviation is the number of parts, the message is built
    from the declared count and the number of formats, whatever the number
    of parts listed. *)
Lemma check_descriptor_part_count (data : File.OverDriveMedia) (format0 : File.Format) :
  File.Formats data = [format0] →
  Z.of_nat (length (File.Part_ (File.Parts_ format0))) ≠ File.Count (File.Parts_ format0) →
  File.check_descriptor data =
  Some (errorString ("expected " +:+ fmt_d (File.Count (File.Parts_ format0)) +:+
                     " format, got 1")).
Proof.
  intros Hf Hc. unfold File.check_descriptor. rewrite Hf.
  apply Z.eqb_neq in Hc. rewrite Hc. reflexivity.
Qed.

(** C7. On a descriptor with one format and one download protocol that
    declares three parts and lists two, the check fails with the message
    [expected 3 format, got 1]: the number it reports as found is the number
    of formats, not the two parts that are listed. *)
Theorem part_count_message_reports_format_count :
  (λ f, (File.Count (File.Parts_ f), length (File.Part_ (File.Parts_ f))))
    <$> File.Formats Examples.short_descriptor = [(3, 2%nat)] ∧
  File.check_descriptor Examples.short_descriptor =
    Some (errorString "expected 3 format, got 1").
Proof. split; reflexivity. Qed.

(** * Locating the embedded data *)

Section Locate.

Variable unescape : string → string.

(** Whenever the walk reaches an element whose first child holds a text
    that the pattern does not match, the program panics on the index
    expression; no error is returned. *)
Lemma locate_data_no_match (document current firstChild : Read.Node) (rest : list Read.Node) :
  Read.walk Read.htmlPath document = inr current →
  Read.node_children current = firstChild :: rest →
  Read.dataRegxp.FindSubmatch (Read.UnescapeString unescape (Read.node_Data firstChild)) = None →
  Read.locate_data unescape document =
  Panic "runtime error: index out of range [1] with length 0".
Proof.
  intros Hw Hc Hm. unfold Read.locate_data, Read.extract_data.
  rewrite Hw, Hc, Hm. reflexivity.
Qed.

(** Once the walk has succeeded, the extraction never returns an error: it
    yields the data or panics. *)
Lemma locate_data_after_walk (document current : Read.Node) :
  Read.walk Read.htmlPath document = inr current →
  ∀ e, Read.locate_data unescape document ≠ Err e.
Proof.
  intros Hw e. unfold Read.locate_data, Read.extract_data. rewrite Hw.
  destruct (Read.node_children current); [discriminate|].
  destruct (Read.dataRegxp.FindSubmatch _) as [[? ?]|]; discriminate.
Qed.

(** C8. On the document whose element [script#BIFOCAL-data] holds the text
    [var x = 1;], the walk succeeds, the pattern does not match, and the
    program panics with an index out of range instead of returning an
    error. *)
Theorem unmatched_data_panics :
  (∃ current, Read.walk Read.htmlPath (Examples.page [Examples.text "var x = 1;"]) = inr current) ∧
  Read.dataRegxp.FindSubmatch "var x = 1;" = None ∧
  Read.locate_data unescape (Examples.page [Examples.text "var x = 1;"]) =
    Panic "runtime error: index out of range [1] with length 0".
Proof.
  split; [eexists; reflexivity|]. split; [vm_compute; reflexivity|].
  vm_compute. reflexivity.
Qed.

End Locate.

(** An element without children makes the same lines panic on the nil
    [FirstChild]. *)
Example empty_script_panics (unescape : string → string) :
  Read.locate_data unescape (Examples.page []) =
  Panic "runtime error: invalid memory address or nil pointer dereference".
Proof. reflexivity. Qed.

(** A document without the wanted element is reported as an error. *)
Example missing_element (unescape : string → string) :
  Read.locate_data unescape (Examples.element "html" [] []) =
  Err (errorString "unable to find element <html>").
Proof. reflexivity. Qed.

(** A matching text: the group runs to the last closing brace of the line. *)
Example data_found :
  Read.dataRegxp.FindSubmatch "x; window.bData = {1: {2}}; }, y" =
  Some ("window.bData = {1: {2}}; }", "{1: {2}}; }").
Proof. vm_compute. reflexivity. Qed.

(** * One download *)

Section Executor.

Variable env : Env.
Variable outputDirectory : string.

(** The tail shared by both variants touches nothing but the files. *)
Lemma create_and_copy_world (x : Exchange) (filePath body : string) (w : World) :
  let w' := (create_and_copy x filePath body w).2 in
  clock w' = clock w ∧ exchanges w' = exchanges w ∧ log w' = log w.
Proof.
  unfold create_and_copy.
  destruct (create_error x); [done|]. destruct (copy_error x) as [[? ?]|]; done.
Qed.

(** The reader's [downloadFile] by cases on the answer. *)
Lemma read_downloadFile_neterr index request name w msg :
  answer (client_Do env (exchanges w) request) = inl msg →
  Read.downloadFile env outputDirectory index request name w =
  (Some (errorString msg), exchanged (client_Do env (exchanges w) request) w).
Proof. intros H. unfold Read.downloadFile. rewrite H. reflexivity. Qed.

Lemma read_downloadFile_204 index request name w body :
  answer (client_Do env (exchanges w) request) = inr {| StatusCode := 204; Body := body |} →
  Read.downloadFile env outputDirectory index request name w =
  (Some errDownloadFailed, exchanged (client_Do env (exchanges w) request) w).
Proof. intros H. unfold Read.downloadFile. rewrite H. reflexivity. Qed.

Lemma read_downloadFile_status index request name w status body :
  status ≠ 200 → status ≠ 204 →
  answer (client_Do env (exchanges w) request) = inr {| StatusCode := status; Body := body |} →
  Read.downloadFile env outputDirectory index request name w =
  (Some (errorString ("returned " +:+ fmt_d status +:+ " status")),
   exchanged (client_Do env (exchanges w) request) w).
Proof.
  intros H200 H204 H. unfold Read.downloadFile. rewrite H. simpl.
  unfold StatusNoContent, StatusOK.
  destruct (Z.eqb_spec status 204); [done|]. destruct (Z.eqb_spec status 200); done.
Qed.

(** The reader's [downloadFile] never returns an error without a message
    other than the sentinel, and returns the sentinel on 204 only. *)
Lemma read_downloadFile_sentinel index request name w :
  (Read.downloadFile env outputDirectory index request name w).1 = Some errDownloadFailed ↔
  ∃ body, answer (client_Do env (exchanges w) request) = inr {| StatusCode := 204; Body := body |}.
Proof.
  unfold Read.downloadFile.
  destruct (answer _) as [msg|[status body]] eqn:Ha; simpl.
  - split; [discriminate|]. intros [? ?]; discriminate.
  - unfold StatusNoContent, StatusOK.
    destruct (Z.eqb_spec status 204) as [->|Hne]; simpl.
    + split; eauto.
    + destruct (Z.eqb_spec status 200); simpl.
      * unfold create_and_copy. destruct (create_error _); simpl.
        { split; [discriminate|]. intros [? [=]]; done. }
        destruct (copy_error _) as [[? ?]|]; simpl;
          (split; [discriminate|]; intros [? [=]]; done).
      * split; [discriminate|]. intros [? [=]]; done.
Qed.

(** C5. A response whose status is not 200, received by a part download:
    the reader variant returns its sentinel [errDownloadFailed] when the
    status is 204 and an error carrying the status otherwise; the file
    variant returns an error carrying the status whatever it is, 204
    included, and its run stops on that error after this one exchange. *)
Theorem no_content_classification
    (w : World) (index : Z) (request : http_Request) (name : string)
    (baseUrl license : string) (part : File.Part) (rest : list File.Part)
    (partRequest : http_Request) (status : Z) (body body' : string) :
  status ≠ 200 →
  answer (client_Do env (exchanges w) request) = inr {| StatusCode := status; Body := body |} →
  File.part_request env baseUrl part license = inr partRequest →
  answer (client_Do env (exchanges w) partRequest) = inr {| StatusCode := status; Body := body' |} →
  (Read.downloadFile env outputDirectory index request name w).1 =
    Some (if status =? 204 then errDownloadFailed
          else errorString ("returned " +:+ fmt_d status +:+ " status")) ∧
  (File.downloadFile env outputDirectory baseUrl part license w).1 =
    Some (errorString ("downloading file returned a " +:+ fmt_d status +:+ " status")) ∧
  File.download_parts env outputDirectory baseUrl license (part :: rest) w =
    (Some (errorString ("downloading file returned a " +:+ fmt_d status +:+ " status")),
     exchanged (client_Do env (exchanges w) partRequest) w).
Proof.
  intros Hne Ha Hp Hb.
  assert (File.downloadFile env outputDirectory baseUrl part license w =
    (Some (errorString ("downloading file returned a " +:+ fmt_d status +:+ " status")),
     exchanged (client_Do env (exchanges w) partRequest) w)) as Hfile.
  { unfold File.downloadFile. rewrite Hp, Hb. simpl. unfold StatusOK.
    destruct (Z.eqb_spec status 200); done. }
  split; [|split].
  - destruct (Z.eqb_spec status 204) as [->|H204].
    + by erewrite read_downloadFile_204.
    + by erewrite read_downloadFile_status.
  - by rewrite Hfile.
  - simpl. by rewrite Hfile.
Qed.

(** C10. A part download whose exchange does not bring a [200 OK] (a
    network error, a 204, any other status, or no exchange at all when the
    request cannot be built) leaves every file as it was, in both
    variants: a file is created or truncated only after a 200. *)
Theorem no_write_without_ok
    (w : World) (index : Z) (request : http_Request) (name : string)
    (baseUrl license : string) (part : File.Part) :
  got_OK (client_Do env (exchanges w) request) = false →
  (∀ partRequest, File.part_request env baseUrl part license = inr partRequest →
                  got_OK (client_Do env (exchanges w) partRequest) = false) →
  files (Read.downloadFile env outputDirectory index request name w).2 = files w ∧
  files (File.downloadFile env outputDirectory baseUrl part license w).2 = files w.
Proof.
  intros Hr Hf. split.
  - unfold Read.downloadFile. unfold got_OK in Hr.
    destruct (answer _) as [msg|response]; [done|]. simpl.
    destruct (StatusCode response =? StatusNoContent); [done|].
    rewrite Hr. done.
  - unfold File.downloadFile.
    destruct (File.part_request env baseUrl part license) as [err|partRequest]; [done|].
    specialize (Hf partRequest eq_refl). unfold got_OK in Hf.
    destruct (answer _) as [msg|response]; [done|]. simpl.
    rewrite Hf. done.
Qed.

(** After a 200, when the file can be created and the copy completes, the
    destination holds the body and nothing of what it held before. *)
Lemma read_downloadFile_ok index request name w body :
  let x := client_Do env (exchanges w) request in
  answer x = inr {| StatusCode := 200; Body := body |} →
  create_error x = None → copy_error x = None →
  Read.downloadFile env outputDirectory index request name w =
  (None, set_file (path_Join env outputDirectory name) body (exchanged x w)).
Proof.
  intros x Ha Hc Hp. unfold Read.downloadFile, create_and_copy. fold x.
  rewrite Ha. simpl. rewrite Hc, Hp. reflexivity.
Qed.

End Executor.

(** In the file variant a 204 on the first of two parts ends the run with
    an error: the part is not tried again and the second part is never
    requested. *)
Lemma file_variant_no_content_is_fatal :
  File.downloadFile Examples.no_content "out" "https://cdn.example/book" Examples.part1 "L" Examples.world0 =
    (Some (errorString "downloading file returned a 204 status"),
     exchanged (Examples.reply 204 "-") Examples.world0) ∧
  (File.downloadFile Examples.no_content "out" "https://cdn.example/book" Examples.part1 "L" Examples.world0).1
    ≠ Some errDownloadFailed ∧
  (File.download_parts Examples.no_content "out" "https://cdn.example/book" "L"
     [Examples.part1; Examples.part2] Examples.world0).1 =
    Some (errorString "downloading file returned a 204 status") ∧
  exchanges (File.download_parts Examples.no_content "out" "https://cdn.example/book" "L"
     [Examples.part1; Examples.part2] Examples.world0).2 = 1%nat.
Proof. repeat split; try reflexivity. discriminate. Qed.

Lemma no_content_classification_witness :
  (Read.downloadFile Examples.no_content "out" 1 (Read.Request (Examples.attempt_of 1 "a.mp3" 0)) "a.mp3"
     Examples.world0).1 = Some errDownloadFailed ∧
  (File.downloadFile Examples.no_content "out" "https://cdn.example/book" Examples.part1 "L"
     Examples.world0).1 = Some (errorString "downloading file returned a 204 status") ∧
  File.download_parts Examples.no_content "out" "https://cdn.example/book" "L"
     [Examples.part1; Examples.part2] Examples.world0 =
    (Some (errorString "downloading file returned a 204 status"),
     exchanged (Examples.reply 204 "-") Examples.world0).
Proof.
  refine (no_content_classification Examples.no_content "out" Examples.world0 1
            (Read.Request (Examples.attempt_of 1 "a.mp3" 0)) "a.mp3"
            "https://cdn.example/book" "L" Examples.part1 [Examples.part2]
            _ 204 "-" "-" _ _ eq_refl _).
  - lia.
  - reflexivity.
  - reflexivity.
Defined.

Lemma no_write_without_ok_witness :
  files (Read.downloadFile Examples.no_content "out" 1 (Read.Request (Examples.attempt_of 1 "Part 1.mp3" 0))
           "Part 1.mp3" Examples.world0).2 = files Examples.world0 ∧
  files (File.downloadFile Examples.no_content "out" "https://cdn.example/book" Examples.part1 "L"
           Examples.world0).2 = files Examples.world0.
Proof.
  apply (no_write_without_ok Examples.no_content "out" Examples.world0 1
           (Read.Request (Examples.attempt_of 1 "Part 1.mp3" 0)) "Part 1.mp3"
           "https://cdn.example/book" "L" Examples.part1).
  - reflexivity.
  - intros partRequest _. reflexivity.
Defined.

(** The file of the example world is replaced when the answer is a 200. *)
Example ok_replaces_file :
  files (Read.downloadFile (Examples.scripted [Examples.reply 200 "new audio"]) "out" 1
           (Read.Request (Examples.attempt_of 1 "Part 1.mp3" 0)) "Part 1.mp3"
           Examples.world0).2 !! "out/Part 1.mp3" = Some "new audio" ∧
  files Examples.world0 !! "out/Part 1.mp3" = Some "old audio".
Proof. split; vm_compute; reflexivity. Qed.

(** * The scheduler *)

Section SchedulerFacts.

Variable env : Env.
Variable outputDirectory : string.
Variable retryCount : Z.

Local Abbreviation downloadFile := (Read.downloadFile env outputDirectory).
Local Abbreviation body := (Read.body env outputDirectory retryCount).
Local Abbreviation loop := (Read.loop env outputDirectory retryCount).
Local Abbreviation turn := (Read.turn retryCount).
Local Abbreviation Inv := (Read.Inv retryCount).
Local Abbreviation turns := (Read.turns env outputDirectory retryCount).
Local Abbreviation executes := (Read.executes retryCount).
Local Abbreviation numbered := Read.numbered.
Local Abbreviation Paced := Read.Paced.
Local Abbreviation OnTime := Read.OnTime.
Local Abbreviation weight := (Read.weight retryCount).
Local Abbreviation wsum := (Read.wsum retryCount).

(** Every turn of the loop has one of the five shapes of [turn]. *)
Lemma body_turn (st : Read.State) : turn st (body st).
Proof.
  unfold Read.body.
  destruct (Read.requests st !! Read.index st) as [a|] eqn:Hq; [|by constructor].
  destruct (Read.receive _ _) as [tk w0].
  destruct (downloadFile _ _ _ _) as [[[|msg]|] w2].
  - destruct (Z.ltb_spec (Read.Count a) retryCount).
    + by eapply Read.turn_retry.
    + eapply Read.turn_failed; try done. lia.
  - by eapply Read.turn_fatal.
  - by eapply Read.turn_succeeded.
Qed.

(** ** Counting executions and budgets *)

Lemma count_app {A} (p : A → bool) (l k : list A) :
  Read.count p (l ++ k) = (Read.count p l + Read.count p k)%nat.
Proof. apply sum_list_with_app. Qed.

Lemma count_one {A} (p : A → bool) (a : A) :
  Read.count p [a] = if p a then 1%nat else 0%nat.
Proof. unfold Read.count. simpl. destruct (p a); lia. Qed.

Lemma count_cons {A} (p : A → bool) (a : A) (l : list A) :
  Read.count p (a :: l) = ((if p a then 1 else 0) + Read.count p l)%nat.
Proof. reflexivity. Qed.

Lemma count_true {A} (l : list A) : Read.count (λ _, true) l = length l.
Proof. induction l as [|a l IH]; [done|]. rewrite count_cons, IH. done. Qed.

Lemma wsum_app p (l k : list Read.DownloadAttempt) :
  wsum p (l ++ k) = (wsum p l + wsum p k)%nat.
Proof. apply sum_list_with_app. Qed.

Lemma wsum_cons p a (l : list Read.DownloadAttempt) :
  wsum p (a :: l) = ((if p a then weight a else 0) + wsum p l)%nat.
Proof. reflexivity. Qed.

Lemma weight_retry a :
  Read.Count a < retryCount → weight a = S (weight (Read.retry a)).
Proof. intros H. unfold Read.weight. simpl. lia. Qed.

Lemma weight_pos a : Read.Count a ≤ retryCount → (1 ≤ weight a)%nat.
Proof. intros H. unfold Read.weight. lia. Qed.

Lemma firsts_app (l k : list Read.DownloadAttempt) :
  Read.firsts (l ++ k) = Read.firsts l ++ Read.firsts k.
Proof. unfold Read.firsts. by rewrite filter_app, fmap_app. Qed.

Lemma firsts_retry a : 0 ≤ Read.Count a → Read.firsts [Read.retry a] = [].
Proof.
  intros H. unfold Read.firsts. rewrite filter_cons. simpl.
  case_decide; [lia|done].
Qed.

(** The head of the queue is the attempt under the cursor. *)
Lemma queued_head st a :
  Read.Running st → Read.requests st !! Read.index st = Some a →
  Read.queued st = a :: drop (S (length (Read.trace st))) (Read.requests st).
Proof.
  intros [Hi _] Hq. unfold Read.queued. rewrite <- Hi. by apply drop_S.
Qed.

Lemma queued_exit st :
  Read.Running st → Read.requests st !! Read.index st = None → Read.queued st = [].
Proof.
  intros [Hi _] Hq. unfold Read.queued. rewrite <- Hi.
  apply drop_ge. by apply lookup_ge_None.
Qed.

Lemma turn_executes st s :
  turn st s →
  (s = Read.Return None st ∧ Read.requests st !! Read.index st = None) ∨
  ∃ a e appended, executes st (Read.after s) a e appended ∧
    match s with
    | Read.Continue st' =>
        Read.index st' = S (Read.index st) ∧ Read.fatal (Read.outcome e) = false
    | Read.Return res st' =>
        Read.index st' = Read.index st ∧
        ∃ msg, Read.outcome e = Read.Fatal (errorString msg) ∧
               res = Some (errorString ("downloading file " +:+ fmt_d (Read.Index a)
                                        +:+ " failed: " +:+ msg))
    end.
Proof.
  intros [Hq | a t st' Hq Hreq Hidx Htr | a t st' Hq Hc Hreq Hidx Htr
         | a t st' Hq Hc Hreq Hidx Htr | a t msg st' Hq Hreq Hidx Htr].
  - by left.
  - right. exists a, (Read.mkExec t a Read.Succeeded), [].
    repeat split; try done. { by rewrite app_nil_r. } by left.
  - right. exists a, (Read.mkExec t a Read.RetryPending), [Read.retry a].
    repeat split; try done. by right.
  - right. exists a, (Read.mkExec t a Read.Failed), [].
    repeat split; try done. { by rewrite app_nil_r. } by left.
  - right. exists a, (Read.mkExec t a (Read.Fatal (errorString msg))), [].
    repeat split; try done. { by rewrite app_nil_r. } { by left. } by exists msg.
Qed.

Lemma shape_step reqs0 st st' a e appended :
  Read.Shape reqs0 st → Read.Running st → executes st st' a e appended →
  Read.Shape reqs0 st'.
Proof.
  intros [Hpre Hnn Horg Hgrow] [Hi _] (Hq & He & Htr & Hreq & Hcase).
  rewrite Hi in Hq. set (n := length (Read.trace st)) in *.
  pose proof (lookup_lt_Some _ _ _ Hq) as Hlt.
  pose proof (Forall_lookup_1 _ _ _ _ Hnn Hq) as Hca. simpl in Hca.
  pose proof (Forall_lookup_1 _ _ _ _ Horg Hq) as (a0 & Ha0 & Hsame).
  assert (length (Read.trace st') = S n) as Hlen.
  { rewrite Htr, length_app. simpl. lia. }
  split.
  - rewrite Hlen, Htr, fmap_app, Hpre, Hreq. simpl. rewrite He.
    rewrite take_app_le by lia. symmetry. by apply take_S_r.
  - rewrite Hreq. apply Forall_app. split; [done|].
    destruct Hcase as [[-> _]|(-> & Hc & _)]; [done|].
    apply Forall_singleton. simpl. lia.
  - rewrite Hreq. apply Forall_app. split; [done|].
    destruct Hcase as [[-> _]|(-> & _ & _)]; [done|].
    apply Forall_singleton. exists a0. split; [done|].
    destruct Hsame as (? & ? & ?). by repeat split.
  - rewrite Hreq. by apply prefix_app_r.
Qed.

Lemma inv_step reqs0 st st' a e appended :
  Inv reqs0 st → Read.Running st → executes st st' a e appended →
  Inv reqs0 st'.
Proof.
  intros [Hshape Hcnt Hbud Hset Hfst] Hrun Hex.
  pose proof (shape_step _ _ _ _ _ _ Hshape Hrun Hex) as Hshape'.
  destruct Hex as (Hq & He & Htr & Hreq & Hcase).
  pose proof (queued_head st a Hrun Hq) as Hhead.
  destruct Hrun as [Hi _]. rewrite Hi in Hq.
  set (n := length (Read.trace st)) in *.
  pose proof (lookup_lt_Some _ _ _ Hq) as Hlt.
  pose proof (Forall_lookup_1 _ _ _ _ Hcnt Hq) as Hca. simpl in Hca.
  pose proof (Forall_lookup_1 _ _ _ _ (Read.shape_nonneg _ _ Hshape) Hq) as Hnn.
  simpl in Hnn.
  assert (length (Read.trace st') = S n) as Hlen.
  { rewrite Htr, length_app. simpl. lia. }
  assert (Read.queued st' = drop (S n) (Read.requests st) ++ appended) as Hq'.
  { unfold Read.queued. rewrite Hlen, Hreq. apply drop_app_le. lia. }
  split.
  - done.
  - rewrite Hreq. apply Forall_app. split; [done|].
    destruct Hcase as [[-> _]|(-> & Hc & _)]; [done|].
    apply Forall_singleton. simpl. lia.
  - intros p Hp. specialize (Hbud p Hp).
    rewrite Hhead, wsum_cons in Hbud.
    rewrite Htr, count_app, count_one, He, Hq', wsum_app.
    destruct Hcase as [[-> _]|(-> & Hc & _)].
    + simpl. pose proof (weight_pos a ltac:(lia)). destruct (p a); lia.
    + rewrite wsum_cons, Hp. simpl. rewrite (weight_retry a Hc) in Hbud.
      destruct (p a); lia.
  - intros p Hp. specialize (Hset p Hp).
    rewrite Hhead, count_cons in Hset.
    rewrite Htr, count_app, count_one, He, Hq', count_app.
    destruct Hcase as [[-> Hs]|(-> & _ & Ho)].
    + rewrite Hs. simpl. destruct (p a); simpl; lia.
    + rewrite Ho, count_one, Hp. simpl. destruct (p a); simpl; lia.
  - rewrite Hreq, firsts_app, Hfst.
    destruct Hcase as [[-> _]|(-> & _ & _)]; [by rewrite app_nil_r|].
    rewrite firsts_retry by lia. by rewrite app_nil_r.
Qed.

Lemma running_step st st' a e appended :
  Read.Running st → executes st st' a e appended →
  Read.index st' = S (Read.index st) → Read.fatal (Read.outcome e) = false →
  Read.Running st'.
Proof.
  intros [Hi Hall] (_ & _ & Htr & _) Hidx Hf. split.
  - rewrite Hidx, Htr, length_app, Hi. simpl. lia.
  - rewrite Htr. apply Forall_app. split; [done|]. by apply Forall_singleton.
Qed.

(** The states of a run: what holds at the start holds after any number of
    turns. *)
Lemma turns_shape reqs0 n : ∀ st st',
  Read.Shape reqs0 st → Read.Running st → turns n st = Some st' →
  Read.Shape reqs0 st' ∧ Read.Running st'.
Proof.
  induction n as [|n IH]; intros st st' HS HR Ht; simpl in Ht.
  - by simplify_eq.
  - pose proof (body_turn st) as Hb.
    destruct (body st) as [st1|? ?] eqn:Hbody; [|done].
    apply turn_executes in Hb as [[? _]|(a & e & app & Hex & Hidx & Hf)]; [done|].
    simpl in Hex. apply (IH st1 st'); [| |done].
    + by eapply shape_step.
    + by eapply running_step.
Qed.

Lemma turns_inv reqs0 n : ∀ st st',
  Inv reqs0 st → Read.Running st → turns n st = Some st' →
  Inv reqs0 st' ∧ Read.Running st'.
Proof.
  induction n as [|n IH]; intros st st' HS HR Ht; simpl in Ht.
  - by simplify_eq.
  - pose proof (body_turn st) as Hb.
    destruct (body st) as [st1|? ?] eqn:Hbody; [|done].
    apply turn_executes in Hb as [[? _]|(a & e & app & Hex & Hidx & Hf)]; [done|].
    simpl in Hex. apply (IH st1 st'); [| |done].
    + by eapply inv_step.
    + by eapply running_step.
Qed.

(** What the loop returns. *)
Lemma loop_shape reqs0 fuel : ∀ st res fin,
  Read.Shape reqs0 st → Read.Running st → loop fuel st = Some (res, fin) →
  Read.Shape reqs0 fin ∧
  Read.requests st `prefix_of` Read.requests fin ∧
  Read.trace st `prefix_of` Read.trace fin ∧
  match res with
  | None => Read.Running fin ∧ Read.queued fin = []
  | Some err =>
      ∃ tr e msg, Read.trace fin = tr ++ [e] ∧
        Forall (λ e, Read.fatal (Read.outcome e) = false) tr ∧
        Read.outcome e = Read.Fatal (errorString msg) ∧
        err = errorString ("downloading file " +:+ fmt_d (Read.Index (Read.attempt e))
                           +:+ " failed: " +:+ msg)
  end.
Proof.
  induction fuel as [|fuel IH]; intros st res fin HS HR Hl; simpl in Hl; [done|].
  pose proof (body_turn st) as Hb.
  destruct (body st) as [st1|res1 st1] eqn:Hbody.
  - apply turn_executes in Hb as [[? _]|(a & e & app & Hex & Hidx & Hf)]; [done|].
    simpl in Hex.
    destruct (IH st1 res fin) as (H1 & H2 & H3 & H4); [by eapply shape_step|by eapply running_step|done|].
    destruct Hex as (_ & _ & Htr & Hreq & _).
    split; [done|]. split; [|split; [|done]].
    + etrans; [|done]. rewrite Hreq. by apply prefix_app_r.
    + etrans; [|done]. rewrite Htr. by apply prefix_app_r.
  - simplify_eq.
    apply turn_executes in Hb as [[? Hq]|(a & e & app & Hex & Hidx & msg & Ho & ->)].
    + simplify_eq. split; [done|]. split; [done|]. split; [done|].
      split; [done|]. by apply queued_exit.
    + simpl in Hex. split; [by eapply shape_step|].
      destruct Hex as (_ & He & Htr & Hreq & _).
      split; [rewrite Hreq; by apply prefix_app_r|].
      split; [rewrite Htr; by apply prefix_app_r|].
      exists (Read.trace st), e, msg. rewrite He.
      split; [done|]. split; [apply HR|]. by split.
Qed.

Lemma loop_inv reqs0 fuel : ∀ st res fin,
  Inv reqs0 st → Read.Running st → loop fuel st = Some (res, fin) → Inv reqs0 fin.
Proof.
  induction fuel as [|fuel IH]; intros st res fin HS HR Hl; simpl in Hl; [done|].
  pose proof (body_turn st) as Hb.
  destruct (body st) as [st1|res1 st1] eqn:Hbody.
  - apply turn_executes in Hb as [[? _]|(a & e & app & Hex & Hidx & Hf)]; [done|].
    simpl in Hex. apply (IH st1 res fin); [by eapply inv_step|by eapply running_step|done].
  - simplify_eq.
    apply turn_executes in Hb as [[? Hq]|(a & e & app & Hex & _)].
    + by simplify_eq.
    + simpl in Hex. by eapply inv_step.
Qed.

(** The loop is left after at most as many turns as the budget allows, plus
    the one that finds the queue exhausted. *)
Lemma loop_terminates reqs0 m : ∀ st,
  Inv reqs0 st → Read.Running st →
  (wsum (λ _, true) reqs0 ≤ length (Read.trace st) + m)%nat →
  ∃ fuel r, (fuel ≤ S m)%nat ∧ loop fuel st = Some r.
Proof.
  induction m as [|m IH]; intros st HI HR Hm.
  - exists 1%nat. simpl.
    pose proof (body_turn st) as Hb.
    destruct (body st) as [st1|res1 st1] eqn:Hbody; [|eauto].
    apply turn_executes in Hb as [[? _]|(a & e & app & Hex & Hidx & Hf)]; [done|].
    simpl in Hex. pose proof (inv_step _ _ _ _ _ _ HI HR Hex) as HI1.
    pose proof (Read.inv_budget _ _ _ HI1 (λ _, true) (λ _, eq_refl)) as Hb1.
    rewrite count_true in Hb1.
    destruct Hex as (_ & _ & Htr & _). rewrite Htr, length_app in Hb1. simpl in Hb1. lia.
  - pose proof (body_turn st) as Hb.
    destruct (body st) as [st1|res1 st1] eqn:Hbody.
    + apply turn_executes in Hb as [[? _]|(a & e & app & Hex & Hidx & Hf)]; [done|].
      simpl in Hex.
      destruct (IH st1) as (fuel & r & Hle & Hl).
      * by eapply inv_step.
      * by eapply running_step.
      * destruct Hex as (_ & _ & Htr & _). rewrite Htr, length_app. simpl. lia.
      * exists (S fuel), r. split; [lia|]. simpl. by rewrite Hbody.
    + exists 1%nat. eexists. split; [lia|]. simpl. by rewrite Hbody.
Qed.

(** ** The manifest *)

Lemma numbered_cons j a reqs :
  numbered j (a :: reqs) →
  Read.Count a = 0 ∧ Read.Index a = Z.of_nat j + 1 ∧ numbered (S j) reqs.
Proof.
  intros H. destruct (H 0%nat a eq_refl) as [Hc Hi].
  split; [done|]. split; [rewrite Hi; f_equal; lia|].
  intros k b Hk. destruct (H (S k) b Hk) as [? Hb]. split; [done|].
  rewrite Hb. f_equal. lia.
Qed.

Lemma make_requests_numbered origin spines : ∀ j reqs,
  Read.make_requests env origin j spines = inr reqs →
  length reqs = length spines ∧ numbered j reqs ∧
  ∀ k a, reqs !! k = Some a →
    ∃ spine, spines !! k = Some spine ∧ Read.Name a = Read.OriginalPath spine.
Proof.
  induction spines as [|spine spines IH]; intros j reqs Hm; simpl in Hm.
  - simplify_eq. split; [done|]. split; intros k a Hk; by rewrite lookup_nil in Hk.
  - destruct (NewRequest env _) as [err|request0]; [done|].
    destruct (Read.make_requests env origin (S j) spines) as [err|rest] eqn:Hrest; [done|].
    destruct (IH (S j) rest Hrest) as (Hlen & Hnum & Hname).
    injection Hm as <-.
    split; [simpl; by rewrite Hlen|]. split.
    + intros [|k] a Hk; simpl in Hk.
      * simplify_eq. simpl. split; [done|]. f_equal. lia.
      * destruct (Hnum k a Hk) as [? Hi]. split; [done|]. rewrite Hi. f_equal. lia.
    + intros [|k] a Hk; simpl in Hk.
      * simplify_eq. by exists spine.
      * by apply Hname.
Qed.

Lemma make_requests_manifest origin spines reqs :
  Read.make_requests env origin 0 spines = inr reqs →
  length reqs = length spines ∧ Read.manifest reqs.
Proof.
  intros H. apply make_requests_numbered in H as (Hlen & Hnum & _). done.
Qed.

Lemma firsts_numbered reqs : ∀ j,
  numbered j reqs → Read.firsts reqs = (λ k, Z.of_nat k + 1) <$> seq j (length reqs).
Proof.
  induction reqs as [|a reqs IH]; intros j H; [done|].
  apply numbered_cons in H as (Hc & Hi & Hrest).
  unfold Read.firsts. rewrite filter_cons_True by done. simpl.
  rewrite Hi. f_equal. by apply IH.
Qed.

Lemma count_numbered i reqs : ∀ j,
  numbered j reqs →
  Read.count (Read.for_entry i) reqs =
  if decide (Z.of_nat j < i ≤ Z.of_nat (j + length reqs)) then 1%nat else 0%nat.
Proof.
  induction reqs as [|a reqs IH]; intros j H.
  - simpl. case_decide; [lia|done].
  - apply numbered_cons in H as (Hc & Hi & Hrest).
    rewrite count_cons, (IH (S j) Hrest). unfold Read.for_entry. rewrite Hi. simpl.
    destruct (Z.eqb_spec (Z.of_nat j + 1) i); repeat case_decide; lia.
Qed.

Lemma wsum_numbered p reqs j :
  numbered j reqs →
  wsum p reqs = (Read.count p reqs * Z.to_nat (1 + retryCount))%nat.
Proof.
  revert j. induction reqs as [|a reqs IH]; intros j H; [done|].
  apply numbered_cons in H as (Hc & Hi & Hrest).
  rewrite wsum_cons, count_cons, (IH (S j) Hrest). unfold Read.weight. rewrite Hc.
  destruct (p a); simpl; [|done]. rewrite Z.sub_0_r. lia.
Qed.

Lemma manifest_numbered reqs : Read.manifest reqs → numbered 0 reqs.
Proof. done. Qed.

Lemma start_running reqs tk w : Read.Running (Read.start reqs tk w).
Proof. split; [done|]. simpl. constructor. Qed.

Lemma start_shape reqs tk w :
  Read.manifest reqs → Read.Shape reqs (Read.start reqs tk w).
Proof.
  intros Hm. split; simpl.
  - done.
  - apply Forall_lookup_2. intros k a Hk. destruct (Hm k a Hk) as [-> _]. done.
  - apply Forall_lookup_2. intros k a Hk. exists a. split; [|done].
    by eapply list_elem_of_lookup_2.
  - done.
Qed.

Lemma start_inv reqs tk w :
  0 ≤ retryCount → Read.manifest reqs → Inv reqs (Read.start reqs tk w).
Proof.
  intros HR Hm. split; simpl.
  - by apply start_shape.
  - apply Forall_lookup_2. intros k a Hk. destruct (Hm k a Hk) as [-> _]. done.
  - intros p _. done.
  - intros p _. done.
  - done.
Qed.

Lemma count_mono {A} (p q : A → bool) (l : list A) :
  Forall (λ a, p a = true → q a = true) l → (Read.count p l ≤ Read.count q l)%nat.
Proof.
  induction 1 as [|a l Ha _ IH]; [done|]. rewrite !count_cons.
  destruct (p a); [rewrite Ha by done|destruct (q a)]; lia.
Qed.

Lemma first_attempts_prefix reqs0 st :
  Read.Shape reqs0 st → Read.first_attempts (Read.trace st) `prefix_of` Read.firsts (Read.requests st).
Proof.
  intros HS. unfold Read.first_attempts. rewrite (Read.shape_prefix _ _ HS).
  rewrite <- (take_drop (length (Read.trace st)) (Read.requests st)) at 2.
  rewrite firsts_app. by apply prefix_app_r.
Qed.

Lemma first_attempts_all reqs0 st :
  Read.Shape reqs0 st → Read.queued st = [] →
  Read.first_attempts (Read.trace st) = Read.firsts (Read.requests st).
Proof.
  intros HS Hq. unfold Read.first_attempts. rewrite (Read.shape_prefix _ _ HS).
  rewrite <- (take_drop (length (Read.trace st)) (Read.requests st)) at 2.
  unfold Read.queued in Hq. by rewrite Hq, app_nil_r.
Qed.

(** C1. For a manifest of [N] entries and a retry limit [R] that is not
    negative, the loop is left after at most [N * (1 + R) + 1] turns; it
    executes at most [N * (1 + R)] attempts, at most [1 + R] of them for any
    entry; every entry gets at most one terminal outcome, and exactly one
    when the loop returns no error; the first attempts are executed in the
    order of the manifest, all of them when the loop returns no error. *)
Theorem scheduler_attempts_bounded
    (origin : Read.url_URL) (spines : list Read.Spine)
    (reqs : list Read.DownloadAttempt) (tk : Read.Ticker) (w : World) :
  0 ≤ retryCount →
  Read.make_requests env origin 0 spines = inr reqs →
  ∃ fuel res fin,
    loop fuel (Read.start reqs tk w) = Some (res, fin) ∧
    Z.of_nat fuel ≤ Z.of_nat (length spines) * (1 + retryCount) + 1 ∧
    Z.of_nat (length (Read.trace fin)) ≤ Z.of_nat (length spines) * (1 + retryCount) ∧
    (∀ i, Z.of_nat (Read.executions_of i (Read.trace fin)) ≤ 1 + retryCount) ∧
    (∀ i, (Read.terminal_outcomes_of i (Read.trace fin) ≤ 1)%nat) ∧
    (res = None →
     ∀ i, 1 ≤ i ≤ Z.of_nat (length spines) → Read.terminal_outcomes_of i (Read.trace fin) = 1%nat) ∧
    Read.first_attempts (Read.trace fin) `prefix_of` Read.indexes (length spines) ∧
    (res = None → Read.first_attempts (Read.trace fin) = Read.indexes (length spines)).
Proof.
  intros HR Hmk. set (N := length spines).
  apply make_requests_manifest in Hmk as [Hlen Hman].
  pose proof (manifest_numbered _ Hman) as Hnum.
  pose proof (start_inv reqs tk w HR Hman) as HI.
  pose proof (start_running reqs tk w) as Hrun.
  assert (∀ p, wsum p reqs = (Read.count p reqs * Z.to_nat (1 + retryCount))%nat) as Hw.
  { intros p. by eapply wsum_numbered. }
  assert (∀ i, (Read.count (Read.for_entry i) reqs ≤ 1)%nat) as Hone.
  { intros i. rewrite (count_numbered i reqs 0%nat Hnum). case_decide; lia. }
  destruct (loop_terminates reqs (wsum (λ _, true) reqs) _ HI Hrun)
    as (fuel & [res fin] & Hfuel & Hloop); [simpl; lia|].
  rewrite Hw, count_true, Hlen in Hfuel. fold N in Hfuel.
  pose proof (loop_inv _ _ _ _ _ HI Hrun Hloop) as HIf.
  destruct (loop_shape _ _ _ _ _ (Read.inv_shape _ _ _ HI) Hrun Hloop)
    as (HSf & _ & _ & Hres).
  assert (Read.firsts (Read.requests fin) = Read.indexes N) as Hfirsts.
  { rewrite (Read.inv_firsts _ _ _ HIf), (firsts_numbered reqs 0%nat Hnum).
    unfold Read.indexes, N. by rewrite Hlen. }
  exists fuel, res, fin. split; [done|]. split; [nia|]. split; [|split; [|split; [|split; [|split]]]].
  - pose proof (Read.inv_budget _ _ _ HIf (λ _, true) (λ _, eq_refl)) as Hb.
    rewrite Hw, !count_true, Hlen in Hb. fold N in Hb. nia.
  - intros i.
    pose proof (Read.inv_budget _ _ _ HIf (Read.for_entry i) (λ _, eq_refl)) as Hb.
    rewrite Hw in Hb. specialize (Hone i). unfold Read.executions_of. nia.
  - intros i.
    pose proof (Read.inv_settled _ _ _ HIf (Read.for_entry i) (λ _, eq_refl)) as Hs.
    specialize (Hone i). unfold Read.terminal_outcomes_of.
    etrans; [apply (count_mono _ (λ e, Read.for_entry i (Read.attempt e)
                                        && Read.settled (Read.outcome e)))|lia].
    apply Forall_forall. intros e _. unfold Read.settled.
    destruct (Read.for_entry i (Read.attempt e)), (Read.terminal (Read.outcome e)); done.
  - intros -> i Hi. destruct Hres as [[_ Hnf] Hq].
    pose proof (Read.inv_settled _ _ _ HIf (Read.for_entry i) (λ _, eq_refl)) as Hs.
    rewrite Hq in Hs. simpl in Hs.
    rewrite (count_numbered i reqs 0%nat Hnum) in Hs.
    rewrite decide_True in Hs by (rewrite Hlen; fold N; lia).
    unfold Read.terminal_outcomes_of. rewrite <- Hs, Nat.add_0_r.
    apply Nat.le_antisymm; apply count_mono.
    + apply Forall_forall. intros e _. unfold Read.settled.
      destruct (Read.for_entry i (Read.attempt e)), (Read.terminal (Read.outcome e)); done.
    + eapply Forall_impl; [exact Hnf|]. intros e Hf. simpl in Hf. unfold Read.settled.
      rewrite Hf, orb_false_r. done.
  - rewrite <- Hfirsts. by eapply first_attempts_prefix.
  - intros ->. destruct Hres as [_ Hq]. rewrite <- Hfirsts. by eapply first_attempts_all.
Qed.

(** ** Single turns *)

Lemma downloadFile_exchanges i request name w :
  exchanges (downloadFile i request name w).2 = S (exchanges w).
Proof.
  unfold Read.downloadFile.
  destruct (answer _) as [msg|response]; [done|]. simpl.
  destruct (_ =? StatusNoContent); [done|]. destruct (negb _); [done|].
  by rewrite (proj1 (proj2 (create_and_copy_world _ _ _ _))).
Qed.

(** A turn whose exchange is answered by a 204. *)
Lemma body_transient st a body0 :
  Read.requests st !! Read.index st = Some a →
  answer (client_Do env (exchanges (Read.world st)) (Read.Request a))
    = inr {| StatusCode := 204; Body := body0 |} →
  ∃ t st', body st = Read.Continue st' ∧ Read.index st' = S (Read.index st) ∧
    exchanges (Read.world st') = S (exchanges (Read.world st)) ∧
    ((Read.Count a < retryCount ∧ Read.requests st' = Read.requests st ++ [Read.retry a] ∧
      Read.trace st' = Read.trace st ++ [Read.mkExec t a Read.RetryPending]) ∨
     (¬ Read.Count a < retryCount ∧ Read.requests st' = Read.requests st ∧
      Read.trace st' = Read.trace st ++ [Read.mkExec t a Read.Failed])).
Proof.
  intros Hq Ha. unfold Read.body. rewrite Hq. unfold Read.receive.
  erewrite read_downloadFile_204 by exact Ha.
  destruct (Z.ltb_spec (Read.Count a) retryCount) as [Hc|Hc];
    eexists _, _; (split; [reflexivity|]); simpl; (split; [done|]); (split; [done|]).
  - left. done.
  - right. split; [lia|done].
Qed.

(** A turn whose exchange fails otherwise: a network error, or a status
    that is neither 200 nor 204. *)
Lemma body_fatal st a msg :
  Read.requests st !! Read.index st = Some a →
  (answer (client_Do env (exchanges (Read.world st)) (Read.Request a)) = inl msg ∨
   ∃ status body0,
     answer (client_Do env (exchanges (Read.world st)) (Read.Request a))
       = inr {| StatusCode := status; Body := body0 |} ∧
     status ≠ 200 ∧ status ≠ 204 ∧ msg = "returned " +:+ fmt_d status +:+ " status") →
  ∃ t fin,
    body st = Read.Return (Some (errorString ("downloading file " +:+ fmt_d (Read.Index a)
                                              +:+ " failed: " +:+ msg))) fin ∧
    Read.trace fin = Read.trace st ++ [Read.mkExec t a (Read.Fatal (errorString msg))] ∧
    Read.requests fin = Read.requests st ∧ Read.index fin = Read.index st ∧
    exchanges (Read.world fin) = S (exchanges (Read.world st)).
Proof.
  intros Hq Ha. unfold Read.body. rewrite Hq. unfold Read.receive.
  destruct Ha as [Ha|(status & body0 & Ha & H200 & H204 & ->)].
  - erewrite read_downloadFile_neterr by exact Ha.
    eexists _, _. split; [reflexivity|]. done.
  - erewrite read_downloadFile_status by done.
    eexists _, _. split; [reflexivity|]. done.
Qed.

(** Which error the reader's [downloadFile] returns depends on the world
    through the number of exchanges only. *)
Lemma downloadFile_error_world i request name w w' :
  exchanges w = exchanges w' →
  (downloadFile i request name w).1 = (downloadFile i request name w').1.
Proof.
  intros He. unfold Read.downloadFile, create_and_copy. rewrite He.
  destruct (answer _) as [msg|response]; [done|]. simpl.
  destruct (_ =? StatusNoContent); [done|]. destruct (negb _); [done|].
  destruct (create_error _); [done|]. by destruct (copy_error _) as [[? ?]|].
Qed.

(** A turn whose download returns any error but the sentinel (a file that
    cannot be created or written, too) leaves the loop with that error. *)
Lemma body_error st a msg :
  Read.requests st !! Read.index st = Some a →
  (downloadFile (Read.Index a) (Read.Request a) (Read.Name a) (Read.world st)).1
    = Some (errorString msg) →
  ∃ fin,
    body st = Read.Return (Some (errorString ("downloading file " +:+ fmt_d (Read.Index a)
                                              +:+ " failed: " +:+ msg))) fin ∧
    Read.requests fin = Read.requests st ∧
    ∃ t, Read.trace fin = Read.trace st ++ [Read.mkExec t a (Read.Fatal (errorString msg))].
Proof.
  intros Hq He. unfold Read.body. rewrite Hq. unfold Read.receive.
  match goal with |- context [downloadFile ?i ?r ?n ?w1] =>
    rewrite (downloadFile_error_world i r n (Read.world st) w1) in He by done;
    destruct (downloadFile i r n w1) as [err w2] end.
  simpl in He. subst err. eexists. split; [reflexivity|]. split; [done|]. by eexists.
Qed.

Lemma loop_turns n : ∀ st0 st fuel,
  turns n st0 = Some st → loop (n + fuel) st0 = loop fuel st.
Proof.
  induction n as [|n IH]; intros st0 st fuel Ht; simpl in *.
  - by simplify_eq.
  - destruct (body st0) as [st1|? ?]; [|done]. by apply IH.
Qed.

(** An attempt of the queue stands for the manifest entry whose position
    is its sequence index less one. *)
Lemma shape_entry reqs st a :
  Read.manifest reqs → Read.Shape reqs st → a ∈ Read.requests st →
  ∃ k a0, reqs !! k = Some a0 ∧ Read.Index a = Z.of_nat k + 1 ∧
          Read.Name a = Read.Name a0 ∧ Read.Request a = Read.Request a0.
Proof.
  intros Hm HS Ha.
  pose proof (proj1 (Forall_forall _ _) (Read.shape_origin _ _ HS) a Ha)
    as (a0 & Ha0 & Hi & Hn & Hr).
  apply list_elem_of_lookup in Ha0 as [k Hk].
  exists k, a0. destruct (Hm k a0 Hk) as [_ Hidx]. rewrite Hi. done.
Qed.

(** What a run that returns no error has executed: the whole of its
    queue, in the order of the queue. *)
Lemma loop_executes_queue reqs0 fuel st fin :
  Read.Shape reqs0 st → Read.Running st → loop fuel st = Some (None, fin) →
  Read.attempt <$> Read.trace fin = Read.requests fin ∧
  Read.requests st `prefix_of` Read.requests fin ∧
  Read.trace st `prefix_of` Read.trace fin ∧
  Forall (λ e, Read.fatal (Read.outcome e) = false) (Read.trace fin).
Proof.
  intros HS HR Hl.
  destruct (loop_shape reqs0 fuel st None fin HS HR Hl) as (HSf & Hpre & Htr & [_ Hnf] & Hq).
  split; [|done].
  rewrite (Read.shape_prefix _ _ HSf). apply take_ge.
  unfold Read.queued in Hq.
  destruct (decide (length (Read.requests fin) ≤ length (Read.trace fin))%nat) as [|Hlt]; [done|].
  apply (f_equal length) in Hq. rewrite length_drop in Hq. simpl in Hq. lia.
Qed.

(** The loop returns from every state that a run goes through. *)
Lemma loop_returns reqs tk w n st :
  0 ≤ retryCount → Read.manifest reqs →
  turns n (Read.start reqs tk w) = Some st →
  Inv reqs st ∧ Read.Running st ∧
  ∀ st', Inv reqs st' → Read.Running st' → ∃ fuel res fin, loop fuel st' = Some (res, fin).
Proof.
  intros HR Hm Ht.
  destruct (turns_inv reqs n _ _ (start_inv reqs tk w HR Hm) (start_running reqs tk w) Ht)
    as [HI Hrun].
  split; [done|]. split; [done|]. intros st' HI' HR'.
  destruct (loop_terminates reqs (wsum (λ _, true) reqs) st' HI' HR')
    as (fuel & [res fin] & _ & Hl); [lia|].
  by exists fuel, res, fin.
Qed.

(** C2. In a state of a run, when the attempt under the cursor has a retry
    count below the limit and its exchange is answered by a 204, the turn
    appends exactly one attempt to the queue, at its tail: the same entry
    (sequence index, name and request kept) with the retry count
    incremented by one.  The loop returns from there; when it returns no
    error the re-attempt has been executed, as the execution of position
    [len(requests)] of the record.  In any run completed from there the
    queue still starts with the old queue followed by that attempt, and if
    the re-attempt is executed, it is the execution of position
    [len(requests)] of the record, after the executions of all the attempts
    that were queued at the time of the retry. *)
Theorem transient_retry_appended_at_tail
    (origin : Read.url_URL) (spines : list Read.Spine)
    (reqs : list Read.DownloadAttempt) (tk : Read.Ticker) (w : World)
    (n : nat) (st : Read.State) (a : Read.DownloadAttempt) (body0 : string) :
  Read.make_requests env origin 0 spines = inr reqs →
  turns n (Read.start reqs tk w) = Some st →
  Read.requests st !! Read.index st = Some a →
  Read.Count a < retryCount →
  answer (client_Do env (exchanges (Read.world st)) (Read.Request a))
    = inr {| StatusCode := 204; Body := body0 |} →
  ∃ st' again,
    again = {| Read.Count := Read.Count a + 1; Read.Index := Read.Index a;
               Read.Name := Read.Name a; Read.Request := Read.Request a |} ∧
    body st = Read.Continue st' ∧
    Read.requests st' = Read.requests st ++ [again] ∧
    Read.index st' = S (Read.index st) ∧
    (∃ t, Read.trace st' = Read.trace st ++ [Read.mkExec t a Read.RetryPending]) ∧
    (∃ fuel res fin,
       loop fuel st' = Some (res, fin) ∧
       loop (n + S fuel) (Read.start reqs tk w) = Some (res, fin) ∧
       (res = None →
        ∃ e, Read.trace fin !! length (Read.requests st) = Some e ∧ Read.attempt e = again)) ∧
    ∀ fuel res fin, loop fuel st' = Some (res, fin) →
      (Read.requests st ++ [again]) `prefix_of` Read.requests fin ∧
      ∀ e, Read.trace fin !! length (Read.requests st) = Some e →
        Read.attempt e = again ∧
        ∀ j b, Read.requests st !! j = Some b →
          (j < length (Read.requests st))%nat ∧
          ∃ e', Read.trace fin !! j = Some e' ∧ Read.attempt e' = b.
Proof.
  intros Hmk Ht Hq Hc Ha.
  apply make_requests_manifest in Hmk as [_ Hm].
  destruct (turns_shape reqs n _ _ (start_shape reqs tk w Hm) (start_running reqs tk w) Ht)
    as [HS HR].
  assert (0 ≤ retryCount) as Hlimit.
  { pose proof (proj1 (Forall_forall _ _) (Read.shape_nonneg _ _ HS) a
                  (list_elem_of_lookup_2 _ _ _ Hq)) as H0. simpl in H0. lia. }
  destruct (loop_returns reqs tk w n st Hlimit Hm Ht) as (HI & _ & Hreturns).
  destruct (body_transient st a body0 Hq Ha)
    as (t & st' & Hb & Hidx & _ & [(_ & Hreq & Htr)|(Hn & _)]); [|done].
  exists st', (Read.retry a). split; [done|].
  split; [done|]. split; [done|]. split; [done|]. split; [by exists t|].
  assert (executes st st' a (Read.mkExec t a Read.RetryPending) [Read.retry a]) as Hex.
  { split; [done|]. split; [done|]. split; [done|]. split; [done|]. by right. }
  pose proof (shape_step _ _ _ _ _ _ HS HR Hex) as HS'.
  pose proof (running_step _ _ _ _ _ HR Hex Hidx eq_refl) as HR'.
  assert (∀ fuel res fin, loop fuel st' = Some (res, fin) →
      (Read.requests st ++ [Read.retry a]) `prefix_of` Read.requests fin ∧
      ∀ e, Read.trace fin !! length (Read.requests st) = Some e →
        Read.attempt e = Read.retry a ∧
        ∀ j b, Read.requests st !! j = Some b →
          (j < length (Read.requests st))%nat ∧
          ∃ e', Read.trace fin !! j = Some e' ∧ Read.attempt e' = b) as Hall.
  { intros fuel res fin Hl.
    destruct (loop_shape reqs fuel st' res fin) as (HSf & Hpre & _ & _); [done|done|done|].
    rewrite Hreq in Hpre. split; [done|].
    intros e He.
    pose proof (Read.shape_prefix _ _ HSf) as Hrec.
    assert (∀ j b, (Read.requests st ++ [Read.retry a]) !! j = Some b →
                   Read.trace fin !! j = None ∨
                   ∃ e', Read.trace fin !! j = Some e' ∧ Read.attempt e' = b) as Hpos.
    { intros j b Hj.
      destruct (Read.trace fin !! j) as [e'|] eqn:Hej; [right|by left].
      exists e'. split; [done|].
      pose proof (prefix_lookup_Some _ _ _ _ Hj Hpre) as Hfin.
      assert ((Read.attempt <$> Read.trace fin) !! j = Some (Read.attempt e')) as Hf.
      { by rewrite list_lookup_fmap, Hej. }
      rewrite Hrec, lookup_take_lt in Hf by (by eapply lookup_lt_Some).
      congruence. }
    split.
    - destruct (Hpos (length (Read.requests st)) (Read.retry a)) as [Hnone|(e' & He' & Hat)].
      + by rewrite lookup_app_r, Nat.sub_diag.
      + congruence.
      + congruence.
    - intros j b Hj. pose proof (lookup_lt_Some _ _ _ Hj) as Hlt. split; [done|].
      destruct (Hpos j b) as [Hnone|?]; [by rewrite lookup_app_l| |done].
      apply lookup_ge_None in Hnone. apply lookup_lt_Some in He. lia. }
  split; [|exact Hall].
  destruct (Hreturns st' (inv_step _ _ _ _ _ _ HI HR Hex) HR') as (fuel & res & fin & Hl).
  exists fuel, res, fin. split; [done|]. split.
  { rewrite (loop_turns n _ st (S fuel) Ht). simpl. by rewrite Hb. }
  intros ->.
  destruct (loop_executes_queue reqs fuel st' fin HS' HR' Hl) as (Hexe & Hpre & _).
  destruct (Hall fuel None fin Hl) as [Hpre' Hat].
  assert (is_Some (Read.trace fin !! length (Read.requests st))) as [e He].
  { apply lookup_lt_is_Some. apply (f_equal length) in Hexe. rewrite length_fmap in Hexe.
    apply prefix_length in Hpre'. rewrite length_app in Hpre'. simpl in Hpre'. lia. }
  exists e. split; [done|]. by apply Hat.
Qed.

(** C3. In a state of a run, when the exchange of the attempt under the
    cursor ends in a network error or in a status that is neither 200 nor
    204, the run returns at once: its error carries the sequence index of
    the attempt, which is the position of its entry in the manifest plus
    one; the record ends with this execution, so nothing is executed after
    it. *)
Theorem fatal_error_aborts_run
    (origin : Read.url_URL) (spines : list Read.Spine)
    (reqs : list Read.DownloadAttempt) (tk : Read.Ticker) (w : World)
    (n : nat) (st : Read.State) (a : Read.DownloadAttempt) (msg : string) :
  Read.make_requests env origin 0 spines = inr reqs →
  turns n (Read.start reqs tk w) = Some st →
  Read.requests st !! Read.index st = Some a →
  (answer (client_Do env (exchanges (Read.world st)) (Read.Request a)) = inl msg ∨
   ∃ status body0,
     answer (client_Do env (exchanges (Read.world st)) (Read.Request a))
       = inr {| StatusCode := status; Body := body0 |} ∧
     status ≠ 200 ∧ status ≠ 204 ∧ msg = "returned " +:+ fmt_d status +:+ " status") →
  ∃ fin,
    (∀ fuel, loop (n + S fuel) (Read.start reqs tk w) =
       Some (Some (errorString ("downloading file " +:+ fmt_d (Read.Index a)
                                +:+ " failed: " +:+ msg)), fin)) ∧
    (∃ t, Read.trace fin = Read.trace st ++ [Read.mkExec t a (Read.Fatal (errorString msg))]) ∧
    Read.requests fin = Read.requests st ∧
    exchanges (Read.world fin) = S (exchanges (Read.world st)) ∧
    ∃ k spine, spines !! k = Some spine ∧ Read.Index a = Z.of_nat k + 1 ∧
               Read.Name a = Read.OriginalPath spine.
Proof.
  intros Hmk Ht Hq Ha.
  pose proof (make_requests_numbered _ _ _ _ Hmk) as (_ & _ & Hname).
  apply make_requests_manifest in Hmk as [_ Hm].
  destruct (turns_shape reqs n _ _ (start_shape reqs tk w Hm) (start_running reqs tk w) Ht)
    as [HS HR].
  destruct (body_fatal st a msg Hq Ha) as (t & fin & Hb & Htr & Hreq & _ & Hx).
  exists fin. split; [|split; [by exists t|split; [done|split; [done|]]]].
  - intros fuel. rewrite (loop_turns n _ st (S fuel) Ht). simpl. by rewrite Hb.
  - destruct (shape_entry reqs st a Hm HS) as (k & a0 & Hk & Hi & Hn & _);
      [by eapply list_elem_of_lookup_2|].
    destruct (Hname k a0 Hk) as (spine & Hs & Hn0).
    exists k, spine. split; [done|]. split; [done|]. congruence.
Qed.

(** C4. In a state of a run, when the attempt under the cursor has used up
    the retry limit and its exchange is answered by a 204, the turn records
    the entry as [Failed] and appends nothing; the loop goes on with the
    next attempt of the queue and returns: with no error exactly when no
    execution of its record is fatal, and then after it has executed every
    attempt of the queue.  In any run completed from there the run returns
    no error unless an execution of its record is fatal. *)
Theorem exhausted_retry_fails_entry_run_continues
    (origin : Read.url_URL) (spines : list Read.Spine)
    (reqs : list Read.DownloadAttempt) (tk : Read.Ticker) (w : World)
    (n : nat) (st : Read.State) (a : Read.DownloadAttempt) (body0 : string) :
  Read.make_requests env origin 0 spines = inr reqs →
  turns n (Read.start reqs tk w) = Some st →
  Read.requests st !! Read.index st = Some a →
  Read.Count a = retryCount →
  answer (client_Do env (exchanges (Read.world st)) (Read.Request a))
    = inr {| StatusCode := 204; Body := body0 |} →
  ∃ st',
    body st = Read.Continue st' ∧
    Read.requests st' = Read.requests st ∧
    Read.index st' = S (Read.index st) ∧
    (∃ t, Read.trace st' = Read.trace st ++ [Read.mkExec t a Read.Failed]) ∧
    (∀ b, Read.requests st !! S (Read.index st) = Some b →
       ∃ e, Read.trace (Read.after (body st')) = Read.trace st' ++ [e] ∧ Read.attempt e = b) ∧
    (∃ fuel res fin,
       loop fuel st' = Some (res, fin) ∧
       loop (n + S fuel) (Read.start reqs tk w) = Some (res, fin) ∧
       Read.trace st' `prefix_of` Read.trace fin ∧
       Read.requests st `prefix_of` Read.requests fin ∧
       (res = None ↔ Forall (λ e, Read.fatal (Read.outcome e) = false) (Read.trace fin)) ∧
       (res = None → Read.attempt <$> Read.trace fin = Read.requests fin)) ∧
    ∀ fuel res fin, loop fuel st' = Some (res, fin) →
      loop (n + S fuel) (Read.start reqs tk w) = Some (res, fin) ∧
      (Forall (λ e, Read.fatal (Read.outcome e) = false) (Read.trace fin) → res = None).
Proof.
  intros Hmk Ht Hq Hc Ha.
  apply make_requests_manifest in Hmk as [_ Hm].
  destruct (turns_shape reqs n _ _ (start_shape reqs tk w Hm) (start_running reqs tk w) Ht)
    as [HS HR].
  assert (0 ≤ retryCount) as Hlimit.
  { pose proof (proj1 (Forall_forall _ _) (Read.shape_nonneg _ _ HS) a
                  (list_elem_of_lookup_2 _ _ _ Hq)) as H0. simpl in H0. lia. }
  destruct (loop_returns reqs tk w n st Hlimit Hm Ht) as (HI & _ & Hreturns).
  destruct (body_transient st a body0 Hq Ha)
    as (t & st' & Hb & Hidx & _ & [(Hlt & _)|(_ & Hreq & Htr)]); [lia|].
  assert (executes st st' a (Read.mkExec t a Read.Failed) []) as Hex.
  { split; [done|]. split; [done|]. split; [done|].
    split; [by rewrite app_nil_r|]. by left. }
  pose proof (shape_step _ _ _ _ _ _ HS HR Hex) as HS'.
  pose proof (running_step _ _ _ _ _ HR Hex Hidx eq_refl) as HR'.
  assert (∀ fuel res fin, loop fuel st' = Some (res, fin) →
      loop (n + S fuel) (Read.start reqs tk w) = Some (res, fin) ∧
      (Forall (λ e, Read.fatal (Read.outcome e) = false) (Read.trace fin) → res = None))
    as Hall.
  { intros fuel res fin Hl. split.
    - rewrite (loop_turns n _ st (S fuel) Ht). simpl. by rewrite Hb.
    - intros Hnf. destruct (loop_shape reqs fuel st' res fin HS' HR' Hl) as (_ & _ & _ & Hres).
      destruct res as [err|]; [|done].
      destruct Hres as (tr & e & m & Htrf & _ & Ho & _).
      rewrite Htrf in Hnf. apply Forall_app in Hnf as [_ Hlast].
      apply (proj1 (Forall_singleton _ _)) in Hlast. simpl in Hlast.
      by rewrite Ho in Hlast. }
  exists st'. split; [done|]. split; [done|]. split; [done|]. split; [by exists t|].
  split; [|split; [|exact Hall]].
  - intros b Hb'. rewrite <- Hreq, <- Hidx in Hb'.
    pose proof (body_turn st') as Hturn.
    apply turn_executes in Hturn as [[_ Hnone]|(b' & e & app & (Hq' & He & Htr' & _) & _)];
      [congruence|].
    exists e. split; [done|]. congruence.
  - destruct (Hreturns st' (inv_step _ _ _ _ _ _ HI HR Hex) HR') as (fuel & res & fin & Hl).
    destruct (Hall fuel res fin Hl) as [Hrun Hnone].
    destruct (loop_shape reqs fuel st' res fin HS' HR' Hl) as (_ & Hpre & Hptr & _).
    rewrite Hreq in Hpre.
    exists fuel, res, fin. split; [done|]. split; [done|]. split; [done|]. split; [done|].
    split; [split; [|done]|].
    + intros ->. by destruct (loop_executes_queue reqs fuel st' fin HS' HR' Hl) as (_ & _ & _ & ?).
    + intros ->. by destruct (loop_executes_queue reqs fuel st' fin HS' HR' Hl) as (? & _).
Qed.

(** ** Pacing *)

Lemma downloadFile_clock i request name w :
  clock (downloadFile i request name w).2 =
  clock w + Z.of_N (elapsed (client_Do env (exchanges w) request)).
Proof.
  unfold Read.downloadFile.
  destruct (answer _) as [msg|response]; [done|]. simpl.
  destruct (_ =? StatusNoContent); [done|]. destruct (negb _); [done|].
  by rewrite (proj1 (create_and_copy_world _ _ _ _)).
Qed.

(** What a turn that executes an attempt does to the clock, the ticker and
    the record. *)
Lemma body_timing st a :
  Read.requests st !! Read.index st = Some a →
  let now := Z.max (clock (Read.world st)) (Read.next (Read.ticker st)) in
  ∃ o,
    Read.trace (Read.after (body st)) = Read.trace st ++ [Read.mkExec now a o] ∧
    Read.ticker (Read.after (body st)) = (Read.receive (Read.ticker st) (Read.world st)).1 ∧
    clock (Read.world (Read.after (body st))) =
      now + Z.of_N (elapsed (client_Do env (exchanges (Read.world st)) (Read.Request a))).
Proof.
  intros Hq now. unfold Read.body. rewrite Hq. unfold Read.receive. fold now.
  pose proof (downloadFile_clock (Read.Index a) (Read.Request a) (Read.Name a)
    (log_Printf ("downloading file " +:+ fmt_d (Read.Index a))
       (Read.set_clock now (Read.world st)))) as Hclk.
  destruct (downloadFile _ _ _ _) as [[[|msg]|] w2]; simpl in Hclk.
  - destruct (_ <? _); eexists; simpl; done.
  - eexists; simpl; done.
  - eexists; simpl; done.
Qed.

Lemma receive_next tk w :
  0 < Read.period tk →
  let now := Z.max (clock w) (Read.next tk) in
  let tk' := (Read.receive tk w).1 in
  Read.period tk' = Read.period tk ∧
  now < Read.next tk' ∧ Read.next tk + Read.period tk ≤ Read.next tk' ∧
  Read.next tk' ≤ now + Read.period tk ∧
  (clock w ≤ Read.next tk → Read.next tk' = Read.next tk + Read.period tk).
Proof.
  intros Hp now tk'. unfold tk', Read.receive. simpl. fold now.
  assert (0 ≤ now - Read.next tk) as Hd by lia.
  pose proof (Z.mul_div_le (now - Read.next tk) _ Hp).
  pose proof (Z.mul_succ_div_gt (now - Read.next tk) _ Hp).
  pose proof (Z.div_pos (now - Read.next tk) _ Hd Hp).
  split; [done|]. split; [lia|]. split; [nia|]. split; [lia|].
  intros Hc. replace (now - Read.next tk) with 0 by lia.
  rewrite Z.div_0_l by lia. lia.
Qed.

Lemma paced_step t0 interval st a :
  0 < interval → Paced t0 interval st →
  Read.requests st !! Read.index st = Some a →
  Paced t0 interval (Read.after (body st)).
Proof.
  intros HI (Hper & Hnext & Hk & Hlast & Hprev & Hpair) Hq.
  destruct (body_timing st a Hq) as (o & Htr & Htk & _).
  destruct (receive_next (Read.ticker st) (Read.world st)) as (Hp' & Hlt & Hge & _ & _);
    [lia|].
  rewrite <- Htk in Hp', Hlt, Hge. rewrite Hper in *.
  set (now := Z.max _ _) in *. set (st' := Read.after (body st)) in *.
  assert (∀ k e, Read.trace st' !! k = Some e →
            (Read.trace st !! k = Some e ∧ (k < length (Read.trace st))%nat) ∨
            (k = length (Read.trace st) ∧ Read.started e = now)) as Hsplit.
  { intros k e He. rewrite Htr in He.
    apply lookup_app_Some in He as [He|[Hge' He]].
    - left. split; [done|]. by eapply lookup_lt_Some.
    - right. destruct (k - length (Read.trace st))%nat eqn:Hd; simpl in He; [|done].
      simplify_eq. split; [lia|done]. }
  assert (length (Read.trace st') = S (length (Read.trace st))) as Hlen.
  { rewrite Htr, length_app. simpl. lia. }
  split; [done|]. split; [rewrite Hlen; lia|]. split; [|split; [|split]].
  - intros k e He. destruct (Hsplit k e He) as [[He' _]|[-> ->]].
    + by apply Hk.
    + lia.
  - intros k e He. destruct (Hsplit k e He) as [[He' _]|[-> ->]].
    + specialize (Hlast k e He'). lia.
    + lia.
  - intros k e He Hlt'. destruct (Hsplit k e He) as [[He' _]|[-> _]]; [|lia].
    specialize (Hlast k e He'). lia.
  - intros k e1 e2 H1 H2.
    destruct (Hsplit _ _ H2) as [[H2' _]|[Hk2 Hs2]].
    + destruct (Hsplit _ _ H1) as [[H1' _]|[-> _]].
      * by eapply Hpair.
      * apply lookup_lt_Some in H2'. lia.
    + destruct (Hsplit _ _ H1) as [[H1' _]|[-> _]]; [|lia].
      specialize (Hprev k e1 H1' ltac:(lia)). lia.
Qed.

Lemma ontime_step interval st a :
  0 < interval → Read.period (Read.ticker st) = interval →
  (∀ n request, Z.of_N (elapsed (client_Do env n request)) ≤ interval) →
  OnTime interval st →
  Read.requests st !! Read.index st = Some a →
  OnTime interval (Read.after (body st)).
Proof.
  intros HI Hper Hfast (Hclk & Hlast & Hpair) Hq.
  destruct (body_timing st a Hq) as (o & Htr & Htk & Hc).
  destruct (receive_next (Read.ticker st) (Read.world st)) as (_ & _ & _ & _ & Hn);
    [lia|].
  specialize (Hn Hclk). rewrite <- Htk, Hper in Hn.
  replace (Z.max (clock (Read.world st)) (Read.next (Read.ticker st)))
    with (Read.next (Read.ticker st)) in * by lia.
  set (st' := Read.after (body st)) in *.
  split; [|split].
  - rewrite Hc, Hn. specialize (Hfast (exchanges (Read.world st)) (Read.Request a)). lia.
  - intros e He. rewrite Htr, last_snoc in He. simplify_eq. simpl. done.
  - intros k e1 e2 H1 H2. rewrite Htr in H1, H2.
    apply lookup_app_Some in H2 as [H2|[Hge H2]].
    + rewrite lookup_app_l in H1 by (apply lookup_lt_Some in H2; lia).
      by eapply Hpair.
    + destruct (S k - length (Read.trace st))%nat eqn:Hd; simpl in H2; [|done].
      simplify_eq. simpl.
      rewrite lookup_app_l in H1 by lia.
      apply Hlast. rewrite last_lookup.
      replace (pred (length (Read.trace st))) with k by lia. done.
Qed.

Lemma loop_paced t0 interval fuel : ∀ st res fin,
  0 < interval → Paced t0 interval st → loop fuel st = Some (res, fin) →
  Paced t0 interval fin.
Proof.
  induction fuel as [|fuel IH]; intros st res fin HI HP Hl; simpl in Hl; [done|].
  destruct (Read.requests st !! Read.index st) as [a|] eqn:Hq.
  - pose proof (paced_step t0 interval st a HI HP Hq) as HP'.
    destruct (body st) as [st1|res1 st1]; simpl in HP'.
    + by eapply IH.
    + by simplify_eq.
  - unfold Read.body in Hl. rewrite Hq in Hl. by simplify_eq.
Qed.

Lemma loop_ontime interval fuel : ∀ st res fin,
  0 < interval → Read.period (Read.ticker st) = interval →
  (∀ n request, Z.of_N (elapsed (client_Do env n request)) ≤ interval) →
  OnTime interval st → loop fuel st = Some (res, fin) →
  OnTime interval fin.
Proof.
  induction fuel as [|fuel IH]; intros st res fin HI Hper Hfast HO Hl; simpl in Hl; [done|].
  destruct (Read.requests st !! Read.index st) as [a|] eqn:Hq.
  - pose proof (ontime_step interval st a HI Hper Hfast HO Hq) as HO'.
    destruct (body_timing st a Hq) as (_ & _ & Htk & _).
    destruct (body st) as [st1|res1 st1]; simpl in HO', Htk.
    + eapply (IH st1); try done. by rewrite Htk.
    + by simplify_eq.
  - unfold Read.body in Hl. rewrite Hq in Hl. by simplify_eq.
Qed.

Lemma start_paced interval reqs tk w :
  Read.NewTicker interval w = Some tk →
  0 < interval ∧ Paced (clock w) interval (Read.start reqs tk w) ∧
  Read.period tk = interval ∧ OnTime interval (Read.start reqs tk w).
Proof.
  unfold Read.NewTicker. destruct (Z.leb_spec interval 0); [done|].
  intros [= <-]. split; [done|]. split; [|split; [done|]].
  - split; [done|]. simpl. split; [lia|].
    repeat split; intros; by rewrite ?lookup_nil in *.
  - split; simpl; [lia|]. split; intros; by rewrite ?lookup_nil in *.
Qed.


End SchedulerFacts.

(** ** The theorems at concrete runs *)

Lemma scheduler_attempts_bounded_witness :
  ∃ fuel res fin,
    Read.loop Examples.flaky "out" 1 fuel Examples.state0 = Some (res, fin) ∧
    Z.of_nat fuel ≤ Z.of_nat (length Examples.spine2) * (1 + 1) + 1 ∧
    Z.of_nat (length (Read.trace fin)) ≤ Z.of_nat (length Examples.spine2) * (1 + 1) ∧
    (∀ i, Z.of_nat (Read.executions_of i (Read.trace fin)) ≤ 1 + 1) ∧
    (∀ i, (Read.terminal_outcomes_of i (Read.trace fin) ≤ 1)%nat) ∧
    (res = None →
     ∀ i, 1 ≤ i ≤ Z.of_nat (length Examples.spine2) →
          Read.terminal_outcomes_of i (Read.trace fin) = 1%nat) ∧
    Read.first_attempts (Read.trace fin) `prefix_of` Read.indexes (length Examples.spine2) ∧
    (res = None → Read.first_attempts (Read.trace fin) = Read.indexes (length Examples.spine2)).
Proof.
  apply (scheduler_attempts_bounded Examples.flaky "out" 1 Examples.origin Examples.spine2
           Examples.requests_spine2 Examples.ticker0 Examples.world0).
  - lia.
  - vm_compute. reflexivity.
Defined.

(** The run of the witness above, in full: the first entry is retried after
    the second has been executed. *)
Example flaky_run :
  Examples.summary (Read.loop Examples.flaky "out" 1 5 Examples.state0) =
  Some (None, [ (2000000000, 1, 0, Read.RetryPending);
                (4000000000, 2, 0, Read.Succeeded);
                (6000000000, 1, 1, Read.Succeeded) ]).
Proof. vm_compute. reflexivity. Qed.

(** A manifest of two entries whose first download is answered by a 500:
    the run returns the error, and neither entry has a terminal outcome
    (the second is not even attempted). *)
Lemma fatal_entry_has_no_terminal_outcome :
  Examples.summary (Read.loop Examples.broken "out" 1 5 Examples.state0) =
    Some (Some (errorString "downloading file 1 failed: returned 500 status"),
          [ (2000000000, 1, 0, Read.Fatal (errorString "returned 500 status")) ]) ∧
  match Read.loop Examples.broken "out" 1 5 Examples.state0 with
  | Some (_, fin) =>
      Read.terminal_outcomes_of 1 (Read.trace fin) = 0%nat ∧
      Read.terminal_outcomes_of 2 (Read.trace fin) = 0%nat ∧
      Read.executions_of 2 (Read.trace fin) = 0%nat
  | None => False
  end.
Proof. split; vm_compute; [reflexivity|]. repeat split; reflexivity. Qed.

Lemma transient_retry_appended_at_tail_witness :
  ∃ st' again,
    again = {| Read.Count := Read.Count (Examples.first_of Examples.requests_spine2) + 1;
               Read.Index := Read.Index (Examples.first_of Examples.requests_spine2);
               Read.Name := Read.Name (Examples.first_of Examples.requests_spine2);
               Read.Request := Read.Request (Examples.first_of Examples.requests_spine2) |} ∧
    Read.body Examples.flaky "out" 1 Examples.state0 = Read.Continue st' ∧
    Read.requests st' = Read.requests Examples.state0 ++ [again] ∧
    Read.index st' = S (Read.index Examples.state0) ∧
    (∃ t, Read.trace st' =
          Read.trace Examples.state0 ++
          [Read.mkExec t (Examples.first_of Examples.requests_spine2) Read.RetryPending]) ∧
    (∃ fuel res fin,
       Read.loop Examples.flaky "out" 1 fuel st' = Some (res, fin) ∧
       Read.loop Examples.flaky "out" 1 (0 + S fuel)
         (Read.start Examples.requests_spine2 Examples.ticker0 Examples.world0)
         = Some (res, fin) ∧
       (res = None →
        ∃ e, Read.trace fin !! length (Read.requests Examples.state0) = Some e ∧
             Read.attempt e = again)) ∧
    ∀ fuel res fin, Read.loop Examples.flaky "out" 1 fuel st' = Some (res, fin) →
      (Read.requests Examples.state0 ++ [again]) `prefix_of` Read.requests fin ∧
      ∀ e, Read.trace fin !! length (Read.requests Examples.state0) = Some e →
        Read.attempt e = again ∧
        ∀ j b, Read.requests Examples.state0 !! j = Some b →
          (j < length (Read.requests Examples.state0))%nat ∧
          ∃ e', Read.trace fin !! j = Some e' ∧ Read.attempt e' = b.
Proof.
  apply (transient_retry_appended_at_tail Examples.flaky "out" 1 Examples.origin
           Examples.spine2 Examples.requests_spine2 Examples.ticker0 Examples.world0
           0 Examples.state0 (Examples.first_of Examples.requests_spine2) "-").
  - vm_compute. reflexivity.
  - reflexivity.
  - reflexivity.
  - vm_compute. reflexivity.
  - reflexivity.
Defined.

Lemma fatal_error_aborts_run_witness :
  ∃ fin,
    (∀ fuel, Read.loop Examples.broken "out" 1 (0 + S fuel)
               (Read.start Examples.requests_spine2 Examples.ticker0 Examples.world0) =
       Some (Some (errorString
                     ("downloading file " +:+
                      fmt_d (Read.Index (Examples.first_of Examples.requests_spine2)) +:+
                      " failed: " +:+ "returned 500 status")), fin)) ∧
    (∃ t, Read.trace fin =
          Read.trace Examples.state0 ++
          [Read.mkExec t (Examples.first_of Examples.requests_spine2)
             (Read.Fatal (errorString "returned 500 status"))]) ∧
    Read.requests fin = Read.requests Examples.state0 ∧
    exchanges (Read.world fin) = S (exchanges (Read.world Examples.state0)) ∧
    ∃ k spine, Examples.spine2 !! k = Some spine ∧
               Read.Index (Examples.first_of Examples.requests_spine2) = Z.of_nat k + 1 ∧
               Read.Name (Examples.first_of Examples.requests_spine2) = Read.OriginalPath spine.
Proof.
  apply (fatal_error_aborts_run Examples.broken "out" 1 Examples.origin
           Examples.spine2 Examples.requests_spine2 Examples.ticker0 Examples.world0
           0 Examples.state0 (Examples.first_of Examples.requests_spine2)
           "returned 500 status").
  - vm_compute. reflexivity.
  - reflexivity.
  - reflexivity.
  - right. exists 500, "-". split; [reflexivity|]. split; [lia|]. split; [lia|reflexivity].
Defined.

Lemma exhausted_retry_fails_entry_run_continues_witness :
  ∃ st',
    Read.body Examples.flaky "out" 0 Examples.state0 = Read.Continue st' ∧
    Read.requests st' = Read.requests Examples.state0 ∧
    Read.index st' = S (Read.index Examples.state0) ∧
    (∃ t, Read.trace st' =
          Read.trace Examples.state0 ++
          [Read.mkExec t (Examples.first_of Examples.requests_spine2) Read.Failed]) ∧
    (∀ b, Read.requests Examples.state0 !! S (Read.index Examples.state0) = Some b →
       ∃ e, Read.trace (Read.after (Read.body Examples.flaky "out" 0 st')) =
            Read.trace st' ++ [e] ∧ Read.attempt e = b) ∧
    (∃ fuel res fin,
       Read.loop Examples.flaky "out" 0 fuel st' = Some (res, fin) ∧
       Read.loop Examples.flaky "out" 0 (0 + S fuel)
         (Read.start Examples.requests_spine2 Examples.ticker0 Examples.world0)
         = Some (res, fin) ∧
       Read.trace st' `prefix_of` Read.trace fin ∧
       Read.requests Examples.state0 `prefix_of` Read.requests fin ∧
       (res = None ↔ Forall (λ e, Read.fatal (Read.outcome e) = false) (Read.trace fin)) ∧
       (res = None → Read.attempt <$> Read.trace fin = Read.requests fin)) ∧
    ∀ fuel res fin, Read.loop Examples.flaky "out" 0 fuel st' = Some (res, fin) →
      Read.loop Examples.flaky "out" 0 (0 + S fuel)
        (Read.start Examples.requests_spine2 Examples.ticker0 Examples.world0) = Some (res, fin) ∧
      (Forall (λ e, Read.fatal (Read.outcome e) = false) (Read.trace fin) → res = None).
Proof.
  apply (exhausted_retry_fails_entry_run_continues Examples.flaky "out" 0 Examples.origin
           Examples.spine2 Examples.requests_spine2 Examples.ticker0 Examples.world0
           0 Examples.state0 (Examples.first_of Examples.requests_spine2) "-").
  - vm_compute. reflexivity.
  - reflexivity.
  - reflexivity.
  - vm_compute. reflexivity.
  - reflexivity.
Defined.

(** With a retry limit of 0 the entry that met the 204 is recorded as
    failed, the other entry is downloaded, and the run returns no error. *)
Example exhausted_run :
  Examples.summary (Read.loop Examples.flaky "out" 0 5 Examples.state0) =
  Some (None, [ (2000000000, 1, 0, Read.Failed); (4000000000, 2, 0, Read.Succeeded) ]).
Proof. vm_compute. reflexivity. Qed.



(** * Further properties of the code *)

(** * The walk over the document *)

Lemma find_child_step selector node rest :
  Read.find_child selector (node :: rest) =
  if ReadRun.selects selector node then Some node else Read.find_child selector rest.
Proof.
  simpl. unfold ReadRun.selects.
  destruct (Read.NodeType_eqb _ _); simpl; [|done].
  destruct (String.eqb (Read.node_Data node) _); simpl; [|done].
  destruct (String.eqb (Read.Id selector) _); simpl; [done|].
  by destruct (Read.has_id _ _).
Qed.

Lemma find_child_cases (selector : Read.HtmlNode) (nodes : list Read.Node) :
  match Read.find_child selector nodes with
  | Some node =>
      ∃ before after, nodes = before ++ node :: after ∧
        ReadRun.selects selector node = true ∧
        Forall (λ n, ReadRun.selects selector n = false) before
  | None => Forall (λ n, ReadRun.selects selector n = false) nodes
  end.
Proof.
  induction nodes as [|node rest IH]; [by constructor|].
  rewrite find_child_step. destruct (ReadRun.selects selector node) eqn:Hs.
  - exists [], rest. by repeat split.
  - destruct (Read.find_child selector rest) as [found|].
    + destruct IH as (before & after & -> & Hf & Hb).
      exists (node :: before), after. split; [done|]. split; [done|]. by constructor.
    + by constructor.
Qed.

(** X1. [find_child] returns the first child that the selector selects: an
    element with the selector's tag and, when the selector has an id, an
    attribute [id] of that value; it returns nothing exactly when no child
    is selected. *)
Theorem find_child_first (selector : Read.HtmlNode) (nodes : list Read.Node) :
  match Read.find_child selector nodes with
  | Some node =>
      ∃ before after, nodes = before ++ node :: after ∧
        ReadRun.selects selector node = true ∧
        Forall (λ n, ReadRun.selects selector n = false) before
  | None => Forall (λ n, ReadRun.selects selector n = false) nodes
  end.
Proof. apply find_child_cases. Qed.

Lemma find_child_selects selector nodes node :
  Read.find_child selector nodes = Some node → ReadRun.selects selector node = true.
Proof.
  intros H. pose proof (find_child_cases selector nodes) as Hf. rewrite H in Hf.
  by destruct Hf as (? & ? & _ & ? & _).
Qed.

Lemma walk_cases (path : list Read.HtmlNode) (document : Read.Node) :
  match Read.walk path document with
  | inr current => ∀ selector, last path = Some selector → ReadRun.selects selector current = true
  | inl err => ∃ selector, selector ∈ path ∧
      err = errorString ("unable to find element <" +:+ Read.Tag selector +:+ ">")
  end.
Proof.
  revert document. induction path as [|selector rest IH]; intros document; simpl.
  - intros ? [=].
  - destruct (Read.find_child selector (Read.node_children document)) as [node|] eqn:Hf.
    + specialize (IH node). destruct rest as [|s2 rest'].
      * simpl. intros sel [= <-]. by eapply find_child_selects.
      * destruct (Read.walk (s2 :: rest') node) as [err|current].
        -- destruct IH as (sel & Hin & ->). exists sel. split; [|done].
           rewrite elem_of_cons. by right.
        -- intros sel Hl. apply IH. by rewrite last_cons_cons in Hl.
    + exists selector. split; [|done]. rewrite elem_of_cons. by left.
Qed.

(** X2. A walk that succeeds ends on a node selected by the last selector
    of the path; a walk that fails reports the tag of a selector of the
    path. *)
Theorem walk_result (path : list Read.HtmlNode) (document : Read.Node) :
  match Read.walk path document with
  | inr current => ∀ selector, last path = Some selector → ReadRun.selects selector current = true
  | inl err => ∃ selector, selector ∈ path ∧
      err = errorString ("unable to find element <" +:+ Read.Tag selector +:+ ">")
  end.
Proof. apply walk_cases. Qed.

(** * Bytes and strings *)

Lemma bytes_of_string_app (a b : string) :
  bytes_of_string (a +:+ b) = bytes_of_string a ++ bytes_of_string b.
Proof. induction a as [|c a IH]; simpl; [done|]. by rewrite IH. Qed.

Lemma string_of_bytes_app (a b : list Z) :
  string_of_bytes (a ++ b) = string_of_bytes a +:+ string_of_bytes b.
Proof. induction a as [|c a IH]; simpl; [done|]. by rewrite IH. Qed.

Lemma string_of_bytes_of_string (s : string) : string_of_bytes (bytes_of_string s) = s.
Proof.
  induction s as [|c s IH]; simpl; [done|]. rewrite IH. f_equal.
  unfold ascii_of_byte, byte_of_ascii. rewrite N2Z.id. apply ascii_N_embedding.
Qed.

Lemma bytes_of_string_range (s : string) :
  Forall (λ b, 0 ≤ b < 256) (bytes_of_string s).
Proof.
  induction s as [|c s IH]; simpl; constructor; [|done].
  unfold byte_of_ascii. pose proof (N_ascii_bounded c). lia.
Qed.

Lemma bytes_of_string_of_bytes (l : list Z) :
  Forall (λ b, 0 ≤ b < 256) l → bytes_of_string (string_of_bytes l) = l.
Proof.
  induction 1 as [|b l Hb _ IH]; simpl; [done|]. rewrite IH. f_equal.
  unfold ascii_of_byte, byte_of_ascii. rewrite N_ascii_embedding by lia. lia.
Qed.

(** * The pattern *)

Lemma strip_prefix_Some (pre p r : list Z) :
  Read.dataRegxp.strip_prefix pre p = Some r ↔ p = pre ++ r.
Proof.
  revert p. induction pre as [|c pre IH]; intros p; simpl.
  - split; [by intros [= ->]|by intros ->].
  - destruct p as [|b p]; [done|].
    destruct (Z.eqb_spec b c) as [->|Hne].
    + rewrite IH. split; [by intros ->|by intros [= ->]].
    + split; [done|]. intros [= ? ?]. done.
Qed.

Lemma line_spec (p : list Z) :
  ∃ rest, p = Read.dataRegxp.line p ++ rest ∧ (10 ∉ Read.dataRegxp.line p) ∧
          (rest = [] ∨ head rest = Some 10).
Proof.
  induction p as [|b p (rest & Hp & Hno & Hrest)]; simpl.
  - exists []. split; [done|]. split; [apply not_elem_of_nil|by left].
  - destruct (Z.eqb_spec b 10) as [->|Hne].
    + exists (10 :: p). split; [done|]. split; [apply not_elem_of_nil|by right].
    + exists rest. split; [simpl; by f_equal|]. split; [|done].
      rewrite not_elem_of_cons. split; [done|done].
Qed.

Lemma line_app (a rest : list Z) :
  10 ∉ a → rest = [] ∨ head rest = Some 10 → Read.dataRegxp.line (a ++ rest) = a.
Proof.
  intros Ha Hr. induction a as [|b a IH]; simpl.
  - destruct Hr as [->|Hh]; [done|]. destruct rest as [|c rest]; [done|].
    simpl in Hh. injection Hh as ->. done.
  - apply not_elem_of_cons in Ha as [Hb Ha].
    destruct (Z.eqb_spec b 10); [lia|]. by rewrite IH.
Qed.

Lemma upto_last_None (c : Z) (l : list Z) :
  Read.dataRegxp.upto_last c l = None ↔ c ∉ l.
Proof.
  induction l as [|b l IH]; simpl.
  - split; [intros _; apply not_elem_of_nil|done].
  - rewrite not_elem_of_cons. destruct (Read.dataRegxp.upto_last c l) as [g|].
    + split; [done|]. intros [_ Hl]. by apply IH in Hl.
    + destruct (Z.eqb_spec b c) as [->|Hne].
      * split; [done|]. by intros [? _].
      * split; [|done]. intros _. split; [done|]. by apply IH.
Qed.

Lemma upto_last_Some (c : Z) (l g : list Z) :
  Read.dataRegxp.upto_last c l = Some g →
  ∃ g' tail, g = g' ++ [c] ∧ l = g ++ tail ∧ c ∉ tail.
Proof.
  revert g. induction l as [|b l IH]; intros g; simpl; [done|].
  destruct (Read.dataRegxp.upto_last c l) as [g0|] eqn:Hu.
  - intros [= <-]. destruct (IH g0 eq_refl) as (g' & tail & -> & -> & Hc).
    exists (b :: g'), tail. by repeat split.
  - destruct (Z.eqb_spec b c) as [->|Hne]; [|done].
    intros [= <-]. exists [], l. split; [done|]. split; [done|]. by apply upto_last_None.
Qed.

Lemma DecodeRune_size (p : list Z) :
  let '(r, sz) := utf8.DecodeRune p in
  (sz ≤ 4)%nat ∧ (sz ≤ length p)%nat ∧ (p ≠ [] → (1 ≤ sz)%nat) ∧
  (head p = Some 10 → r = 10).
Proof.
  unfold utf8.DecodeRune.
  repeat case_match; simplify_eq; simpl; repeat split; try lia; try done.
  all: intros [= ->]; done.
Qed.

#[local] Opaque Read.dataRegxp.lit_window Read.dataRegxp.lit_bData.

Lemma match_here_Some (p whole grp : list Z) :
  Read.dataRegxp.match_here p = Some (whole, grp) →
  ∃ dot inner post,
    p = whole ++ post ∧
    whole = Read.dataRegxp.lit_window ++ dot ++ Read.dataRegxp.lit_bData ++ inner ++ [125] ∧
    grp = 123 :: inner ++ [125] ∧
    (1 ≤ length dot ≤ 4)%nat ∧ dot ≠ [10] ∧
    (10 ∉ inner) ∧ (125 ∉ Read.dataRegxp.line post).
Proof.
  unfold Read.dataRegxp.match_here.
  destruct (Read.dataRegxp.strip_prefix Read.dataRegxp.lit_window p) as [p1|] eqn:H1;
    simpl; [|done].
  pose proof (DecodeRune_size p1) as Hd.
  destruct (utf8.DecodeRune p1) as [r sz]. destruct Hd as (H4 & Hlen & Hpos & Hlf).
  destruct (Nat.eqb_spec sz 0) as [->|Hsz]; simpl; [intros [=]|].
  destruct (Z.eqb_spec r 10) as [->|Hr]; simpl; [intros [=]|].
  destruct (Read.dataRegxp.strip_prefix Read.dataRegxp.lit_bData (drop sz p1)) as [p3|] eqn:H3;
    simpl; [|done].
  destruct (Read.dataRegxp.upto_last Read.dataRegxp.brace_close (Read.dataRegxp.line p3))
    as [g|] eqn:Hg; simpl; [|done].
  intros [= <- <-].
  apply strip_prefix_Some in H1, H3.
  destruct (line_spec p3) as (rest & Hp3 & Hno & Hrest).
  apply upto_last_Some in Hg as (inner & tail & -> & Hline & Htail).
  rewrite Hline in Hno. rewrite !not_elem_of_app in Hno. destruct Hno as [[Hinner _] Hnotail].
  exists (take sz p1), inner, (tail ++ rest).
  split; [|split; [done|split; [done|split; [|split; [|split; [done|]]]]]].
  - rewrite H1. rewrite <- (take_drop sz p1) at 1. rewrite H3, Hp3 at 1. rewrite Hline.
    by rewrite <- !app_assoc.
  - rewrite length_take. lia.
  - intros Heq. apply Hr, Hlf. destruct p1 as [|b p1]; [by destruct sz|].
    destruct sz; [done|]. simpl in Heq. by injection Heq as ->.
  - by rewrite line_app.
Qed.

Lemma find_Some (p : list Z) (m : list Z * list Z) :
  Read.dataRegxp.find p = Some m →
  ∃ pre q, p = pre ++ q ∧ Read.dataRegxp.match_here q = Some m ∧
    ∀ k, (k < length pre)%nat → Read.dataRegxp.match_here (drop k p) = None.
Proof.
  induction p as [|b p IH]; simpl.
  - destruct (Read.dataRegxp.match_here []) eqn:Hm; [|done].
    intros [= <-]. exists [], []. split; [done|]. split; [done|]. simpl. lia.
  - destruct (Read.dataRegxp.match_here (b :: p)) eqn:Hm.
    + intros [= <-]. exists [], (b :: p). split; [done|]. split; [done|]. simpl. lia.
    + intros Hf. destruct (IH Hf) as (pre & q & -> & Hq & Hleft).
      exists (b :: pre), q. split; [done|]. split; [done|].
      intros [|k] Hk; [done|]. simpl. apply Hleft. simpl in Hk. lia.
Qed.

Lemma find_app (pre q : list Z) :
  is_Some (Read.dataRegxp.match_here q) → is_Some (Read.dataRegxp.find (pre ++ q)).
Proof.
  intros [m Hm]. induction pre as [|b pre IH]; simpl.
  - destruct q; simpl; by rewrite Hm.
  - by destruct (Read.dataRegxp.match_here (b :: pre ++ q)).
Qed.

Lemma match_here_literal (mid post : list Z) :
  10 ∉ mid →
  is_Some (Read.dataRegxp.match_here
             (Read.dataRegxp.lit_window ++ 46 :: Read.dataRegxp.lit_bData
                ++ mid ++ 125 :: post)).
Proof.
  intros Hmid. unfold Read.dataRegxp.match_here.
  rewrite (proj2 (strip_prefix_Some Read.dataRegxp.lit_window _ _) eq_refl). simpl.
  rewrite drop_0.
  rewrite (proj2 (strip_prefix_Some Read.dataRegxp.lit_bData _ _) eq_refl). simpl.
  destruct (Read.dataRegxp.upto_last Read.dataRegxp.brace_close
              (Read.dataRegxp.line (mid ++ 125 :: post))) as [g|] eqn:Hg; simpl; [done|].
  apply upto_last_None in Hg. exfalso. apply Hg.
  destruct (line_spec post) as (rest & Hpost & Hno & Hrest).
  rewrite Hpost.
  replace (mid ++ 125 :: Read.dataRegxp.line post ++ rest)
    with ((mid ++ 125 :: Read.dataRegxp.line post) ++ rest)
    by (by rewrite <- app_assoc).
  rewrite line_app; [| |done].
  - rewrite elem_of_app, elem_of_cons. right. by left.
  - rewrite not_elem_of_app, not_elem_of_cons. split; [done|]. split; [done|done].
Qed.

#[local] Transparent Read.dataRegxp.lit_window Read.dataRegxp.lit_bData.

Section Pattern.

Local Open Scope string_scope.


(** X4. The assignment [window.bData = {...}] written on one line is always
    found, wherever it stands in the text. *)
Theorem FindSubmatch_finds (pre mid post : string) :
  (10%Z ∉ bytes_of_string mid) →
  is_Some (Read.dataRegxp.FindSubmatch
             (pre +:+ "window.bData = {" +:+ mid +:+ "}" +:+ post)).
Proof.
  intros Hmid. unfold Read.dataRegxp.FindSubmatch.
  rewrite !bytes_of_string_app.
  destruct (find_app (bytes_of_string pre)
              (bytes_of_string "window.bData = {" ++ bytes_of_string mid ++
               bytes_of_string "}" ++ bytes_of_string post)%list)
    as [[w g] Hfind]; [|by rewrite Hfind].
  by apply (match_here_literal (bytes_of_string mid) (bytes_of_string post)).
Qed.

End Pattern.

(** * Building the attempts *)

Section Requests.

Variable env : Env.

Lemma make_requests_from origin spines : ∀ j,
  match Read.make_requests env origin j spines with
  | inr reqs =>
      length reqs = length spines ∧
      (∀ k spine, spines !! k = Some spine →
                  NewRequest_error env (ReadRun.spine_url origin spine) = None ∧
                  reqs !! k = Some (ReadRun.attempt_for origin (j + k) spine))
  | inl err =>
      ∃ k spine msg, spines !! k = Some spine ∧
        NewRequest_error env (ReadRun.spine_url origin spine) = Some msg ∧
        err = errorString msg ∧
        ∀ i s, (i < k)%nat → spines !! i = Some s →
               NewRequest_error env (ReadRun.spine_url origin s) = None
  end.
Proof.
  induction spines as [|spine spines IH]; intros j; simpl.
  - split; [done|]. intros k s Hk. by rewrite lookup_nil in Hk.
  - unfold NewRequest. fold (ReadRun.spine_url origin spine).
    destruct (NewRequest_error env (ReadRun.spine_url origin spine)) as [msg|] eqn:Hn.
    + exists 0%nat, spine, msg. repeat split; try done. intros i s Hi. lia.
    + specialize (IH (S j)).
      destruct (Read.make_requests env origin (S j) spines) as [err|reqs].
      * destruct IH as (k & s & msg & Hk & Hmsg & -> & Hbefore).
        exists (S k), s, msg. repeat split; try done.
        intros [|i] s' Hi Hs'; simpl in Hs'; [by simplify_eq|].
        eapply Hbefore; [|done]. lia.
      * destruct IH as [Hlen Hall]. split; [simpl; by rewrite Hlen|].
        intros [|k] s Hk; simpl in Hk.
        -- simplify_eq. split; [done|]. simpl. unfold ReadRun.attempt_for.
           by rewrite Nat.add_0_r.
        -- destruct (Hall k s Hk) as [Hok Hreq]. split; [done|]. simpl.
           rewrite Hreq. do 2 f_equal. lia.
Qed.

(** X5. A manifest that is built has one attempt per spine entry, in order:
    retry count 0, sequence index the position plus one, the original path
    as name, and a request for [scheme://host/path] that carries the
    referer and the user agent. *)
Theorem make_requests_attempts
    (origin : Read.url_URL) (spines : list Read.Spine) (reqs : list Read.DownloadAttempt) :
  Read.make_requests env origin 0 spines = inr reqs →
  reqs = imap (ReadRun.attempt_for origin) spines.
Proof.
  intros Hm. pose proof (make_requests_from origin spines 0) as H. rewrite Hm in H.
  destruct H as [Hlen Hall]. apply list_eq. intros k.
  rewrite list_lookup_imap.
  destruct (spines !! k) as [spine|] eqn:Hs; simpl.
  - by destruct (Hall k spine Hs) as [_ ->].
  - apply lookup_ge_None. apply lookup_ge_None in Hs. lia.
Qed.

(** X6. The manifest cannot be built exactly when [http.NewRequest] rejects
    the URL of some spine entry; the error returned is that of the first
    entry rejected. *)
Theorem make_requests_error
    (origin : Read.url_URL) (spines : list Read.Spine) (err : error) :
  Read.make_requests env origin 0 spines = inl err ↔
  ∃ k spine msg, spines !! k = Some spine ∧
    NewRequest_error env (ReadRun.spine_url origin spine) = Some msg ∧
    err = errorString msg ∧
    ∀ i s, (i < k)%nat → spines !! i = Some s →
           NewRequest_error env (ReadRun.spine_url origin s) = None.
Proof.
  pose proof (make_requests_from origin spines 0) as H. split.
  - intros Hm. by rewrite Hm in H.
  - intros (k & spine & msg & Hk & Hmsg & -> & Hbefore).
    destruct (Read.make_requests env origin 0 spines) as [err|reqs].
    + destruct H as (k' & spine' & msg' & Hk' & Hmsg' & -> & Hbefore').
      destruct (Nat.lt_trichotomy k k') as [Hlt|[->|Hgt]].
      * rewrite (Hbefore' k spine Hlt Hk) in Hmsg. done.
      * congruence.
      * rewrite (Hbefore k' spine' Hgt Hk') in Hmsg'. done.
    + destruct H as [_ Hall]. destruct (Hall k spine Hk) as [Hok _]. congruence.
Qed.

End Requests.

(** * More on one download *)

Section ExecutorFrame.

Variable env : Env.
Variable outputDirectory : string.

Lemma create_and_copy_frame x filePath body w p :
  p ≠ filePath → files (create_and_copy x filePath body w).2 !! p = files w !! p.
Proof.
  intros Hp. unfold create_and_copy.
  destruct (create_error x); [done|].
  destruct (copy_error x) as [[n msg]|]; simpl; by rewrite lookup_insert_ne.
Qed.

Lemma read_downloadFile_untouched
    (index : Z) (request : http_Request) (name : string) (w : World) :
  exchanges (Read.downloadFile env outputDirectory index request name w).2 = S (exchanges w) ∧
  log (Read.downloadFile env outputDirectory index request name w).2 = log w ∧
  ∀ p, p ≠ path_Join env outputDirectory name →
       files (Read.downloadFile env outputDirectory index request name w).2 !! p = files w !! p.
Proof.
  unfold Read.downloadFile.
  set (x := client_Do env (exchanges w) request).
  destruct (answer x) as [msg|response]; [done|]. simpl.
  destruct (_ =? StatusNoContent); [done|]. destruct (negb _); [done|].
  destruct (create_and_copy_world x (path_Join env outputDirectory name) (Body response)
              (exchanged x w)) as (_ & He & Hl).
  split; [done|]. split; [done|]. intros p Hp. by rewrite create_and_copy_frame.
Qed.

(** X7. A call of the reader's [downloadFile] makes exactly one exchange,
    writes no log line, and leaves every file but the destination as it
    was. *)
Theorem read_downloadFile_frame
    (index : Z) (request : http_Request) (name : string) (w : World) :
  exchanges (Read.downloadFile env outputDirectory index request name w).2 = S (exchanges w) ∧
  log (Read.downloadFile env outputDirectory index request name w).2 = log w ∧
  ∀ p, p ≠ path_Join env outputDirectory name →
       files (Read.downloadFile env outputDirectory index request name w).2 !! p = files w !! p.
Proof. apply read_downloadFile_untouched. Qed.

Lemma file_downloadFile_untouched
    (baseUrl license : string) (part : File.Part) (w : World) :
  (exchanges (File.downloadFile env outputDirectory baseUrl part license w).2 = exchanges w ∨
   exchanges (File.downloadFile env outputDirectory baseUrl part license w).2
     = S (exchanges w)) ∧
  (is_Some (NewRequest_error env (baseUrl +:+ "/" +:+ File.Filename part)) →
   (File.downloadFile env outputDirectory baseUrl part license w).2 = w) ∧
  ∀ p, p ≠ path_Join env outputDirectory (File.Name part +:+ ".mp3") →
       files (File.downloadFile env outputDirectory baseUrl part license w).2 !! p
       = files w !! p.
Proof.
  unfold File.downloadFile, File.part_request, NewRequest.
  destruct (NewRequest_error env _) as [msg|]; simpl.
  { split; [by left|]. done. }
  set (x := client_Do env (exchanges w) _).
  split; [|split; [by intros [? [=]]|]].
  - right. destruct (answer x) as [msg|response]; [done|]. simpl.
    destruct (negb _); [done|].
    by destruct (create_and_copy_world x
         (path_Join env outputDirectory (File.Name part +:+ ".mp3")) (Body response)
         (exchanged x w)) as (_ & He & Hl).
  - intros p Hp. destruct (answer x) as [msg|response]; [done|]. simpl.
    destruct (negb _); [done|]. by rewrite create_and_copy_frame.
Qed.

(** X8. A call of the file variant's [downloadFile] makes at most one
    exchange (none, and no change at all, when the request cannot be built)
    and leaves every file but [<name>.mp3] as it was. *)
Theorem file_downloadFile_frame
    (baseUrl license : string) (part : File.Part) (w : World) :
  (exchanges (File.downloadFile env outputDirectory baseUrl part license w).2 = exchanges w ∨
   exchanges (File.downloadFile env outputDirectory baseUrl part license w).2
     = S (exchanges w)) ∧
  (is_Some (NewRequest_error env (baseUrl +:+ "/" +:+ File.Filename part)) →
   (File.downloadFile env outputDirectory baseUrl part license w).2 = w) ∧
  ∀ p, p ≠ path_Join env outputDirectory (File.Name part +:+ ".mp3") →
       files (File.downloadFile env outputDirectory baseUrl part license w).2 !! p
       = files w !! p.
Proof. apply file_downloadFile_untouched. Qed.

(** X9. After a 200, a file that cannot be created leaves the files as they
    were, and a copy that fails after [n] bytes leaves the destination with
    the first [n] bytes of the body; in both cases the reader's
    [downloadFile] returns that error, which is not the sentinel. *)
Theorem read_downloadFile_write_failure
    (index : Z) (request : http_Request) (name : string) (w : World) (body : string) :
  answer (client_Do env (exchanges w) request) = inr {| StatusCode := 200; Body := body |} →
  match create_error (client_Do env (exchanges w) request),
        copy_error (client_Do env (exchanges w) request) with
  | Some msg, _ =>
      (Read.downloadFile env outputDirectory index request name w).1 = Some (errorString msg) ∧
      files (Read.downloadFile env outputDirectory index request name w).2 = files w
  | None, Some (n, msg) =>
      (Read.downloadFile env outputDirectory index request name w).1 = Some (errorString msg) ∧
      files (Read.downloadFile env outputDirectory index request name w).2 =
        <[path_Join env outputDirectory name := String.substring 0 n body]> (files w)
  | None, None =>
      (Read.downloadFile env outputDirectory index request name w).1 = None ∧
      files (Read.downloadFile env outputDirectory index request name w).2 =
        <[path_Join env outputDirectory name := body]> (files w)
  end.
Proof.
  intros Ha. unfold Read.downloadFile, create_and_copy. rewrite Ha. simpl.
  destruct (create_error _); [done|]. by destruct (copy_error _) as [[n msg]|].
Qed.

End ExecutorFrame.

(** * More on the scheduler *)

Section SchedulerMore.

Variable env : Env.
Variable outputDirectory : string.
Variable retryCount : Z.

Local Abbreviation body := (Read.body env outputDirectory retryCount).
Local Abbreviation loop := (Read.loop env outputDirectory retryCount).
Local Abbreviation destination := (ReadRun.destination env outputDirectory).
Local Abbreviation counted := ReadRun.counted.
Local Abbreviation all_ok := (ReadRun.all_ok env outputDirectory).

(** What a turn that executes an attempt does to the world. *)
Lemma body_world st a :
  Read.requests st !! Read.index st = Some a →
  length (Read.trace (Read.after (body st))) = S (length (Read.trace st)) ∧
  exchanges (Read.world (Read.after (body st))) = S (exchanges (Read.world st)) ∧
  ∀ p, p ≠ destination a →
       files (Read.world (Read.after (body st))) !! p = files (Read.world st) !! p.
Proof.
  intros Hq. unfold Read.body. rewrite Hq. unfold Read.receive.
  match goal with |- context [Read.downloadFile env outputDirectory ?i ?r ?n ?w1] =>
    pose proof (read_downloadFile_untouched env outputDirectory i r n w1) as (He & _ & Hf);
    destruct (Read.downloadFile env outputDirectory i r n w1) as [[[|msg]|] w2] end;
    simpl in He, Hf.
  - destruct (_ <? _); simpl; rewrite length_app; simpl; (split; [lia|]); by split.
  - simpl. rewrite length_app. simpl. split; [lia|]. by split.
  - simpl. rewrite length_app. simpl. split; [lia|]. by split.
Qed.

Lemma body_exit st :
  Read.requests st !! Read.index st = None → body st = Read.Return None st.
Proof. intros Hq. unfold Read.body. by rewrite Hq. Qed.

(** A property that every executing turn keeps holds when the loop
    returns. *)
Lemma loop_invariant (P : Read.State → Prop) :
  (∀ st a, Read.requests st !! Read.index st = Some a → P st → P (Read.after (body st))) →
  ∀ fuel st res fin, P st → loop fuel st = Some (res, fin) → P fin.
Proof.
  intros Hstep. induction fuel as [|fuel IH]; intros st res fin HP Hl; simpl in Hl; [done|].
  destruct (Read.requests st !! Read.index st) as [a|] eqn:Hq.
  - specialize (Hstep st a Hq HP).
    destruct (body st) as [st1|r st1]; simpl in Hstep.
    + exact (IH st1 res fin Hstep Hl).
    + by simplify_eq.
  - rewrite (body_exit st Hq) in Hl. by simplify_eq.
Qed.

(** The same for a property that needs the shape of the states it goes
    through. *)
Lemma loop_invariant_shape reqs0 (P : Read.State → Prop) :
  (∀ st st' a e appended,
     Read.Shape reqs0 st → Read.Running st → Read.executes retryCount st st' a e appended →
     st' = Read.after (body st) → P st → P st') →
  ∀ fuel st res fin,
    Read.Shape reqs0 st → Read.Running st → P st → loop fuel st = Some (res, fin) → P fin.
Proof.
  intros Hstep. induction fuel as [|fuel IH]; intros st res fin HS HR HP Hl;
    simpl in Hl; [done|].
  pose proof (body_turn env outputDirectory retryCount st) as Hb.
  apply turn_executes in Hb as [[Hb _]|(a & e & app & Hex & Hrest)].
  - rewrite Hb in Hl. by simplify_eq.
  - pose proof (Hstep st _ a e app HS HR Hex eq_refl HP) as HP'.
    destruct (body st) as [st1|r st1]; simpl in *.
    + destruct Hrest as [Hidx Hf].
      apply (IH st1 res fin); [by eapply shape_step|by eapply running_step|done|done].
    + by simplify_eq.
Qed.

(** X10. A run makes exactly one exchange for every execution it records. *)
Theorem scheduler_one_exchange_per_execution
    (reqs : list Read.DownloadAttempt) (tk : Read.Ticker) (w : World)
    (fuel : nat) (res : option error) (fin : Read.State) :
  loop fuel (Read.start reqs tk w) = Some (res, fin) →
  exchanges (Read.world fin) = (exchanges w + length (Read.trace fin))%nat.
Proof.
  apply (loop_invariant
           (λ st, exchanges (Read.world st) = (exchanges w + length (Read.trace st))%nat)).
  - intros st a Hq HP. destruct (body_world st a Hq) as (Hlen & Hex & _).
    rewrite Hlen, Hex, HP. lia.
  - simpl. lia.
Qed.

Lemma loop_files_frame
    (origin : Read.url_URL) (spines : list Read.Spine)
    (reqs : list Read.DownloadAttempt) (tk : Read.Ticker) (w : World)
    (fuel : nat) (res : option error) (fin : Read.State) (p : string) :
  Read.make_requests env origin 0 spines = inr reqs →
  loop fuel (Read.start reqs tk w) = Some (res, fin) →
  (p ∉ (λ s, path_Join env outputDirectory (Read.OriginalPath s)) <$> spines) →
  files (Read.world fin) !! p = files w !! p.
Proof.
  intros Hmk Hl Hp.
  pose proof (make_requests_numbered _ _ _ _ _ Hmk) as (_ & _ & Hname).
  apply make_requests_manifest in Hmk as [_ Hm].
  apply (loop_invariant_shape reqs
           (λ st, files (Read.world st) !! p = files w !! p) )
    with (fuel := fuel) (st := Read.start reqs tk w) (res := res);
    [|by apply start_shape|apply start_running|done|done].
  intros st st' a e app HS HR (Hq & _) -> HP.
  destruct (body_world st a Hq) as (_ & _ & Hf). rewrite Hf; [done|].
  destruct (shape_entry reqs st a Hm HS) as (k & a0 & Hk & _ & Hn & _);
    [by eapply list_elem_of_lookup_2|].
  destruct (Hname k a0 Hk) as (spine & Hs & Hn0).
  unfold ReadRun.destination. rewrite Hn, Hn0. intros ->. apply Hp.
  apply (list_elem_of_fmap_2 (λ s, path_Join env outputDirectory (Read.OriginalPath s))).
  by eapply list_elem_of_lookup_2.
Qed.

(** X11. A run touches no file but the destinations of the entries of its
    manifest. *)
Theorem scheduler_writes_only_destinations
    (origin : Read.url_URL) (spines : list Read.Spine)
    (reqs : list Read.DownloadAttempt) (tk : Read.Ticker) (w : World)
    (fuel : nat) (res : option error) (fin : Read.State) (p : string) :
  Read.make_requests env origin 0 spines = inr reqs →
  loop fuel (Read.start reqs tk w) = Some (res, fin) →
  (p ∉ (λ s, path_Join env outputDirectory (Read.OriginalPath s)) <$> spines) →
  files (Read.world fin) !! p = files w !! p.
Proof. apply loop_files_frame. Qed.


(** X12. When a run returns an error, its last execution was fatal and no
    earlier one was: the error is never the sentinel, it names the sequence
    index of that execution, and this index is that of a manifest entry. *)
Theorem scheduler_error_is_last_execution
    (origin : Read.url_URL) (spines : list Read.Spine)
    (reqs : list Read.DownloadAttempt) (tk : Read.Ticker) (w : World)
    (fuel : nat) (err : error) (fin : Read.State) :
  Read.make_requests env origin 0 spines = inr reqs →
  loop fuel (Read.start reqs tk w) = Some (Some err, fin) →
  ∃ tr e msg,
    Read.trace fin = tr ++ [e] ∧
    Forall (λ e, Read.fatal (Read.outcome e) = false) tr ∧
    Read.outcome e = Read.Fatal (errorString msg) ∧
    err = errorString ("downloading file " +:+ fmt_d (Read.Index (Read.attempt e))
                       +:+ " failed: " +:+ msg) ∧
    1 ≤ Read.Index (Read.attempt e) ≤ Z.of_nat (length spines).
Proof.
  intros Hmk Hl. apply make_requests_manifest in Hmk as [Hlen Hm].
  destruct (loop_shape env outputDirectory retryCount reqs fuel _ _ _
              (start_shape reqs tk w Hm) (start_running reqs tk w) Hl)
    as (HS & _ & _ & tr & e & msg & Htr & Hnf & Ho & ->).
  exists tr, e, msg. split; [done|]. split; [done|]. split; [done|]. split; [done|].
  assert (Read.attempt e ∈ Read.requests fin) as Hin.
  { pose proof (Read.shape_prefix _ _ HS) as Hpre.
    assert (Read.attempt e ∈ Read.attempt <$> Read.trace fin) as He.
    { rewrite Htr, fmap_app. apply elem_of_app. right. simpl.
      by apply list_elem_of_singleton. }
    rewrite Hpre in He. apply elem_of_take in He as (i & Hi & _).
    by eapply list_elem_of_lookup_2. }
  destruct (shape_entry reqs fin _ Hm HS Hin) as (k & a0 & Hk & Hi & _).
  apply lookup_lt_Some in Hk. lia.
Qed.

(** ** A retry limit that allows no retry *)

Lemma no_retry_step reqs0 st st' a e appended :
  retryCount ≤ 0 → Read.Shape reqs0 st →
  Read.executes retryCount st st' a e appended →
  Read.requests st' = Read.requests st ∧ Read.outcome e ≠ Read.RetryPending.
Proof.
  intros HR HS (Hq & _ & _ & Hreq & Hcase).
  pose proof (Forall_lookup_1 _ _ _ _ (Read.shape_nonneg _ _ HS) Hq) as Hnn. simpl in Hnn.
  destruct Hcase as [[-> Hs]|(_ & Hc & _)]; [|lia].
  rewrite app_nil_r in Hreq. split; [done|]. by destruct (Read.outcome e).
Qed.

Lemma no_retry_terminates reqs0 m : ∀ st,
  retryCount ≤ 0 → Read.Shape reqs0 st → Read.Running st →
  (length (Read.requests st) ≤ Read.index st + m)%nat →
  ∃ fuel r, (fuel ≤ S m)%nat ∧ loop fuel st = Some r.
Proof.
  induction m as [|m IH]; intros st HR HS Hrun Hm.
  - exists 1%nat. simpl. rewrite body_exit; [eauto|].
    apply lookup_ge_None. lia.
  - pose proof (body_turn env outputDirectory retryCount st) as Hb.
    destruct (body st) as [st1|r st1] eqn:Hbody.
    + apply turn_executes in Hb as [[? _]|(a & e & app & Hex & Hidx & Hf)]; [done|].
      simpl in Hex. destruct (no_retry_step _ _ _ _ _ _ HR HS Hex) as [Hreq _].
      destruct (IH st1) as (fuel & r & Hle & Hl);
        [done|by eapply shape_step|by eapply running_step|rewrite Hreq, Hidx; lia|].
      exists (S fuel), r. split; [lia|]. simpl. by rewrite Hbody.
    + exists 1%nat. eexists. split; [lia|]. simpl. by rewrite Hbody.
Qed.

(** X13. With a retry limit of zero or less (the flag accepts negative
    values) nothing is ever retried: the loop is left within [N + 1]
    turns, the queue is still the manifest, the executions are the entries
    in order, none of them recorded as [RetryPending], and all the entries
    are executed when the run returns no error. *)
Theorem scheduler_without_retries
    (origin : Read.url_URL) (spines : list Read.Spine)
    (reqs : list Read.DownloadAttempt) (tk : Read.Ticker) (w : World) :
  retryCount ≤ 0 →
  Read.make_requests env origin 0 spines = inr reqs →
  ∃ fuel res fin,
    (fuel ≤ S (length spines))%nat ∧
    loop fuel (Read.start reqs tk w) = Some (res, fin) ∧
    Read.requests fin = reqs ∧
    Read.attempt <$> Read.trace fin = take (length (Read.trace fin)) reqs ∧
    Forall (λ e, Read.outcome e ≠ Read.RetryPending) (Read.trace fin) ∧
    (res = None → Read.attempt <$> Read.trace fin = reqs).
Proof.
  intros HR Hmk. apply make_requests_manifest in Hmk as [Hlen Hm].
  pose proof (start_shape reqs tk w Hm) as HS.
  pose proof (start_running reqs tk w) as Hrun.
  destruct (no_retry_terminates reqs (length reqs) _ HR HS Hrun)
    as (fuel & [res fin] & Hfuel & Hl); [simpl; lia|].
  exists fuel, res, fin. split; [lia|]. split; [done|].
  assert (Read.requests fin = reqs ∧
          Forall (λ e, Read.outcome e ≠ Read.RetryPending) (Read.trace fin)) as [Hreq Hout].
  { apply (loop_invariant_shape reqs
             (λ st, Read.requests st = reqs ∧
                    Forall (λ e, Read.outcome e ≠ Read.RetryPending) (Read.trace st)))
      with (fuel := fuel) (st := Read.start reqs tk w) (res := res); try done.
    intros st st' a e app HS' HR' Hex _ [Hq Hall].
    destruct (no_retry_step _ _ _ _ _ _ HR HS' Hex) as [Hreq Ho].
    split; [congruence|]. destruct Hex as (_ & _ & -> & _).
    apply Forall_app. split; [done|]. by apply Forall_singleton. }
  destruct (loop_shape env outputDirectory retryCount reqs fuel _ _ _ HS Hrun Hl)
    as (HSf & _ & _ & Hres).
  pose proof (Read.shape_prefix _ _ HSf) as Hpre. rewrite Hreq in Hpre.
  split; [done|]. split; [done|]. split; [done|].
  intros ->. destruct Hres as [_ Hq]. unfold Read.queued in Hq. rewrite Hreq in Hq.
  rewrite Hpre. rewrite <- (take_drop (length (Read.trace fin)) reqs) at 2.
  by rewrite Hq, app_nil_r.
Qed.

(** ** The retry count of an execution *)


Lemma queued_step st st' a e appended :
  Read.Running st → Read.executes retryCount st st' a e appended →
  ∃ q, Read.queued st = a :: q ∧ Read.queued st' = q ++ appended.
Proof.
  intros Hrun (Hq & He & Htr & Hreq & _).
  exists (drop (S (length (Read.trace st))) (Read.requests st)).
  split; [by apply queued_head|].
  destruct Hrun as [Hi _]. rewrite Hi in Hq. apply lookup_lt_Some in Hq.
  unfold Read.queued. rewrite Htr, Hreq, length_app. simpl.
  rewrite Nat.add_1_r. apply drop_app_le. lia.
Qed.

Lemma executions_of_snoc i tr e :
  Read.executions_of i (tr ++ [e]) =
  (Read.executions_of i tr + if Read.for_entry i (Read.attempt e) then 1 else 0)%nat.
Proof. unfold Read.executions_of. by rewrite count_app, count_one. Qed.

Lemma counted_step reqs0 st st' a e appended :
  Read.Shape reqs0 st → Read.Running st → Read.executes retryCount st st' a e appended →
  counted st → counted st'.
Proof.
  intros HS Hrun Hex (Hrec & Hque & Hnd).
  destruct (queued_step _ _ _ _ _ Hrun Hex) as (q & Hq & Hq').
  destruct Hex as (_ & He & Htr & _ & Hcase).
  rewrite Hq in Hque, Hnd. simpl in Hnd. apply NoDup_cons in Hnd as [Hfresh Hnd].
  assert (Read.Count a = Z.of_nat (Read.executions_of (Read.Index a) (Read.trace st))) as Ha.
  { apply Hque. apply list_elem_of_here. }
  split; [|split].
  - intros k e' Hk. rewrite Htr in Hk |- *.
    apply lookup_app_Some in Hk as [Hk|[Hge Hk]].
    + rewrite take_app_le by (apply lookup_lt_Some in Hk; lia). by apply Hrec.
    + destruct (k - length (Read.trace st))%nat eqn:Hd; simpl in Hk; [|done].
      simplify_eq. assert (k = length (Read.trace st)) as -> by lia.
      by rewrite take_app_length.
  - intros b Hb. rewrite Hq' in Hb. rewrite Htr, executions_of_snoc, He.
    unfold Read.for_entry. apply elem_of_app in Hb as [Hb|Hb].
    + assert (Read.Index b ≠ Read.Index a) as Hne.
      { intros Heq. apply Hfresh. rewrite <- Heq. by apply list_elem_of_fmap_2. }
      destruct (Z.eqb_spec (Read.Index a) (Read.Index b)); [congruence|].
      rewrite (Hque b) by (by apply list_elem_of_further). lia.
    + destruct Hcase as [[-> _]|(-> & _ & _)]; [by apply elem_of_nil in Hb|].
      apply list_elem_of_singleton in Hb as ->. simpl.
      rewrite Z.eqb_refl, Ha. lia.
  - rewrite Hq', fmap_app. apply NoDup_app. split; [done|]. split.
    + intros x Hx. destruct Hcase as [[-> _]|(-> & _ & _)]; [apply not_elem_of_nil|].
      simpl. rewrite list_elem_of_singleton. intros ->. done.
    + destruct Hcase as [[-> _]|(-> & _ & _)]; [constructor|apply NoDup_singleton].
Qed.

Lemma counted_start reqs tk w :
  Read.manifest reqs → counted (Read.start reqs tk w).
Proof.
  intros Hm. split; [|split]; simpl.
  - intros k e Hk. by rewrite lookup_nil in Hk.
  - intros a Ha. unfold Read.queued in Ha. simpl in Ha.
    apply list_elem_of_lookup in Ha as [k Hk]. by destruct (Hm k a Hk) as [-> _].
  - unfold Read.queued. simpl. apply NoDup_alt. intros i j x Hi Hj.
    rewrite list_lookup_fmap in Hi, Hj.
    apply fmap_Some in Hi as (a & Ha & ->). apply fmap_Some in Hj as (b & Hb & Hab).
    destruct (Hm i a Ha) as [_ Hia]. destruct (Hm j b Hb) as [_ Hjb]. lia.
Qed.

(** X14. In the record of a run, the retry count of every execution is the
    number of executions of the same entry that precede it. *)
Theorem scheduler_retry_count_counts_executions
    (origin : Read.url_URL) (spines : list Read.Spine)
    (reqs : list Read.DownloadAttempt) (tk : Read.Ticker) (w : World)
    (fuel : nat) (res : option error) (fin : Read.State) (k : nat) (e : Read.Exec) :
  Read.make_requests env origin 0 spines = inr reqs →
  loop fuel (Read.start reqs tk w) = Some (res, fin) →
  Read.trace fin !! k = Some e →
  Read.Count (Read.attempt e) =
  Z.of_nat (Read.executions_of (Read.Index (Read.attempt e))
              (ReadRun.earlier k (Read.trace fin))).
Proof.
  intros Hmk Hl Hk. apply make_requests_manifest in Hmk as [_ Hm].
  assert (counted fin) as (Hrec & _).
  { apply (loop_invariant_shape reqs counted)
      with (fuel := fuel) (st := Read.start reqs tk w) (res := res);
      [|by apply start_shape|apply start_running|by apply counted_start|done].
    intros st st' a e' app HS HR Hex _ Hc. by eapply counted_step. }
  by apply Hrec.
Qed.

(** ** A run without failures *)

Lemma body_ok st a :
  Read.requests st !! Read.index st = Some a →
  ReadRun.clean_OK (client_Do env (exchanges (Read.world st)) (Read.Request a)) →
  ∃ st', body st = Read.Continue st' ∧
    Read.requests st' = Read.requests st ∧ Read.index st' = S (Read.index st) ∧
    (∃ t, Read.trace st' = Read.trace st ++ [Read.mkExec t a Read.Succeeded]) ∧
    exchanges (Read.world st') = S (exchanges (Read.world st)) ∧
    files (Read.world st') =
      <[destination a :=
          ReadRun.body_of (client_Do env (exchanges (Read.world st)) (Read.Request a))]>
        (files (Read.world st)).
Proof.
  intros Hq (Hok & Hc & Hp). unfold Read.body. rewrite Hq. unfold Read.receive.
  unfold got_OK in Hok. unfold ReadRun.body_of.
  destruct (answer _) as [msg|[status body0]] eqn:Ha; [done|]. simpl in Hok.
  apply Z.eqb_eq in Hok. unfold StatusOK in Hok. subst status.
  erewrite read_downloadFile_ok; [|exact Ha|exact Hc|exact Hp].
  eexists. split; [reflexivity|]. simpl. split; [done|]. split; [done|].
  split; [by eexists|]. done.
Qed.

Lemma all_ok_from reqs w m : ∀ st,
  (∀ n request, ReadRun.clean_OK (client_Do env n request)) →
  NoDup (destination <$> reqs) →
  all_ok reqs w st → (Read.index st + m = length reqs)%nat →
  ∃ fin, loop (S m) st = Some (None, fin) ∧ all_ok reqs w fin ∧
         Read.index fin = length reqs.
Proof.
  induction m as [|m IH]; intros st Hclean Hnd HQ Hm.
  - exists st. simpl. rewrite body_exit.
    + split; [done|]. split; [done|]. lia.
    + destruct HQ as (-> & _). apply lookup_ge_None. lia.
  - destruct HQ as (Hreq & Htr & Hall & Hex & Hfiles).
    destruct (lookup_lt_is_Some_2 reqs (Read.index st)) as [a Ha]; [lia|].
    destruct (body_ok st a) as (st' & Hb & Hreq' & Hidx & (t & Htr') & Hex' & Hf');
      [by rewrite Hreq|apply Hclean|].
    destruct (IH st') as (fin & Hl & HQ' & Hfin); [done|done| |lia|].
    + split; [congruence|]. split.
      { rewrite Htr', fmap_app, Htr, Hidx. simpl. symmetry. by apply take_S_r. }
      split. { rewrite Htr'. apply Forall_app. split; [done|]. by apply Forall_singleton. }
      split; [lia|].
      intros k b Hk Hkb. rewrite Hf'. rewrite Hidx in Hk.
      destruct (decide (k = Read.index st)) as [->|Hne].
      * simplify_eq. rewrite lookup_insert_eq. by rewrite Hex.
      * rewrite lookup_insert_ne; [apply Hfiles; [lia|done]|].
        intros Heq. apply Hne. symmetry.
        eapply (proj1 (NoDup_alt _) Hnd); rewrite list_lookup_fmap.
        -- by rewrite Ha.
        -- rewrite Hkb. simpl. by rewrite Heq.
    + exists fin. split; [|done]. simpl. by rewrite Hb.
Qed.

(** X15. When every exchange is a 200 whose body reaches the file, and no two
    attempts share a destination, the run of a queue of [N] attempts returns
    no error after [N + 1] turns: it executes the attempts once each, in
    order, all recorded as [Succeeded], and the destination of the attempt
    of position [k] holds the body of the exchange of number [k]. *)
Theorem scheduler_all_ok
    (reqs : list Read.DownloadAttempt) (tk : Read.Ticker) (w : World) :
  (∀ n request, ReadRun.clean_OK (client_Do env n request)) →
  NoDup (destination <$> reqs) →
  ∃ fin,
    loop (S (length reqs)) (Read.start reqs tk w) = Some (None, fin) ∧
    Read.requests fin = reqs ∧
    Read.attempt <$> Read.trace fin = reqs ∧
    Forall (λ e, Read.outcome e = Read.Succeeded) (Read.trace fin) ∧
    ∀ k a, reqs !! k = Some a →
      files (Read.world fin) !! destination a =
      Some (ReadRun.body_of (client_Do env (exchanges w + k) (Read.Request a))).
Proof.
  intros Hclean Hnd.
  destruct (all_ok_from reqs w (length reqs) (Read.start reqs tk w) Hclean Hnd)
    as (fin & Hl & (Hreq & Htr & Hall & _ & Hfiles) & Hidx).
  - split; [done|]. split; [done|]. split; [by constructor|]. simpl. split; [lia|].
    intros k a Hk. lia.
  - done.
  - exists fin. split; [done|]. split; [done|]. split.
    { rewrite Htr, Hidx. by apply take_ge. }
    split; [done|]. intros k a Hk. apply Hfiles; [|done].
    apply lookup_lt_Some in Hk. lia.
Qed.

End SchedulerMore.

(** * The run of the reader variant *)

Section ReaderRun.

Variable env : Env.
Variable outputDirectory : string.
Variable retryCount : Z.
Variable unescape : string → string.
Variable json_Unmarshal : string → error + list Read.Spine.
Variable metadata_create_error : option string.
Variable metadata_write_error : option (nat * string).

Local Abbreviation run_document :=
  (ReadRun.run_document env outputDirectory retryCount unescape json_Unmarshal
     metadata_create_error metadata_write_error).
Local Abbreviation metadata := (path_Join env outputDirectory "metadata.json").

(** X16. When the data cannot be located the run ends at once and the world
    is untouched (no metadata file, no exchange): with an error that names
    the tag of a selector of the path when the walk fails, with a panic when
    the located element has no child or its text does not match. *)
Theorem run_document_untouched_when_not_located
    (origin : Read.url_URL) (interval : Z) (document : Read.Node) (w : World) (fuel : nat) :
  match Read.walk Read.htmlPath document with
  | inl err =>
      run_document origin interval document w fuel = Some (Err err, w) ∧
      ∃ tag, tag ∈ ["html"; "body"; "div"; "script"] ∧
             err = errorString ("unable to find element <" +:+ tag +:+ ">")
  | inr current =>
      ∀ msg, Read.extract_data unescape current = Panic msg →
             run_document origin interval document w fuel = Some (Panic msg, w)
  end.
Proof.
  pose proof (walk_cases Read.htmlPath document) as Hw.
  unfold ReadRun.run_document, Read.locate_data.
  destruct (Read.walk Read.htmlPath document) as [err|current].
  - split; [done|]. destruct Hw as (sel & Hin & ->).
    exists (Read.Tag sel). split; [|done].
    unfold Read.htmlPath in Hin. rewrite !elem_of_cons in Hin.
    destruct Hin as [->|[->|[->|[->|Hin]]]]; simpl; rewrite !elem_of_cons; auto.
    by apply elem_of_nil in Hin.
  - intros msg Hm. by rewrite Hm.
Qed.

(** X17. The raw data is in [metadata.json] before it is parsed: when the
    JSON text is refused, or the URL of a spine entry is, the run returns
    that error with the metadata file written and no exchange made. *)
Theorem run_document_metadata_persisted
    (origin : Read.url_URL) (interval : Z) (document : Read.Node) (w : World) (fuel : nat)
    (data : string) (err : error) :
  Read.locate_data unescape document = Ok data →
  metadata_create_error = None → metadata_write_error = None →
  json_Unmarshal data = inl err ∨
  (∃ spine, json_Unmarshal data = inr spine ∧
            Read.make_requests env origin 0 spine = inl err) →
  run_document origin interval document w fuel = Some (Err err, set_file metadata data w).
Proof.
  intros Hd Hc Hw Hcase. unfold ReadRun.run_document. rewrite Hd, Hc, Hw.
  destruct Hcase as [->|(spine & -> & ->)]; done.
Qed.

(** X18. A rate interval that is not positive makes the run panic when the
    ticker is created: the metadata file is written and the attempts are
    built, but nothing is downloaded. *)
Theorem run_document_nonpositive_interval_panics
    (origin : Read.url_URL) (interval : Z) (document : Read.Node) (w : World) (fuel : nat)
    (data : string) (spine : list Read.Spine) (reqs : list Read.DownloadAttempt) :
  interval ≤ 0 →
  Read.locate_data unescape document = Ok data →
  metadata_create_error = None → metadata_write_error = None →
  json_Unmarshal data = inr spine →
  Read.make_requests env origin 0 spine = inr reqs →
  run_document origin interval document w fuel =
    Some (Panic "non-positive interval for NewTicker", set_file metadata data w).
Proof.
  intros Hi Hd Hc Hw Hj Hm. unfold ReadRun.run_document, Read.schedule, Read.NewTicker.
  rewrite Hd, Hc, Hw, Hj, Hm. destruct (Z.leb_spec interval 0); [done|lia].
Qed.

(** X19. Whatever a run does, it touches no file but [metadata.json] and
    the destinations named by the spine of the document. *)
Theorem run_document_writes_only
    (origin : Read.url_URL) (interval : Z) (document : Read.Node) (w w' : World) (fuel : nat)
    (r : result unit) (p : string) :
  run_document origin interval document w fuel = Some (r, w') →
  p ≠ metadata →
  (∀ data spine, Read.locate_data unescape document = Ok data →
                 json_Unmarshal data = inr spine →
                 p ∉ (λ s, path_Join env outputDirectory (Read.OriginalPath s)) <$> spine) →
  files w' !! p = files w !! p.
Proof.
  intros Hrun Hp Hdest. unfold ReadRun.run_document in Hrun.
  destruct (Read.locate_data unescape document) as [data|err|msg]; [|by simplify_eq..].
  destruct metadata_create_error; [by simplify_eq|].
  destruct metadata_write_error as [[n msg]|].
  { simplify_eq. simpl. by rewrite lookup_insert_ne. }
  destruct (json_Unmarshal data) as [err|spine] eqn:Hj.
  { simplify_eq. simpl. by rewrite lookup_insert_ne. }
  destruct (Read.make_requests env origin 0 spine) as [err|reqs] eqn:Hm.
  { simplify_eq. simpl. by rewrite lookup_insert_ne. }
  unfold Read.schedule in Hrun.
  destruct (Read.NewTicker interval _) as [tk|].
  2:{ simplify_eq. simpl. by rewrite lookup_insert_ne. }
  destruct (Read.loop env outputDirectory retryCount fuel _) as [[res fin]|] eqn:Hl; [|done].
  assert (files (Read.world fin) !! p = files (set_file metadata data w) !! p) as Hfin.
  { eapply loop_files_frame; [exact Hm|exact Hl|].
    by apply (Hdest data spine). }
  simpl in Hfin. rewrite lookup_insert_ne in Hfin by done.
  destruct res; by simplify_eq.
Qed.

End ReaderRun.

(** * Query strings *)

Lemma QueryEscape_cons (c : ascii) (r : string) :
  url.QueryEscape (String c r) = url.QueryEscape (String c EmptyString) +:+ url.QueryEscape r.
Proof.
  simpl. destruct (url.shouldEscape (byte_of_ascii c)); [|done].
  by destruct (byte_of_ascii c =? 32).
Qed.

Lemma QueryEscape_char_alphabet (c : ascii) :
  forallb url.query_safe (bytes_of_string (url.QueryEscape (String c EmptyString))) = true.
Proof. destruct c as [[] [] [] [] [] [] [] []]; vm_compute; reflexivity. Qed.

Lemma forallb_app_true {A} (f : A → bool) (l k : list A) :
  forallb f l = true → forallb f k = true → forallb f (l ++ k) = true.
Proof. intros Hl Hk. rewrite forallb_app, Hl, Hk. done. Qed.

(** An escaped query component holds nothing but letters, digits, the
    marks [-], [_], [.], [~], the percent sign and the plus sign: in
    particular no ampersand and no equals sign. *)
Lemma QueryEscape_alphabet (s : string) :
  forallb url.query_safe (bytes_of_string (url.QueryEscape s)) = true ∧
  url.occurrences 38 (url.QueryEscape s) = 0%nat ∧
  url.occurrences 61 (url.QueryEscape s) = 0%nat.
Proof.
  assert (forallb url.query_safe (bytes_of_string (url.QueryEscape s)) = true) as Hsafe.
  { induction s as [|c s IH]; [done|].
    rewrite QueryEscape_cons, bytes_of_string_app.
    apply forallb_app_true; [apply QueryEscape_char_alphabet|done]. }
  split; [done|]. unfold url.occurrences.
  induction (bytes_of_string (url.QueryEscape s)) as [|b l IH]; [done|].
  simpl in Hsafe. apply andb_true_iff in Hsafe as [Hb Hl].
  destruct (IH Hl) as [H38 H61]. rewrite !count_cons, H38, H61.
  assert (b ≠ 38 ∧ b ≠ 61) as [? ?].
  { split; intros ->; vm_compute in Hb; done. }
  destruct (Z.eqb_spec b 38), (Z.eqb_spec b 61); done.
Qed.

Lemma append_assoc_s (a b c : string) : (a +:+ b) +:+ c = a +:+ (b +:+ c).
Proof.
  induction a as [|x a IH]; [done|].
  change (String x ((a +:+ b) +:+ c) = String x (a +:+ (b +:+ c))). by rewrite IH.
Qed.

Lemma length_append_s (a b : string) :
  String.length (a +:+ b) = (String.length a + String.length b)%nat.
Proof.
  induction a as [|x a IH]; [done|].
  change (S (String.length (a +:+ b)) = S (String.length a + String.length b)). by rewrite IH.
Qed.

Lemma length_pos_append (a b : string) :
  (0 < String.length a)%nat → (0 < String.length (a +:+ b))%nat.
Proof. rewrite length_append_s. lia. Qed.

Lemma write_values_first k v :
  url.write_values k [v] EmptyString = k +:+ "=" +:+ url.QueryEscape v.
Proof. reflexivity. Qed.

Lemma write_values_next k v (buf : string) :
  (0 < String.length buf)%nat →
  url.write_values k [v] buf = buf +:+ "&" +:+ k +:+ "=" +:+ url.QueryEscape v.
Proof.
  intros Hlen. cbn. destruct (String.length buf); [lia|].
  by rewrite !append_assoc_s.
Qed.

Lemma Encode_five (mediaId clientId omc os hash : string) :
  url.Encode [ ("MediaID", [mediaId]); ("ClientID", [clientId]); ("OMC", [omc]);
               ("OS", [os]); ("Hash", [hash]) ] =
  "ClientID=" +:+ url.QueryEscape clientId +:+ "&Hash=" +:+ url.QueryEscape hash +:+
  "&MediaID=" +:+ url.QueryEscape mediaId +:+ "&OMC=" +:+ url.QueryEscape omc +:+
  "&OS=" +:+ url.QueryEscape os.
Proof.
  unfold url.Encode.
  replace (url.sorted_by_key _) with
    [ ("ClientID", [clientId]); ("Hash", [hash]); ("MediaID", [mediaId]);
      ("OMC", [omc]); ("OS", [os]) ] by (vm_compute; reflexivity).
  cbn [url.write_keys].
  change (url.QueryEscape "ClientID") with "ClientID".
  change (url.QueryEscape "Hash") with "Hash".
  change (url.QueryEscape "MediaID") with "MediaID".
  change (url.QueryEscape "OMC") with "OMC".
  change (url.QueryEscape "OS") with "OS".
  rewrite write_values_first.
  rewrite !write_values_next by (repeat apply length_pos_append; simpl; lia).
  rewrite !append_assoc_s. reflexivity.
Qed.

Lemma encodedLicenseHash_value : File.encodedLicenseHash = "Y/FyR6Zq9Iu2GqYbNPzmvqgnwP0=".
Proof. vm_compute. reflexivity. Qed.

Lemma occurrences_app (c : Z) (a b : string) :
  url.occurrences c (a +:+ b) = (url.occurrences c a + url.occurrences c b)%nat.
Proof. unfold url.occurrences. by rewrite bytes_of_string_app, count_app. Qed.

(** X20. Whatever the content identifier, the query of the acquisition
    request is the five parameters [ClientID], [Hash], [MediaID], [OMC] and
    [OS] in this order, with the escaped identifier as [MediaID]: it holds
    exactly four ampersands and five equals signs. *)
Theorem RawQuery_shape (contentId : string) :
  FileRun.RawQuery contentId =
    "ClientID=00000000-0000-0000-0000-000000000000&Hash=Y%2FFyR6Zq9Iu2GqYbNPzmvqgnwP0%3D&MediaID="
    +:+ url.QueryEscape contentId +:+ "&OMC=1.2.0&OS=10.14.2" ∧
  url.occurrences 38 (FileRun.RawQuery contentId) = 4%nat ∧
  url.occurrences 61 (FileRun.RawQuery contentId) = 5%nat.
Proof.
  assert (FileRun.RawQuery contentId =
    "ClientID=00000000-0000-0000-0000-000000000000&Hash=Y%2FFyR6Zq9Iu2GqYbNPzmvqgnwP0%3D&MediaID="
    +:+ url.QueryEscape contentId +:+ "&OMC=1.2.0&OS=10.14.2") as Heq.
  { unfold FileRun.RawQuery. rewrite Encode_five, encodedLicenseHash_value. reflexivity. }
  split; [done|]. rewrite Heq, !occurrences_app.
  destruct (QueryEscape_alphabet contentId) as (_ & -> & ->). split; reflexivity.
Qed.

(** * The run of the file variant *)

Section FileRunFacts.

Variable env : Env.
Variable outputDirectory : string.
Variable URL_String : string → string → string.
Variable ReadAll_error : nat → option string.

Local Abbreviation downloadFile := (File.downloadFile env outputDirectory).
Local Abbreviation download_parts := (File.download_parts env outputDirectory).
Local Abbreviation run_decoded :=
  (FileRun.run_decoded env outputDirectory URL_String ReadAll_error).
Local Abbreviation destinations := (FileRun.destinations env outputDirectory).

Lemma file_downloadFile_None baseUrl license part w :
  (downloadFile baseUrl part license w).1 = None →
  exchanges (downloadFile baseUrl part license w).2 = S (exchanges w).
Proof.
  unfold File.downloadFile, File.part_request, NewRequest.
  destruct (NewRequest_error env _) as [msg|]; simpl; [done|].
  set (x := client_Do env (exchanges w) _).
  destruct (answer x) as [msg|response]; [done|]. simpl.
  destruct (negb _); [done|]. intros _.
  by destruct (create_and_copy_world x
       (path_Join env outputDirectory (File.Name part +:+ ".mp3")) (Body response)
       (exchanged x w)) as (_ & He & _).
Qed.

Lemma download_parts_frame
    (baseUrl license : string) (parts : list File.Part) (w : World) :
  (exchanges w ≤ exchanges (download_parts baseUrl license parts w).2
   ≤ exchanges w + length parts)%nat ∧
  ((download_parts baseUrl license parts w).1 = None →
   exchanges (download_parts baseUrl license parts w).2 = (exchanges w + length parts)%nat) ∧
  ∀ p, p ∉ destinations parts →
       files (download_parts baseUrl license parts w).2 !! p = files w !! p.
Proof.
  revert w. induction parts as [|part rest IH]; intros w; simpl.
  - split; [lia|]. split; [lia|done].
  - pose proof (file_downloadFile_untouched env outputDirectory baseUrl license part w)
      as (Hex & _ & Hf).
    pose proof (file_downloadFile_None baseUrl license part w) as Hnone.
    destruct (downloadFile baseUrl part license w) as [[err|] w1]; simpl in *.
    + split; [lia|]. split; [done|]. intros p Hp. apply Hf.
      intros ->. apply Hp. apply list_elem_of_here.
    + specialize (IH w1). destruct IH as (Hb & Heq & Hfr). rewrite (Hnone eq_refl) in *.
      split; [lia|]. split; [intros Hn; rewrite (Heq Hn); lia|].
      intros p Hp. rewrite Hfr.
      * apply Hf. intros ->. apply Hp. apply list_elem_of_here.
      * intros Hin. apply Hp. by apply list_elem_of_further.
Qed.

(** X21. The parts are requested in order until one fails: the loop makes at
    most one exchange per part, exactly one per part when it returns no
    error, and touches no file but the destinations [<name>.mp3] of the
    parts. *)
Theorem download_parts_exchanges
    (baseUrl license : string) (parts : list File.Part) (w : World) :
  (exchanges w ≤ exchanges (download_parts baseUrl license parts w).2
   ≤ exchanges w + length parts)%nat ∧
  ((download_parts baseUrl license parts w).1 = None →
   exchanges (download_parts baseUrl license parts w).2 = (exchanges w + length parts)%nat) ∧
  ∀ p, p ∉ destinations parts →
       files (download_parts baseUrl license parts w).2 !! p = files w !! p.
Proof. apply download_parts_frame. Qed.

(** The run once the checks have passed on a descriptor with an
    acquisition URL. *)
Lemma run_decoded_checked (data : File.OverDriveMedia) (w : World) format0 protocol0 :
  File.check_descriptor data = None →
  File.Formats data = [format0] → File.Protocols format0 = [protocol0] →
  run_decoded true data w =
  match NewRequest env (URL_String (File.AcquisitionUrl data)
                          (FileRun.RawQuery (File.ContentId data))) with
  | inl err => (Err err, w)
  | inr request0 =>
    let x := client_Do env (exchanges w) (Header_Set "User-Agent" File.UserAgent request0) in
    match answer x with
    | inl msg => (Err (errorString msg), exchanged x w)
    | inr response =>
      if negb (StatusCode response =? StatusOK) then
        match ReadAll_error (exchanges w) with
        | Some msg => (Err (errorString msg), exchanged x w)
        | None =>
          (Err (errorString ("acquiring license returned a " +:+ fmt_d (StatusCode response)
                             +:+ " status: " +:+ Body response)), exchanged x w)
        end
      else
        match ReadAll_error (exchanges w) with
        | Some msg => (Err (errorString msg), exchanged x w)
        | None =>
          match download_parts (File.BaseUrl protocol0) (Body response)
                  (File.Part_ (File.Parts_ format0)) (exchanged x w) with
          | (Some err, w2) => (Err err, w2)
          | (None, w2) => (Ok tt, w2)
          end
        end
    end
  end.
Proof.
  intros Hc Hf Hp. unfold FileRun.run_decoded. rewrite Hc. simpl.
  destruct (NewRequest env _) as [err|request0]; [done|]. simpl.
  destruct (answer _) as [m|response]; [done|].
  destruct (negb _); [done|]. destruct (ReadAll_error _); [done|].
  rewrite Hf. simpl. rewrite Hp. simpl. done.
Qed.

(** X22. The run panics exactly when the checks pass on a descriptor
    without acquisition URL, and then before anything is requested or
    written; the index expressions on the formats and the protocols never
    panic, being reached only after the checks have found exactly one of
    each. *)
Theorem run_decoded_panics_iff (has_url : bool) (data : File.OverDriveMedia) (w : World) :
  (FileRun.panicked (run_decoded has_url data w).1 = true ↔
   File.check_descriptor data = None ∧ has_url = false) ∧
  (FileRun.panicked (run_decoded has_url data w).1 = true → (run_decoded has_url data w).2 = w).
Proof.
  destruct (File.check_descriptor data) as [err|] eqn:Hc.
  { unfold FileRun.run_decoded. rewrite Hc. simpl. split; [|done].
    split; [done|]. by intros [[=] _]. }
  destruct has_url.
  2:{ unfold FileRun.run_decoded. rewrite Hc. simpl. done. }
  pose proof Hc as Hpass.
  apply check_descriptor_passes in Hpass as (format0 & protocol0 & Hf & _ & Hp & _).
  rewrite (run_decoded_checked data w format0 protocol0 Hc Hf Hp).
  assert (Hno : ∀ r : result unit * World,
             FileRun.panicked r.1 = false →
             (FileRun.panicked r.1 = true ↔ None = None :> option error ∧ true = false) ∧
             (FileRun.panicked r.1 = true → r.2 = w)).
  { intros r ->. split; [|done]. split; [done|]. by intros [_ [=]]. }
  apply Hno.
  destruct (NewRequest env _) as [err|request0]; [done|]. simpl.
  destruct (answer _) as [m|response]; [done|].
  destruct (negb _); destruct (ReadAll_error _); try done.
  by destruct (download_parts _ _ _ _) as [[err|] w2].
Qed.

(** X23. A run that returns no error has found an acquisition URL, one
    format and one download protocol, and has made one exchange for the
    licence and as many exchanges for parts as the descriptor declares. *)
Theorem run_decoded_exchanges (has_url : bool) (data : File.OverDriveMedia) (w : World) :
  (run_decoded has_url data w).1 = Ok tt →
  has_url = true ∧
  ∃ format0 protocol0,
    File.Formats data = [format0] ∧ File.Protocols format0 = [protocol0] ∧
    File.Method protocol0 = "download" ∧
    Z.of_nat (exchanges (run_decoded has_url data w).2) =
      Z.of_nat (exchanges w) + 1 + File.Count (File.Parts_ format0).
Proof.
  destruct (File.check_descriptor data) as [err|] eqn:Hc.
  { unfold FileRun.run_decoded. by rewrite Hc. }
  destruct has_url.
  2:{ unfold FileRun.run_decoded. by rewrite Hc. }
  pose proof Hc as Hpass.
  apply check_descriptor_passes in Hpass as (format0 & protocol0 & Hf & Hcount & Hp & Hm).
  rewrite (run_decoded_checked data w format0 protocol0 Hc Hf Hp).
  destruct (NewRequest env _) as [err|request0]; [done|]. simpl.
  set (x := client_Do env (exchanges w) _).
  destruct (answer x) as [m|response]; [done|].
  destruct (negb _); destruct (ReadAll_error _); try done.
  pose proof (download_parts_frame (File.BaseUrl protocol0) (Body response)
                (File.Part_ (File.Parts_ format0)) (exchanged x w)) as (_ & Heq & _).
  destruct (download_parts _ _ _ _) as [[err|] w2]; [done|]. simpl in *.
  intros _. split; [done|].
  exists format0, protocol0. split; [done|]. split; [done|]. split; [done|].
  rewrite (Heq eq_refl), <- Hcount. lia.
Qed.

(** X24. Unless the licence exchange brings a 200, the run on a descriptor
    with an acquisition URL returns an error without requesting a part or
    writing a file. *)
Theorem run_decoded_acquisition_failure (data : File.OverDriveMedia) (w : World) :
  got_OK (client_Do env (exchanges w)
            (Header_Set "User-Agent" File.UserAgent
               {| URL := URL_String (File.AcquisitionUrl data)
                           (FileRun.RawQuery (File.ContentId data));
                  Header := ∅ |})) = false →
  (∃ err, (run_decoded true data w).1 = Err err) ∧
  files (run_decoded true data w).2 = files w ∧
  (exchanges (run_decoded true data w).2 ≤ S (exchanges w))%nat.
Proof.
  intros Hx. unfold FileRun.run_decoded, NewRequest.
  destruct (File.check_descriptor data) as [err|];
    [split; [by eexists|split; [done|simpl; lia]]|].
  simpl.
  destruct (NewRequest_error env _) as [m|];
    [split; [by eexists|split; [done|simpl; lia]]|].
  unfold got_OK in Hx.
  destruct (answer _) as [m|response];
    [split; [by eexists|split; [done|simpl; lia]]|].
  rewrite Hx. simpl.
  destruct (ReadAll_error _); (split; [by eexists|split; [done|simpl; lia]]).
Qed.

(** X25. Whatever a run does, it touches no file but the destinations
    [<name>.mp3] of the parts of the descriptor. *)
Theorem run_decoded_writes_only
    (has_url : bool) (data : File.OverDriveMedia) (w : World) (p : string) :
  p ∉ FileRun.all_destinations env outputDirectory data →
  files (run_decoded has_url data w).2 !! p = files w !! p.
Proof.
  intros Hp.
  destruct (File.check_descriptor data) as [err|] eqn:Hc.
  { unfold FileRun.run_decoded. by rewrite Hc. }
  destruct has_url.
  2:{ unfold FileRun.run_decoded. by rewrite Hc. }
  pose proof Hc as Hpass.
  apply check_descriptor_passes in Hpass as (format0 & protocol0 & Hf & _ & Hpr & _).
  rewrite (run_decoded_checked data w format0 protocol0 Hc Hf Hpr).
  unfold FileRun.all_destinations in Hp. rewrite Hf in Hp. simpl in Hp.
  rewrite app_nil_r in Hp.
  destruct (NewRequest env _) as [err|request0]; [done|]. simpl.
  set (x := client_Do env (exchanges w) _).
  destruct (answer x) as [m|response]; [done|].
  destruct (negb _); destruct (ReadAll_error _); try done.
  pose proof (download_parts_frame (File.BaseUrl protocol0) (Body response)
                (File.Part_ (File.Parts_ format0)) (exchanged x w)) as (_ & _ & Hfr).
  specialize (Hfr p Hp). by destruct (download_parts _ _ _ _) as [[err|] w2].
Qed.

(** X26. The checks pass exactly on a descriptor with one format, as many
    parts listed as the format declares, and one protocol whose method is
    [download]. *)
Theorem descriptor_accepted_iff (data : File.OverDriveMedia) :
  File.check_descriptor data = None ↔
  ∃ format0 protocol0,
    File.Formats data = [format0] ∧
    Z.of_nat (length (File.Part_ (File.Parts_ format0))) = File.Count (File.Parts_ format0) ∧
    File.Protocols format0 = [protocol0] ∧
    File.Method protocol0 = "download".
Proof. apply check_descriptor_passes. Qed.

End FileRunFacts.

(** * The further properties at concrete inputs *)


Lemma FindSubmatch_finds_witness :
  (10%Z ∉ bytes_of_string "1: {2}") ∧
  is_Some (Read.dataRegxp.FindSubmatch
             ("var a; " +:+ "window.bData = {" +:+ "1: {2}" +:+ "}" +:+ "; done")).
Proof.
  assert (H : 10%Z ∉ bytes_of_string "1: {2}")
    by (apply (bool_decide_unpack _); vm_compute; exact I).
  split; [exact H|]. apply (FindSubmatch_finds "var a; " "1: {2}" "; done"). exact H.
Defined.

Lemma make_requests_attempts_witness :
  Examples.requests_spine2 = imap (ReadRun.attempt_for Examples.origin) Examples.spine2.
Proof.
  apply (make_requests_attempts Examples.no_content Examples.origin Examples.spine2
           Examples.requests_spine2).
  vm_compute. reflexivity.
Defined.

Lemma read_downloadFile_write_failure_witness :
  (Read.downloadFile Cases.truncating "out" 1
     (Read.Request (Examples.attempt_of 1 "a.mp3" 0)) "a.mp3" Examples.world0).1
    = Some (errorString "unexpected EOF") ∧
  files (Read.downloadFile Cases.truncating "out" 1
           (Read.Request (Examples.attempt_of 1 "a.mp3" 0)) "a.mp3" Examples.world0).2
    = <[ "out/a.mp3" := "aud" ]> (files Examples.world0).
Proof.
  apply (read_downloadFile_write_failure Cases.truncating "out" 1
           (Read.Request (Examples.attempt_of 1 "a.mp3" 0)) "a.mp3" Examples.world0 "audio").
  vm_compute. reflexivity.
Defined.

Lemma scheduler_one_exchange_per_execution_witness :
  exchanges (Read.world (Cases.final Cases.flaky_loop))
  = (exchanges Examples.world0 + length (Read.trace (Cases.final Cases.flaky_loop)))%nat.
Proof.
  apply (scheduler_one_exchange_per_execution Examples.flaky "out" 1
           Examples.requests_spine2 Examples.ticker0 Examples.world0 5
           (Cases.returned Cases.flaky_loop) (Cases.final Cases.flaky_loop)).
  vm_compute. reflexivity.
Defined.

Lemma scheduler_writes_only_destinations_witness :
  files (Read.world (Cases.final Cases.flaky_loop)) !! "out/Part 1.mp3"
  = files Examples.world0 !! "out/Part 1.mp3".
Proof.
  apply (scheduler_writes_only_destinations Examples.flaky "out" 1 Examples.origin
           Examples.spine2 Examples.requests_spine2 Examples.ticker0 Examples.world0 5
           (Cases.returned Cases.flaky_loop) (Cases.final Cases.flaky_loop) "out/Part 1.mp3").
  - vm_compute. reflexivity.
  - vm_compute. reflexivity.
  - apply (bool_decide_unpack _). vm_compute. exact I.
Defined.

Lemma scheduler_error_is_last_execution_witness :
  ∃ tr e msg,
    Read.trace (Cases.final Cases.broken_loop) = tr ++ [e] ∧
    Forall (λ e, Read.fatal (Read.outcome e) = false) tr ∧
    Read.outcome e = Read.Fatal (errorString msg) ∧
    errorString "downloading file 1 failed: returned 500 status"
      = errorString ("downloading file " +:+ fmt_d (Read.Index (Read.attempt e))
                     +:+ " failed: " +:+ msg) ∧
    1 ≤ Read.Index (Read.attempt e) ≤ Z.of_nat (length Examples.spine2).
Proof.
  apply (scheduler_error_is_last_execution Examples.broken "out" 1 Examples.origin
           Examples.spine2 Examples.requests_spine2 Examples.ticker0 Examples.world0 5
           (errorString "downloading file 1 failed: returned 500 status")
           (Cases.final Cases.broken_loop)).
  - vm_compute. reflexivity.
  - vm_compute. reflexivity.
Defined.

Lemma scheduler_without_retries_witness :
  ∃ fuel res fin,
    (fuel ≤ S (length Examples.spine2))%nat ∧
    Read.loop Examples.flaky "out" (-1) fuel
      (Read.start Examples.requests_spine2 Examples.ticker0 Examples.world0) = Some (res, fin) ∧
    Read.requests fin = Examples.requests_spine2 ∧
    Read.attempt <$> Read.trace fin
      = take (length (Read.trace fin)) Examples.requests_spine2 ∧
    Forall (λ e, Read.outcome e ≠ Read.RetryPending) (Read.trace fin) ∧
    (res = None → Read.attempt <$> Read.trace fin = Examples.requests_spine2).
Proof.
  apply (scheduler_without_retries Examples.flaky "out" (-1) Examples.origin
           Examples.spine2 Examples.requests_spine2 Examples.ticker0 Examples.world0).
  - lia.
  - vm_compute. reflexivity.
Defined.

Lemma scheduler_retry_count_counts_executions_witness :
  Read.Count (Read.attempt (Cases.exec_at 2 Cases.flaky_loop)) = 1 ∧
  Read.Count (Read.attempt (Cases.exec_at 2 Cases.flaky_loop)) =
  Z.of_nat (Read.executions_of (Read.Index (Read.attempt (Cases.exec_at 2 Cases.flaky_loop)))
              (ReadRun.earlier 2 (Read.trace (Cases.final Cases.flaky_loop)))).
Proof.
  split; [vm_compute; reflexivity|].
  apply (scheduler_retry_count_counts_executions Examples.flaky "out" 1 Examples.origin
           Examples.spine2 Examples.requests_spine2 Examples.ticker0 Examples.world0 5
           (Cases.returned Cases.flaky_loop) (Cases.final Cases.flaky_loop) 2%nat
           (Cases.exec_at 2 Cases.flaky_loop)).
  - vm_compute. reflexivity.
  - vm_compute. reflexivity.
  - vm_compute. reflexivity.
Defined.

Lemma scheduler_all_ok_witness :
  ∃ fin,
    Read.loop Cases.steady "out" 1 (S (length Examples.requests_spine2))
      (Read.start Examples.requests_spine2 Examples.ticker0 Examples.world0) = Some (None, fin) ∧
    Read.requests fin = Examples.requests_spine2 ∧
    Read.attempt <$> Read.trace fin = Examples.requests_spine2 ∧
    Forall (λ e, Read.outcome e = Read.Succeeded) (Read.trace fin) ∧
    ∀ k a, Examples.requests_spine2 !! k = Some a →
      files (Read.world fin) !! ReadRun.destination Cases.steady "out" a =
      Some (ReadRun.body_of
              (client_Do Cases.steady (exchanges Examples.world0 + k) (Read.Request a))).
Proof.
  apply (scheduler_all_ok Cases.steady "out" 1 Examples.requests_spine2 Examples.ticker0
           Examples.world0).
  - intros n request. repeat split; reflexivity.
  - apply (bool_decide_unpack _). vm_compute. exact I.
Defined.

Lemma run_document_metadata_persisted_witness :
  ReadRun.run_document Examples.no_content "out" 1 Cases.identity Cases.json_refuses None None
    Examples.origin (2 * Examples.second) Cases.document Examples.world0 10
  = Some (Err (errorString "invalid character '1' looking for beginning of object key string"),
          set_file "out/metadata.json" "{1: 2}" Examples.world0).
Proof.
  apply (run_document_metadata_persisted Examples.no_content "out" 1 Cases.identity
           Cases.json_refuses None None Examples.origin (2 * Examples.second) Cases.document
           Examples.world0 10 "{1: 2}").
  - vm_compute. reflexivity.
  - reflexivity.
  - reflexivity.
  - left. reflexivity.
Defined.

Lemma run_document_nonpositive_interval_panics_witness :
  ReadRun.run_document Cases.steady "out" 1 Cases.identity Cases.json_spine2 None None
    Examples.origin 0 Cases.document Examples.world0 10
  = Some (Panic "non-positive interval for NewTicker",
          set_file "out/metadata.json" "{1: 2}" Examples.world0).
Proof.
  apply (run_document_nonpositive_interval_panics Cases.steady "out" 1 Cases.identity
           Cases.json_spine2 None None Examples.origin 0 Cases.document Examples.world0 10
           "{1: 2}" Examples.spine2 Examples.requests_spine2).
  - lia.
  - vm_compute. reflexivity.
  - reflexivity.
  - reflexivity.
  - reflexivity.
  - vm_compute. reflexivity.
Defined.

Lemma run_document_writes_only_witness :
  Cases.steady_run = Some (Ok tt, Cases.world_after Cases.steady_run) ∧
  files (Cases.world_after Cases.steady_run) !! "out/Part 1.mp3" = Some "old audio".
Proof.
  assert (H : Cases.steady_run = Some (Ok tt, Cases.world_after Cases.steady_run))
    by (vm_compute; reflexivity).
  split; [exact H|].
  change (files (Cases.world_after Cases.steady_run) !! "out/Part 1.mp3"
          = files Examples.world0 !! "out/Part 1.mp3").
  apply (run_document_writes_only Cases.steady "out" 1 Cases.identity Cases.json_spine2
           None None Examples.origin (2 * Examples.second) Cases.document Examples.world0
           (Cases.world_after Cases.steady_run) 10 (Ok tt) "out/Part 1.mp3").
  - exact H.
  - apply (bool_decide_unpack _). vm_compute. exact I.
  - intros data spine _ [= <-]. apply (bool_decide_unpack _). vm_compute. exact I.
Defined.

Lemma run_decoded_exchanges_witness :
  true = true ∧
  ∃ format0 protocol0,
    File.Formats Cases.descriptor = [format0] ∧ File.Protocols format0 = [protocol0] ∧
    File.Method protocol0 = "download" ∧
    Z.of_nat (exchanges (FileRun.run_decoded Cases.steady "out" Cases.with_query
                           Cases.reads_all true Cases.descriptor Examples.world0).2) =
      Z.of_nat (exchanges Examples.world0) + 1 + File.Count (File.Parts_ format0).
Proof.
  apply (run_decoded_exchanges Cases.steady "out" Cases.with_query Cases.reads_all
           true Cases.descriptor Examples.world0).
  vm_compute. reflexivity.
Defined.

Lemma run_decoded_acquisition_failure_witness :
  (∃ err, (FileRun.run_decoded Examples.no_content "out" Cases.with_query Cases.reads_all
             true Cases.descriptor Examples.world0).1 = Err err) ∧
  files (FileRun.run_decoded Examples.no_content "out" Cases.with_query Cases.reads_all
           true Cases.descriptor Examples.world0).2 = files Examples.world0 ∧
  (exchanges (FileRun.run_decoded Examples.no_content "out" Cases.with_query Cases.reads_all
                true Cases.descriptor Examples.world0).2 ≤ S (exchanges Examples.world0))%nat.
Proof.
  apply (run_decoded_acquisition_failure Examples.no_content "out" Cases.with_query
           Cases.reads_all Cases.descriptor Examples.world0).
  reflexivity.
Defined.

Lemma run_decoded_writes_only_witness :
  files (FileRun.run_decoded Cases.steady "out" Cases.with_query Cases.reads_all
           true Cases.descriptor Examples.world0).2 !! "out/metadata.json"
  = files Examples.world0 !! "out/metadata.json".
Proof.
  apply (run_decoded_writes_only Cases.steady "out" Cases.with_query Cases.reads_all
           true Cases.descriptor Examples.world0 "out/metadata.json").
  apply (bool_decide_unpack _). vm_compute. exact I.
Defined.
